(** * StatisticsLogger (entry-hw, [app/src/main/core/statisticsLogger.ts])

    A shallow embedding of the store-and-forward statistics logger and the
    properties of its specification.

    The logger is a TypeScript class whose state is a handful of fields; its
    work happens in two [setInterval] callbacks.  The embedding keeps the
    shape of the code:

    - run-time values are JavaScript values ([jsval]); objects are ordered
      property lists, as the engine enumerates them;
    - the host (JSON, path, the file system, timers) is modelled by small
      executable definitions that carry the names the source uses;
    - the fields of the instance are the record [Logger]; [World] adds the
      module-level [defaultOptions] object, the host's timer table, the
      environment (disk, clock, network) and the trace of the calls that
      left the program; methods are computations on [World].

    Modelling conventions, fixed once here:

    - a JavaScript string is represented by the bytes of its UTF-8 encoding
      (well-formed text), so writing a string to a file and decoding the
      file again are the identity on the representation;
    - numbers are integers ([JNum]); a JSON number literal with a fraction
      or an exponent is kept by its text ([JReal]), IEEE-754 rounding is not
      modelled;
    - a timer callback runs to completion before the next one starts; the
      per-file tasks of one reconciliation complete in directory order. *)

From Stdlib Require Import ZArith NArith Ascii DecimalString DecimalN DecimalFacts Lia.
From stdpp Require Import base option list gmap strings fin_maps.

Set Warnings "-register-all".
Local Open Scope Z_scope.

(* ===================================================================== *)
(** * JavaScript values                                                   *)
(* ===================================================================== *)

(** Error objects that reach the program: rejections of [fs] calls, the
    [SyntaxError] of [JSON.parse], a rejected HTTP request or probe. *)
Inductive Error : Type :=
  | ENOENT | EISDIR | ENOTDIR | EACCES
  | SyntaxError | TypeError | NetworkError
  | Err (message : string).

Inductive jsval : Type :=
  | JUndefined
  | JNull
  | JBool (b : bool)
  | JNum (z : Z)
  | JReal (lit : string)
  | JStr (s : string)
  | JArr (items : list jsval)
  | JObj (props : list (string * jsval))
  | JError (e : Error).

Abbreviation jsobj := (list (string * jsval)).

(** [o[k]] on an ordinary object: the own property or [undefined]. *)
Fixpoint obj_get (o : jsobj) (k : string) : jsval :=
  match o with
  | [] => JUndefined
  | (k', v) :: r => if decide (k = k') then v else obj_get r k
  end.

(** [o[k] = v]: an existing property keeps its place, a new one goes last. *)
Fixpoint obj_set (o : jsobj) (k : string) (v : jsval) : jsobj :=
  match o with
  | [] => [(k, v)]
  | (k', v') :: r =>
      if decide (k = k') then (k, v) :: r else (k', v') :: obj_set r k v
  end.

(** [Object.assign(target, source)]: every own enumerable property of
    [source], in order, is set on [target]; the (mutated) target is the
    result. *)
Definition Object_assign (target source : jsobj) : jsobj :=
  fold_left (fun t kv => obj_set t kv.1 kv.2) source target.

(** The mantissa of a number literal is zero: all its digits up to the
    exponent marker are [0]. *)
Fixpoint real_is_zero (lit : string) : bool :=
  match lit with
  | EmptyString => true
  | String c r =>
      match N_of_ascii c with
      | 101%N | 69%N => true                       (* e, E *)
      | 45%N | 46%N | 48%N => real_is_zero r       (* - . 0 *)
      | _ => false
      end
  end.

(** ToBoolean. *)
Definition truthy (v : jsval) : bool :=
  match v with
  | JUndefined | JNull => false
  | JBool b => b
  | JNum z => negb (z =? 0)
  | JReal lit => negb (real_is_zero lit)
  | JStr s => negb (bool_decide (s = ""))
  | JArr _ | JObj _ | JError _ => true
  end.

(** Property read [v.k] as destructuring does it: defined on every value the
    program can hold, [undefined] where there is no such own property. *)
Definition get (v : jsval) (k : string) : jsval :=
  match v with
  | JObj o => obj_get o k
  | _ => JUndefined
  end.

(* ===================================================================== *)
(** * JSON                                                                *)
(* ===================================================================== *)

Module JSON.

Definition code (c : ascii) : N := N_of_ascii c.

Definition dquote : ascii := ascii_of_N 34.
Definition backslash : ascii := ascii_of_N 92.

Definition hex_digit (n : N) : ascii :=
  if (n <? 10)%N then ascii_of_N (48 + n) else ascii_of_N (87 + n).

(** QuoteJSONString, one character. *)
Definition quote_char (c : ascii) : string :=
  match code c with
  | 8%N => "\b"
  | 9%N => "\t"
  | 10%N => "\n"
  | 12%N => "\f"
  | 13%N => "\r"
  | 34%N => String backslash (String dquote "")
  | 92%N => "\\"
  | n =>
      if (n <? 32)%N
      then "\u00" +:+ String (hex_digit (n / 16)) (String (hex_digit (n mod 16)) "")
      else String c ""
  end.

Fixpoint quote_chars (s : string) : string :=
  match s with
  | EmptyString => ""
  | String c r => quote_char c +:+ quote_chars r
  end.

Definition quote (s : string) : string :=
  String dquote (quote_chars s +:+ String dquote "").

(** Number::toString of an integer. *)
Definition number_text (z : Z) : string :=
  match z with
  | Zneg p => String "-" (NilEmpty.string_of_uint (N.to_uint (Npos p)))
  | _ => NilEmpty.string_of_uint (N.to_uint (Z.to_N z))
  end.

Fixpoint join (sep : string) (l : list string) : string :=
  match l with
  | [] => ""
  | [x] => x
  | x :: r => x +:+ sep +:+ join sep r
  end.

(** [JSON.stringify(v)]; [None] is the result [undefined].  A property
    whose value is [undefined] is left out, an [undefined] array element is
    written [null]; an Error object has no enumerable property. *)
Fixpoint stringify (v : jsval) : option string :=
  match v with
  | JUndefined => None
  | JNull => Some "null"
  | JBool true => Some "true"
  | JBool false => Some "false"
  | JNum z => Some (number_text z)
  | JReal lit => Some lit
  | JStr s => Some (quote s)
  | JArr items =>
      Some ("[" +:+ join "," (map (fun x => default "null" (stringify x)) items) +:+ "]")
  | JObj props =>
      Some ("{" +:+
            join "," (omap (fun kv => match stringify kv.2 with
                                      | Some t => Some (quote kv.1 +:+ ":" +:+ t)
                                      | None => None
                                      end) props) +:+ "}")
  | JError _ => Some "{}"
  end.

(** ** Parsing *)

Definition is_ws (c : ascii) : bool :=
  match code c with
  | 32%N | 9%N | 10%N | 13%N => true
  | _ => false
  end.

Fixpoint skip_ws (s : string) : string :=
  match s with
  | String c r => if is_ws c then skip_ws r else s
  | EmptyString => ""
  end.

Definition digit (c : ascii) : option (Decimal.uint -> Decimal.uint) :=
  match code c with
  | 48%N => Some Decimal.D0 | 49%N => Some Decimal.D1 | 50%N => Some Decimal.D2
  | 51%N => Some Decimal.D3 | 52%N => Some Decimal.D4 | 53%N => Some Decimal.D5
  | 54%N => Some Decimal.D6 | 55%N => Some Decimal.D7 | 56%N => Some Decimal.D8
  | 57%N => Some Decimal.D9
  | _ => None
  end.

(** The longest prefix of decimal digits, and what follows it. *)
Fixpoint take_digits (s : string) : Decimal.uint * string :=
  match s with
  | String c r =>
      match digit c with
      | Some d => let '(u, r') := take_digits r in (d u, r')
      | None => (Decimal.Nil, s)
      end
  | EmptyString => (Decimal.Nil, "")
  end.

Definition hexval (c : ascii) : option N :=
  let n := code c in
  if ((48 <=? n) && (n <=? 57))%N then Some (n - 48)%N
  else if ((97 <=? n) && (n <=? 102))%N then Some (n - 87)%N
  else if ((65 <=? n) && (n <=? 70))%N then Some (n - 55)%N
  else None.

Definition hex4 (a b c d : ascii) : option N :=
  match hexval a, hexval b, hexval c, hexval d with
  | Some x, Some y, Some z, Some w => Some (((x * 16 + y) * 16 + z) * 16 + w)%N
  | _, _, _, _ => None
  end.

(** UTF-8 bytes of a code point. *)
Definition utf8 (cp : N) : string :=
  let b (n : N) := ascii_of_N n in
  (if cp <? 128 then String (b cp) ""
   else if cp <? 2048 then
     String (b (192 + cp / 64)) (String (b (128 + cp mod 64)) "")
   else if cp <? 65536 then
     String (b (224 + cp / 4096))
       (String (b (128 + (cp / 64) mod 64)) (String (b (128 + cp mod 64)) ""))
   else
     String (b (240 + cp / 262144))
       (String (b (128 + (cp / 4096) mod 64))
          (String (b (128 + (cp / 64) mod 64)) (String (b (128 + cp mod 64)) ""))))%N.

Definition is_high (u : N) : bool := ((55296 <=? u) && (u <=? 56319))%N.
Definition is_low (u : N) : bool := ((56320 <=? u) && (u <=? 57343))%N.

(** The character a one-letter escape stands for. *)
Definition simple_escape (e : ascii) : option ascii :=
  match code e with
  | 34%N | 92%N | 47%N => Some e
  | 98%N => Some (ascii_of_N 8)
  | 102%N => Some (ascii_of_N 12)
  | 110%N => Some (ascii_of_N 10)
  | 114%N => Some (ascii_of_N 13)
  | 116%N => Some (ascii_of_N 9)
  | _ => None
  end.

(** The characters of a string literal after its opening quote, up to and
    without the closing quote.  A surrogate pair of [\u] escapes is one
    code point; a lone surrogate is U+FFFD, which is what it becomes once
    the text is encoded. *)
Fixpoint parse_chars (s : string) : option (string * string) :=
  let cons (t : string) (k : option (string * string)) :=
    match k with
    | Some (body, rest) => Some (t +:+ body, rest)
    | None => None
    end in
  match s with
  | EmptyString => None
  | String c r =>
      if (code c =? 34)%N then Some ("", r)
      else if (code c =? 92)%N then
        match r with
        | EmptyString => None
        | String e r0 =>
            match simple_escape e with
            | Some x => cons (String x "") (parse_chars r0)
            | None =>
                if (code e =? 117)%N then
                  match r0 with
                  | String h1 (String h2 (String h3 (String h4 r1))) =>
                      match hex4 h1 h2 h3 h4 with
                      | None => None
                      | Some u =>
                          if is_high u then
                            match r1 with
                            | String b1 (String b2
                                (String l1 (String l2 (String l3 (String l4 r2))))) =>
                                match (if (code b1 =? 92)%N && (code b2 =? 117)%N
                                       then hex4 l1 l2 l3 l4 else None) with
                                | Some u' =>
                                    if is_low u'
                                    then cons (utf8 (65536 + (u - 55296) * 1024
                                                       + (u' - 56320))%N)
                                              (parse_chars r2)
                                    else cons (utf8 65533) (parse_chars r1)
                                | None => cons (utf8 65533) (parse_chars r1)
                                end
                            | _ => cons (utf8 65533) (parse_chars r1)
                            end
                          else if is_low u then cons (utf8 65533) (parse_chars r1)
                          else cons (utf8 u) (parse_chars r1)
                      end
                  | _ => None
                  end
                else None
            end
        end
      else if (code c <? 32)%N then None
      else cons (String c "") (parse_chars r)
  end.

Definition is_nil (u : Decimal.uint) : bool :=
  match u with Decimal.Nil => true | _ => false end.

(** A JSON integer part: [0], or digits that do not start with [0]. *)
Definition int_part_ok (u : Decimal.uint) : bool :=
  match u with
  | Decimal.Nil => false
  | Decimal.D0 Decimal.Nil => true
  | Decimal.D0 _ => false
  | _ => true
  end.

(** The fraction of a number literal, if any: its text and what follows. *)
Definition parse_frac (s : string) : option (string * string) :=
  match s with
  | String c r =>
      if (code c =? 46)%N then
        let '(u, r') := take_digits r in
        if is_nil u then None
        else Some (String c (NilEmpty.string_of_uint u), r')
      else Some ("", s)
  | EmptyString => Some ("", s)
  end.

(** The exponent of a number literal, if any. *)
Definition parse_exp (s : string) : option (string * string) :=
  match s with
  | String c r =>
      if ((code c =? 101) || (code c =? 69))%N then
        let '(sign, r0) :=
          match r with
          | String g r0 =>
              if ((code g =? 43) || (code g =? 45))%N then (String g "", r0)
              else ("", r)
          | EmptyString => ("", r)
          end in
        let '(u, r') := take_digits r0 in
        if is_nil u then None
        else Some (String c (sign +:+ NilEmpty.string_of_uint u), r')
      else Some ("", s)
  | EmptyString => Some ("", s)
  end.

Definition parse_number (s : string) : option (jsval * string) :=
  let '(neg, s1) :=
    match s with
    | String c r => if (code c =? 45)%N then (true, r) else (false, s)
    | EmptyString => (false, s)
    end in
  let '(u, s2) := take_digits s1 in
  if int_part_ok u then
    match parse_frac s2 with
    | None => None
    | Some (f, s3) =>
        match parse_exp s3 with
        | None => None
        | Some (e, s4) =>
            let n := Z.of_N (N.of_uint u) in
            if bool_decide (f = "") && bool_decide (e = "")
            then Some (JNum (if neg then - n else n), s4)
            else Some (JReal ((if neg then "-" else "") +:+
                              NilEmpty.string_of_uint u +:+ f +:+ e), s4)
        end
    end
  else None.

(** What the first character of a value announces. *)
Inductive Start : Type :=
  | SObject | SArray | SString | STrue | SFalse | SNull | SNumber.

Definition start (c : ascii) : Start :=
  match code c with
  | 123%N => SObject
  | 91%N => SArray
  | 34%N => SString
  | 116%N => STrue
  | 102%N => SFalse
  | 110%N => SNull
  | _ => SNumber
  end.

(** What follows [word] at the head of [s], if [s] starts with it. *)
Fixpoint after (word s : string) : option string :=
  match word with
  | EmptyString => Some s
  | String x word' =>
      match s with
      | String c s' => if (code c =? code x)%N then after word' s' else None
      | EmptyString => None
      end
  end.

(** Recursive descent; [fuel] bounds the number of nested and successive
    values, [parse] supplies the length of the text. *)
Fixpoint parse_value (fuel : nat) (s : string) : option (jsval * string) :=
  match fuel with
  | O => None
  | S n =>
      match skip_ws s with
      | EmptyString => None
      | String c r =>
          match start c with
          | SObject =>
              match skip_ws r with
              | String c' r' =>
                  if (code c' =? 125)%N then Some (JObj [], r')
                  else parse_members n r []
              | EmptyString => None
              end
          | SArray =>
              match skip_ws r with
              | String c' r' =>
                  if (code c' =? 93)%N then Some (JArr [], r')
                  else parse_elements n r []
              | EmptyString => None
              end
          | SString =>
              match parse_chars r with
              | Some (t, r') => Some (JStr t, r')
              | None => None
              end
          | STrue =>
              match after "rue" r with
              | Some r' => Some (JBool true, r')
              | None => None
              end
          | SFalse =>
              match after "alse" r with
              | Some r' => Some (JBool false, r')
              | None => None
              end
          | SNull =>
              match after "ull" r with
              | Some r' => Some (JNull, r')
              | None => None
              end
          | SNumber => parse_number (String c r)
          end
      end
  end
with parse_members (fuel : nat) (s : string) (acc : jsobj)
     : option (jsval * string) :=
  match fuel with
  | O => None
  | S n =>
      match skip_ws s with
      | EmptyString => None
      | String c r =>
          if (code c =? 34)%N then
            match parse_chars r with
            | None => None
            | Some (k, r1) =>
                match skip_ws r1 with
                | EmptyString => None
                | String c2 r2 =>
                    if (code c2 =? 58)%N then
                      match parse_value n r2 with
                      | None => None
                      | Some (v, r3) =>
                          match skip_ws r3 with
                          | EmptyString => None
                          | String c3 r4 =>
                              if (code c3 =? 44)%N
                              then parse_members n r4 (obj_set acc k v)
                              else if (code c3 =? 125)%N
                              then Some (JObj (obj_set acc k v), r4)
                              else None
                          end
                      end
                    else None
                end
            end
          else None
      end
  end
with parse_elements (fuel : nat) (s : string) (acc : list jsval)
     : option (jsval * string) :=
  match fuel with
  | O => None
  | S n =>
      match parse_value n s with
      | None => None
      | Some (v, r) =>
          match skip_ws r with
          | EmptyString => None
          | String c r' =>
              if (code c =? 44)%N then parse_elements n r' (acc ++ [v])
              else if (code c =? 93)%N then Some (JArr (acc ++ [v]), r')
              else None
          end
      end
  end.

(** [JSON.parse(text)]; [None] is the thrown [SyntaxError]. *)
Definition parse (text : string) : option jsval :=
  match parse_value (S (String.length text)) text with
  | Some (v, r) => if bool_decide (skip_ws r = "") then Some v else None
  | None => None
  end.

End JSON.

(* ===================================================================== *)
(** * path, crypto                                                        *)
(* ===================================================================== *)

Module path.

(** The suffix that starts at the last dot, if there is a dot. *)
Fixpoint from_last_dot (s : string) : option string :=
  match s with
  | EmptyString => None
  | String c r =>
      match from_last_dot r with
      | Some e => Some e
      | None => if (N_of_ascii c =? 46)%N then Some s else None
      end
  end.

(** [path.extname] of a base name (a directory entry holds no separator):
    from the last dot to the end; empty when there is no dot, when the
    only dot is the first character, and for the name of the parent
    directory. *)
Definition extname (name : string) : string :=
  match name with
  | EmptyString => ""
  | String c r =>
      match from_last_dot r with
      | Some e => if bool_decide (name = "..") then "" else e
      | None => ""
      end
  end.

End path.

(** [String.prototype.toLowerCase] on the ASCII letters, the only ones whose
    lower case can be a character of [LOG_EXTENSION]. *)
Definition lower_char (c : ascii) : ascii :=
  let n := N_of_ascii c in
  if ((65 <=? n) && (n <=? 90))%N then ascii_of_N (n + 32) else c.

Fixpoint toLowerCase (s : string) : string :=
  match s with
  | EmptyString => ""
  | String c r => String (lower_char c) (toLowerCase r)
  end.

(** [buf.toString('hex')] of a buffer of [bytes] bytes holding the number
    [n] (big endian): two lower-case digits per byte. *)
Fixpoint toString_hex (digits : nat) (n : N) : string :=
  match digits with
  | O => ""
  | S d => toString_hex d (n / 16) +:+ String (JSON.hex_digit (n mod 16)) ""
  end.

(* ===================================================================== *)
(** * The file system                                                     *)
(* ===================================================================== *)

(** What a directory holds under a name: a regular file, or something that
    [readFile] and [unlink] reject (a sub-directory). *)
Inductive entry : Type :=
  | RegFile (content : string)
  | SubDir.

(** What the disk holds under a path: a directory (which may be read-only)
    or a regular file.  The path [path.join(dir, name)] of a directory entry
    is the pair of [dir] and [name]. *)
Inductive node : Type :=
  | Dir (writable : bool) (files : gmap string entry)
  | File.

Module fs.

(** fs-extra [ensureDir]: creates the directory when nothing is there. *)
Definition ensureDir (d : gmap string node) (p : string)
  : Error + gmap string node :=
  match d !! p with
  | None => inr (<[p := Dir true ∅]> d)
  | Some (Dir _ _) => inr d
  | Some File => inl ENOTDIR
  end.

Definition readdir (d : gmap string node) (p : string) : Error + list string :=
  match d !! p with
  | Some (Dir _ files) => inr (map fst (map_to_list files))
  | Some File => inl ENOTDIR
  | None => inl ENOENT
  end.

Definition readFile (d : gmap string node) (p name : string) : Error + string :=
  match d !! p with
  | Some (Dir _ files) =>
      match files !! name with
      | Some (RegFile content) => inr content
      | Some SubDir => inl EISDIR
      | None => inl ENOENT
      end
  | Some File => inl ENOTDIR
  | None => inl ENOENT
  end.

Definition unlink (d : gmap string node) (p name : string)
  : Error + gmap string node :=
  match d !! p with
  | Some (Dir writable files) =>
      match files !! name with
      | Some (RegFile _) =>
          if writable then inr (<[p := Dir writable (delete name files)]> d)
          else inl EACCES
      | Some SubDir => inl EISDIR
      | None => inl ENOENT
      end
  | Some File => inl ENOTDIR
  | None => inl ENOENT
  end.

Definition writeFile (d : gmap string node) (p name content : string)
  : Error + gmap string node :=
  match d !! p with
  | Some (Dir writable files) =>
      match files !! name with
      | Some SubDir => inl EISDIR
      | _ =>
          if writable
          then inr (<[p := Dir writable (<[name := RegFile content]> files)]> d)
          else inl EACCES
      end
  | Some File => inl ENOTDIR
  | None => inl ENOENT
  end.

End fs.

(* ===================================================================== *)
(** * The logger and its host                                             *)
(* ===================================================================== *)

(** [this.options] is either [undefined] or a reference; the only object it
    is ever bound to is the module-level [defaultOptions] (the target that
    [Object.assign] returns). *)
Inductive ref : Type := RDefaultOptions.

(** The fields of the [StatisticsLogger] instance. *)
Record Logger : Type := mkLogger {
  options : option ref;
  logQueue : list jsval;
  isInternetConnected : bool;
  lastInternetConnectedFlag : bool;
  connectionCheckInterval : option positive;
  queueCheckInterval : option positive;
  defaultLoggerInfo : jsobj;
}.

(** The callback an interval timer was created with. *)
Inductive Callback : Type := ProbeTick | DispatchTick.

#[global] Instance Callback_eq_dec : EqDecision Callback.
Proof. solve_decision. Defined.

(** What the program does not control: the disk, the clock, the random
    source, whether the collector answers, and what the connectivity probe
    resolves to (or rejects with). *)
Record Env : Type := mkEnv {
  disk : gmap string node;
  clock : Z;
  entropy : nat -> N;
  drawn : nat;
  sink_up : bool;
  reachable : Error + bool;
}.

(** Calls that leave the program, with their outcome. *)
Inductive IO : Type :=
  | FsEnsureDir (p : string) (failed : option Error)
  | FsReaddir (p : string) (failed : option Error)
  | FsReadFile (p name : string) (failed : option Error)
  | FsUnlink (p name : string) (failed : option Error)
  | FsWriteFile (p name content : string) (failed : option Error)
  | HttpGet (url : jsval) (params : jsobj) (failed : option Error)
  | ProbeCall (result : Error + bool)
  | ConsoleError (args : list jsval).

Record World : Type := mkWorld {
  this : Logger;
  defaultOptions : jsobj;
  timers : gmap positive (Callback * jsval);
  nextTimer : positive;
  env : Env;
  trace : list IO;
}.

Definition LOG_EXTENSION : string := ".ehl".

(** The module-level [defaultOptions] as the module is loaded. *)
Definition defaultOptions0 : jsobj :=
  [("networkCheckInterval", JNum 1000); ("logCheckInterval", JNum 1000)].

(** The exported instance right after [new StatisticsLogger()]. *)
Definition new_StatisticsLogger (osType : string) : Logger :=
  {| options := None;
     logQueue := [];
     isInternetConnected := true;
     lastInternetConnectedFlag := false;
     connectionCheckInterval := None;
     queueCheckInterval := None;
     defaultLoggerInfo := [("osType", JStr osType)] |}.

Definition init (osType : string) (e : Env) : World :=
  {| this := new_StatisticsLogger osType;
     defaultOptions := defaultOptions0;
     timers := ∅;
     nextTimer := 1%positive;
     env := e;
     trace := [] |}.

(** ** Field updates *)

Definition with_options (o : option ref) (l : Logger) : Logger :=
  mkLogger o (logQueue l) (isInternetConnected l) (lastInternetConnectedFlag l)
           (connectionCheckInterval l) (queueCheckInterval l) (defaultLoggerInfo l).
Definition with_logQueue (q : list jsval) (l : Logger) : Logger :=
  mkLogger (options l) q (isInternetConnected l) (lastInternetConnectedFlag l)
           (connectionCheckInterval l) (queueCheckInterval l) (defaultLoggerInfo l).
Definition with_isInternetConnected (b : bool) (l : Logger) : Logger :=
  mkLogger (options l) (logQueue l) b (lastInternetConnectedFlag l)
           (connectionCheckInterval l) (queueCheckInterval l) (defaultLoggerInfo l).
Definition with_lastInternetConnectedFlag (b : bool) (l : Logger) : Logger :=
  mkLogger (options l) (logQueue l) (isInternetConnected l) b
           (connectionCheckInterval l) (queueCheckInterval l) (defaultLoggerInfo l).
Definition with_connectionCheckInterval (h : option positive) (l : Logger) : Logger :=
  mkLogger (options l) (logQueue l) (isInternetConnected l) (lastInternetConnectedFlag l)
           h (queueCheckInterval l) (defaultLoggerInfo l).
Definition with_queueCheckInterval (h : option positive) (l : Logger) : Logger :=
  mkLogger (options l) (logQueue l) (isInternetConnected l) (lastInternetConnectedFlag l)
           (connectionCheckInterval l) h (defaultLoggerInfo l).

Definition with_this (f : Logger -> Logger) (w : World) : World :=
  mkWorld (f (this w)) (defaultOptions w) (timers w) (nextTimer w) (env w) (trace w).
Definition with_defaultOptions (o : jsobj) (w : World) : World :=
  mkWorld (this w) o (timers w) (nextTimer w) (env w) (trace w).
Definition with_timers (t : gmap positive (Callback * jsval)) (n : positive)
           (w : World) : World :=
  mkWorld (this w) (defaultOptions w) t n (env w) (trace w).
Definition with_env (e : Env) (w : World) : World :=
  mkWorld (this w) (defaultOptions w) (timers w) (nextTimer w) e (trace w).
Definition with_disk (d : gmap string node) (w : World) : World :=
  with_env (mkEnv d (clock (env w)) (entropy (env w)) (drawn (env w))
                  (sink_up (env w)) (reachable (env w))) w.
Definition emit (io : IO) (w : World) : World :=
  mkWorld (this w) (defaultOptions w) (timers w) (nextTimer w) (env w) (trace w ++ [io]).

(** ** Effects

    A method or a callback is a computation on the world that either
    completes or throws; what it did to the world before throwing stays
    done.  For an [async] function "throws" is "the promise rejects". *)

Definition M (A : Type) : Type := World -> (Error + A) * World.

#[global] Instance M_ret : MRet M := fun A a w => (inr a, w).
#[global] Instance M_bind : MBind M := fun A B f m w =>
  match m w with
  | (inr a, w') => f a w'
  | (inl e, w') => (inl e, w')
  end.

Definition throw {A : Type} (e : Error) : M A := fun w => (inl e, w).

(** [try { body } catch (e) { handler }] *)
Definition try_catch (body : M unit) (handler : Error -> M unit) : M unit :=
  fun w =>
    match body w with
    | (inr a, w') => (inr a, w')
    | (inl e, w') => handler e w'
    end.

Definition gets {A : Type} (f : World -> A) : M A := fun w => (inr (f w), w).
Definition modify (f : World -> World) : M unit := fun w => (inr tt, f w).

Definition failure {A : Type} (r : Error + A) : option Error :=
  match r with inl e => Some e | inr _ => None end.

(** [await Promise.all(tasks)]: every task runs to its end; the result
    rejects with the first rejection. *)
Fixpoint Promise_all (tasks : list (M unit)) : M unit :=
  fun w =>
    match tasks with
    | [] => (inr tt, w)
    | t :: rest =>
        match t w with
        | (inr _, w') => Promise_all rest w'
        | (inl e, w') => (inl e, (Promise_all rest w').2)
        end
    end.

(** ** Calls to the host *)

(** A path argument must be a string. *)
Definition as_path (v : jsval) : M string :=
  match v with
  | JStr s => mret s
  | _ => throw TypeError
  end.

Definition fs_ensureDir (p : string) : M unit := fun w =>
  match fs.ensureDir (disk (env w)) p with
  | inr d => (inr tt, emit (FsEnsureDir p None) (with_disk d w))
  | inl e => (inl e, emit (FsEnsureDir p (Some e)) w)
  end.

Definition fs_readdir (p : string) : M (list string) := fun w =>
  let r := fs.readdir (disk (env w)) p in (r, emit (FsReaddir p (failure r)) w).

Definition fs_readFile (p name : string) : M string := fun w =>
  let r := fs.readFile (disk (env w)) p name in
  (r, emit (FsReadFile p name (failure r)) w).

Definition fs_unlink (p name : string) : M unit := fun w =>
  match fs.unlink (disk (env w)) p name with
  | inr d => (inr tt, emit (FsUnlink p name None) (with_disk d w))
  | inl e => (inl e, emit (FsUnlink p name (Some e)) w)
  end.

Definition fs_writeFile (p name content : string) : M unit := fun w =>
  match fs.writeFile (disk (env w)) p name content with
  | inr d => (inr tt, emit (FsWriteFile p name content None) (with_disk d w))
  | inl e => (inl e, emit (FsWriteFile p name content (Some e)) w)
  end.

Definition JSON_parse (text : string) : M jsval :=
  match JSON.parse text with
  | Some v => mret v
  | None => throw SyntaxError
  end.

(** [JSON.stringify] handed to [writeFile], which rejects [undefined]. *)
Definition JSON_stringify (v : jsval) : M string :=
  match JSON.stringify v with
  | Some text => mret text
  | None => throw TypeError
  end.

Definition Date_now : M Z := gets (fun w => clock (env w)).

(** [crypto.randomBytes(20)], as the number the twenty bytes spell. *)
Definition crypto_randomBytes : M N := fun w =>
  let e := env w in
  (inr (entropy e (drawn e)),
   with_env (mkEnv (disk e) (clock e) (entropy e) (S (drawn e))
                   (sink_up e) (reachable e)) w).

Definition axios_get (url : jsval) (params : jsobj) : M unit := fun w =>
  if sink_up (env w)
  then (inr tt, emit (HttpGet url params None) w)
  else (inl NetworkError, emit (HttpGet url params (Some NetworkError)) w).

(** The imported [./functions/isInternetConnected]. *)
Definition functions_isInternetConnected : M bool := fun w =>
  (reachable (env w), emit (ProbeCall (reachable (env w))) w).

Definition console_error (args : list jsval) : M unit :=
  modify (emit (ConsoleError args)).

Definition setInterval (cb : Callback) (delay : jsval) : M positive := fun w =>
  (inr (nextTimer w),
   with_timers (<[nextTimer w := (cb, delay)]> (timers w)) (Pos.succ (nextTimer w)) w).

Definition clearInterval (h : option positive) : M unit :=
  modify (fun w =>
            match h with
            | Some id => with_timers (delete id (timers w)) (nextTimer w) w
            | None => w
            end).

(** ** The methods of [StatisticsLogger] *)

(** [this.options!]: the object behind the reference. *)
Definition this_options : M jsobj := fun w =>
  match options (this w) with
  | Some RDefaultOptions => (inr (defaultOptions w), w)
  | None => (inl TypeError, w)
  end.

Definition push (v : jsval) : M unit :=
  modify (with_this (fun l => with_logQueue (logQueue l ++ [v]) l)).

Definition shift : M jsval := fun w =>
  match logQueue (this w) with
  | [] => (inr JUndefined, w)
  | v :: q => (inr v, with_this (with_logQueue q) w)
  end.

(** [setOptions] (lines 53-65).  The target of [Object.assign] is the
    module-level [defaultOptions]; [this.options] becomes a reference to it. *)
Definition setOptions (nextOptions : jsobj) : M unit :=
  if negb (truthy (obj_get nextOptions "logPath"))
  then throw (Err "logPath property must be presented")
  else if negb (truthy (obj_get nextOptions "serverUrl"))
  then throw (Err "server url must be presented")
  else
    modify (fun w =>
              with_this (with_options (Some RDefaultOptions))
                (with_defaultOptions (Object_assign (defaultOptions w) nextOptions) w)).

(** [stop] (lines 80-83).  The handle fields keep their values. *)
Definition stop : M unit :=
  l ← gets this;
  clearInterval (connectionCheckInterval l);;
  clearInterval (queueCheckInterval l).

(** [checkInternetConnected] (lines 105-109): sets the timer whose callback
    is [probe_tick]. *)
Definition checkInternetConnected : M unit :=
  o ← this_options;
  h ← setInterval ProbeTick (obj_get o "networkCheckInterval");
  modify (with_this (with_connectionCheckInterval (Some h))).

(** [checkLoggerQueue] (lines 121-143): sets the timer whose callback is
    [dispatch_tick]. *)
Definition checkLoggerQueue : M unit :=
  o ← this_options;
  h ← setInterval DispatchTick (obj_get o "logCheckInterval");
  modify (with_this (with_queueCheckInterval (Some h))).

(** [run] (lines 67-78).  A handle is truthy once it has been assigned. *)
Definition run : M unit :=
  l ← gets this;
  match options l with
  | None => throw (Err "option is not defined")
  | Some _ =>
      (if bool_decide (is_Some (queueCheckInterval l))
          || bool_decide (is_Some (connectionCheckInterval l))
       then stop else mret tt);;
      checkInternetConnected;;
      checkLoggerQueue
  end.

(** [log] (lines 91-99). *)
Definition log (action value : jsval) : M unit :=
  l ← gets this;
  match options l with
  | None => mret tt
  | Some _ =>
      now ← Date_now;
      push (JObj (Object_assign
                    [("action", action); ("value", value); ("date", JNum now)]
                    (defaultLoggerInfo l)))
  end.

(** The body of one task of [loadLogFiles] (lines 155-167): [unlink] is the
    last statement of the [try] block. *)
Definition loadLogFile (logPath fileName : string) : M unit :=
  try_catch
    (fileContent ← fs_readFile logPath fileName;
     logObject ← JSON_parse fileContent;
     (if truthy logObject then push logObject else mret tt);;
     fs_unlink logPath fileName)
    (fun e =>
       log (JStr "unexpected") (JObj [("error", JError e)]);;
       console_error [JError e]).

Definition is_log_file (fileName : string) : bool :=
  bool_decide (toLowerCase (path.extname fileName) = LOG_EXTENSION).

(** [loadLogFiles] (lines 145-172). *)
Definition loadLogFiles : M unit :=
  try_catch
    (o ← this_options;
     logPath ← as_path (obj_get o "logPath");
     fs_ensureDir logPath;;
     logFiles ← fs_readdir logPath;
     Promise_all (map (loadLogFile logPath) (List.filter is_log_file logFiles)))
    (fun e => console_error [JStr "logPath load failed"; JError e]).

Definition index_key (i : nat) : string := NilEmpty.string_of_uint (Nat.to_uint i).

(** The own enumerable properties [{...v}] copies: those of an object, the
    indexed elements of an array, the indexed characters of a string (here
    its bytes), nothing otherwise. *)
Definition spread (v : jsval) : jsobj :=
  match v with
  | JObj o => o
  | JArr items => imap (fun i x => (index_key i, x)) items
  | JStr s => imap (fun i c => (index_key i, JStr (String c ""))) (String.list_ascii_of_string s)
  | _ => []
  end.

(** [sendLogToServer] (lines 174-184). *)
Definition sendLogToServer (logObject : jsval) : M unit :=
  try_catch
    (let action := get logObject "action" in
     let value := get logObject "value" in
     let date := get logObject "date" in
     o ← this_options;
     axios_get (obj_get o "serverUrl")
               (Object_assign [("action", action); ("date", date)] (spread value)))
    (fun _ => push logObject).

(** [sendLogToFile] (lines 186-197). *)
Definition sendLogToFile (logObject : jsval) : M unit :=
  try_catch
    (n ← crypto_randomBytes;
     let fileName := toString_hex 40 n in
     o ← this_options;
     logPath ← as_path (obj_get o "logPath");
     text ← JSON_stringify logObject;
     fs_writeFile logPath (fileName +:+ LOG_EXTENSION) text)
    (fun e => console_error [JError e]).

(** The callback of the connectivity timer (lines 106-108): no [try]
    around the [await]. *)
Definition probe_tick : M unit :=
  r ← functions_isInternetConnected;
  modify (with_this (with_isInternetConnected r)).

(** The callback of the queue timer (lines 122-142). *)
Definition dispatch_tick : M unit :=
  logObject ← shift;
  if truthy logObject then
    l ← gets this;
    if isInternetConnected l then
      (if negb (lastInternetConnectedFlag l)
       then loadLogFiles;; modify (with_this (with_lastInternetConnectedFlag true))
       else mret tt);;
      sendLogToServer logObject
    else
      modify (with_this (with_lastInternetConnectedFlag false));;
      sendLogToFile logObject
  else mret tt.

(** ** Executions *)

Definition callback (cb : Callback) : M unit :=
  match cb with
  | ProbeTick => probe_tick
  | DispatchTick => dispatch_tick
  end.

(** What can happen next: the application calls a public method, the host
    fires an interval timer that is still set, or the outside changes. *)
Inductive Step : Type :=
  | Call_setOptions (nextOptions : jsobj)
  | Call_run
  | Call_stop
  | Call_log (action value : jsval)
  | Fire (id : positive)
  | Outside (e : Env).

Definition fire (id : positive) (w : World) : World :=
  match timers w !! id with
  | Some (cb, _) => (callback cb w).2
  | None => w
  end.

Definition step (s : Step) (w : World) : World :=
  match s with
  | Call_setOptions o => (setOptions o w).2
  | Call_run => (run w).2
  | Call_stop => (stop w).2
  | Call_log action value => (log action value w).2
  | Fire id => fire id w
  | Outside e => with_env e w
  end.

Definition exec (steps : list Step) (w : World) : World :=
  fold_left (fun w s => step s w) steps w.

(* ===================================================================== *)
(** * Vocabulary of the properties                                        *)
(* ===================================================================== *)

(** The world [w] after the queue grew by [extra], the disk became [d] and
    the calls [t] were made; nothing else differs. *)
Definition grow (extra : list jsval) (d : gmap string node) (t : list IO)
           (w : World) : World :=
  mkWorld (with_logQueue (logQueue (this w) ++ extra) (this w))
          (defaultOptions w) (timers w) (nextTimer w)
          (mkEnv d (clock (env w)) (entropy (env w)) (drawn (env w))
                 (sink_up (env w)) (reachable (env w)))
          (trace w ++ t).

(** The directory [this.options.logPath] names, when it is one. *)
Definition backlog (w : World) (p : string) (writable : bool)
           (files : gmap string entry) : Prop :=
  options (this w) = Some RDefaultOptions /\
  obj_get (defaultOptions w) "logPath" = JStr p /\
  disk (env w) !! p = Some (Dir writable files).

(** The event [log] reports a failed backlog file with. *)
Definition unexpected (w : World) (e : Error) : jsval :=
  JObj (Object_assign
          [("action", JStr "unexpected");
           ("value", JObj [("error", JError e)]);
           ("date", JNum (clock (env w)))]
          (defaultLoggerInfo (this w))).

(** What [log(action, value)] appends to the queue. *)
Definition logged (w : World) (action value : jsval) : list jsval :=
  match options (this w) with
  | Some _ =>
      [JObj (Object_assign
               [("action", action); ("value", value); ("date", JNum (clock (env w)))]
               (defaultLoggerInfo (this w)))]
  | None => []
  end.

(** The query parameters [sendLogToServer] sends for a queued value. *)
Definition params_of (logObject : jsval) : jsobj :=
  Object_assign [("action", get logObject "action"); ("date", get logObject "date")]
                (spread (get logObject "value")).

(** [n] firings of the queue callback, one after the other. *)
Definition ticks (n : nat) (w : World) : World :=
  Nat.iter n (fun w => (dispatch_tick w).2) w.

(** The calls one task of [loadLogFiles] makes. *)
Definition is_task_io (io : IO) : bool :=
  match io with
  | FsReadFile _ _ _ | FsUnlink _ _ _ | ConsoleError _ => true
  | _ => false
  end.

(** The calls [loadLogFiles] makes. *)
Definition is_recon_io (io : IO) : bool :=
  match io with
  | FsEnsureDir _ _ | FsReaddir _ _ => true
  | _ => is_task_io io
  end.

(** The backlog file [name] holds the JSON text of [v]. *)
Definition loadable (files : gmap string entry) (name : string) (v : jsval) : Prop :=
  exists content,
    files !! name = Some (RegFile content) /\ JSON.parse content = Some v.

(** Reading the backlog file [name], or parsing what was read, fails with
    [e]. *)
Definition unloadable (files : gmap string entry) (name : string) (e : Error) : Prop :=
  (files !! name = Some SubDir /\ e = EISDIR) \/
  (exists content,
     files !! name = Some (RegFile content) /\ JSON.parse content = None /\
     e = SyntaxError).

(** How many timers of the host run the callback [cb]. *)
Definition active (cb : Callback) (w : World) : nat :=
  size (filter (fun kv : positive * (Callback * jsval) => kv.2.1 = cb) (timers w)).

(** The calls [sendLogToFile] makes. *)
Definition is_file_io (io : IO) : bool :=
  match io with
  | FsWriteFile _ _ _ _ | ConsoleError _ => true
  | _ => false
  end.

(** The call reads the file [name] of the directory [p]. *)
Definition reads (p name : string) (io : IO) : bool :=
  match io with
  | FsReadFile p' name' _ => String.eqb p p' && String.eqb name name'
  | _ => false
  end.

Definition is_HttpGet (io : IO) : bool :=
  match io with HttpGet _ _ _ => true | _ => false end.

Definition is_FsWriteFile (io : IO) : bool :=
  match io with FsWriteFile _ _ _ _ => true | _ => false end.

Definition is_stored_probe (io : IO) : bool :=
  match io with ProbeCall (inr _) => true | _ => false end.

(** [clearInterval(h)] on the timer table. *)
Definition clear (h : option positive) (t : gmap positive (Callback * jsval))
  : gmap positive (Callback * jsval) :=
  match h with
  | Some id => delete id t
  | None => t
  end.

(** The timer table once [stop] has run. *)
Definition stopped (w : World) : gmap positive (Callback * jsval) :=
  clear (queueCheckInterval (this w)) (clear (connectionCheckInterval (this w)) (timers w)).

(** The world once [checkInternetConnected] and [checkLoggerQueue] have set
    their timers, on a timer table [t]. *)
Definition started (t : gmap positive (Callback * jsval)) (w : World) : World :=
  mkWorld
    (with_queueCheckInterval (Some (Pos.succ (nextTimer w)))
       (with_connectionCheckInterval (Some (nextTimer w)) (this w)))
    (defaultOptions w)
    (<[Pos.succ (nextTimer w) :=
         (DispatchTick, obj_get (defaultOptions w) "logCheckInterval")]>
       (<[nextTimer w :=
            (ProbeTick, obj_get (defaultOptions w) "networkCheckInterval")]> t))
    (Pos.succ (Pos.succ (nextTimer w)))
    (env w) (trace w).

(** The step is a queue callback that takes a value off the queue while the
    cached connectivity is [true]. *)
Definition pops_connected (s : Step) (w : World) : bool :=
  match s with
  | Fire id =>
      match timers w !! id with
      | Some (DispatchTick, _) =>
          isInternetConnected (this w) && negb (bool_decide (logQueue (this w) = []))
      | _ => false
      end
  | _ => false
  end.

(** The step is a connectivity callback whose probe resolves, so that its
    result is stored. *)
Definition stores_probe (s : Step) (w : World) : bool :=
  match s with
  | Fire id =>
      match timers w !! id, reachable (env w) with
      | Some (ProbeTick, _), inr _ => true
      | _, _ => false
      end
  | _ => false
  end.

(** No step of the execution from [w], taken in the world it ran in, was
    of the kind [P]. *)
Fixpoint never (P : Step -> World -> bool) (steps : list Step) (w : World) : bool :=
  match steps with
  | [] => true
  | s :: rest => negb (P s w) && never P rest (step s w)
  end.

(** What holds of every world the program can be in: each timer that is
    set is the one a handle field refers to, a handle is only ever stored
    once the options are, the queue holds truthy values, the flag of the
    last tick is raised only by a tick that went on to the request, and the
    cached connectivity is lowered, and a file written, only after the probe
    has answered. *)
Record Inv (w : World) : Prop := mkInv {
  inv_timers : forall id cb d,
    timers w !! id = Some (cb, d) ->
    (cb = ProbeTick /\ connectionCheckInterval (this w) = Some id) \/
    (cb = DispatchTick /\ queueCheckInterval (this w) = Some id);
  inv_fresh : forall id cb d,
    timers w !! id = Some (cb, d) -> (id < nextTimer w)%positive;
  inv_options :
    is_Some (connectionCheckInterval (this w)) \/
    is_Some (queueCheckInterval (this w)) ->
    options (this w) = Some RDefaultOptions;
  inv_queue : Forall (fun v => truthy v = true) (logQueue (this w));
  inv_flag :
    lastInternetConnectedFlag (this w) = true ->
    Exists (fun io => is_HttpGet io = true) (trace w);
  inv_probe :
    isInternetConnected (this w) = false \/
    Exists (fun io => is_FsWriteFile io = true) (trace w) ->
    Exists (fun io => is_stored_probe io = true) (trace w);
}.

(** ** Events, as the data model has them *)

Record Event : Type := mkEvent {
  ev_action : string;
  ev_date : Z;
  ev_value : option (list (string * string));
  ev_osType : string;
}.

Definition attributes (m : list (string * string)) : jsval :=
  JObj (map (fun kv => (kv.1, JStr kv.2)) m).

(** The object [log] builds for an event. *)
Definition LogObject (e : Event) : jsval :=
  JObj [("action", JStr (ev_action e));
        ("value", match ev_value e with
                  | Some m => attributes m
                  | None => JUndefined
                  end);
        ("date", JNum (ev_date e));
        ("osType", JStr (ev_osType e))].

(** An event of the data model: its attribute map has each key once. *)
Definition well_formed (e : Event) : Prop :=
  match ev_value e with
  | Some m => NoDup (map fst m)
  | None => True
  end.

(** ** JSON values *)

(** What can follow a value in JSON text: the end, or one of [,] [}] []]. *)
Definition delimited (rest : string) : bool :=
  match rest with
  | EmptyString => true
  | String c _ =>
      ((JSON.code c =? 44) || (JSON.code c =? 125) || (JSON.code c =? 93))%N
  end.

(** The value without the properties that hold [undefined]. *)
Fixpoint strip (v : jsval) : jsval :=
  match v with
  | JArr items => JArr (map strip items)
  | JObj props =>
      JObj (omap (fun kv => match kv.2 with
                            | JUndefined => None
                            | _ => Some (kv.1, strip kv.2)
                            end) props)
  | _ => v
  end.

(** Values that JSON text denotes exactly: no [undefined], no number kept
    by its literal, no Error object; every object has each key once. *)
Fixpoint clean (v : jsval) : Prop :=
  match v with
  | JUndefined | JReal _ | JError _ => False
  | JNull | JBool _ | JNum _ | JStr _ => True
  | JArr items => foldr (fun x P => clean x /\ P) True items
  | JObj props => NoDup (map fst props) /\ foldr (fun kv P => clean kv.2 /\ P) True props
  end.

(** Fuel that parsing the text of a value takes. *)
Fixpoint size (v : jsval) : nat :=
  match v with
  | JArr items => S (foldr (fun x n => S (size x + n)) O items)
  | JObj props => S (foldr (fun kv n => S (size kv.2 + n)) O props)
  | _ => 1%nat
  end.

(** The text of an array element and of an object member, as
    [JSON.stringify] writes them. *)
Definition element_text (x : jsval) : string := default "null" (JSON.stringify x).

Definition sum_sizes (items : list jsval) : nat :=
  foldr (fun x n => S (size x + n)) O items.

Definition member_text (kv : string * jsval) : option string :=
  match JSON.stringify kv.2 with
  | Some t => Some (JSON.quote kv.1 +:+ ":" +:+ t)
  | None => None
  end.

Definition sum_member_sizes (props : jsobj) : nat :=
  foldr (fun kv n => S (size kv.2 + n)) O props.

(** The first character of the text of a value. *)
Definition value_start (c : ascii) : bool :=
  match JSON.code c with
  | 110%N | 116%N | 102%N | 45%N | 34%N | 91%N | 123%N => true
  | _ => match JSON.digit c with Some _ => true | None => false end
  end.

(** The round trip of every value parsed with less fuel than [bound]. *)
Definition round_trips_below (bound : nat) : Prop :=
  forall (k : nat) (v : jsval), (k < bound)%nat ->
    clean v -> (size v <= k)%nat ->
    forall rest, delimited rest = true ->
    exists t, JSON.stringify v = Some t /\ JSON.parse_value k (t +:+ rest) = Some (v, rest).

(** The size of a value is at most the length of its text, for every value
    smaller than [bound]. *)
Definition sizes_below (bound : nat) : Prop :=
  forall (v : jsval) (t : string),
    (size v < bound)%nat -> clean v -> JSON.stringify v = Some t ->
    (size v <= String.length t)%nat.

(** A parse that succeeds with some fuel consumes input, and succeeds the
    same way with any fuel that is at least the number of characters it
    consumed. *)
Definition fuel_free_value (f : nat) : Prop :=
  forall s v r,
    JSON.parse_value f s = Some (v, r) ->
    (String.length r < String.length s)%nat /\
    forall g, (String.length s - String.length r <= g)%nat ->
              JSON.parse_value g s = Some (v, r).

Definition fuel_free_members (f : nat) : Prop :=
  forall s acc v r,
    JSON.parse_members f s acc = Some (v, r) ->
    (String.length r < String.length s)%nat /\
    forall g, (String.length s - String.length r <= g)%nat ->
              JSON.parse_members g s acc = Some (v, r).

Definition fuel_free_elements (f : nat) : Prop :=
  forall s acc v r,
    JSON.parse_elements f s acc = Some (v, r) ->
    (String.length r < String.length s)%nat /\
    forall g, (String.length s - String.length r <= g)%nat ->
              JSON.parse_elements g s acc = Some (v, r).

(** ** Sample data *)

Definition sample_options : jsobj :=
  [("logPath", JStr "/tmp/x"); ("serverUrl", JStr "http://example")].

Definition sample_event : Event :=
  mkEvent "click" 1700000000000 (Some [("id", "7")]) "Linux".

Definition sample_text : string :=
  default "" (JSON.stringify (LogObject sample_event)).

(** A backlog directory with a well-formed record, a truncated one, a
    sub-directory that carries the extension, and a foreign file. *)
Definition sample_files : gmap string entry :=
  <["good.ehl" := RegFile sample_text]>
    (<["bad.ehl" := RegFile "{"]>
       (<["dir.ehl" := SubDir]> (<["notes.txt" := RegFile "1"]> ∅))).

Definition sample_env : Env :=
  mkEnv (<["/tmp/x" := Dir true sample_files]> ∅) 1700000000123
        (fun n => 255 + N.of_nat n)%N 0 true (inr true).

(** Configured and running, nothing logged yet. *)
Definition sample_world : World :=
  exec [Call_setOptions sample_options; Call_run] (init "Linux" sample_env).

(** An environment in which the probe rejects. *)
Definition probe_down_env : Env :=
  mkEnv ∅ 0 (fun _ => 0%N) 0 true (inl NetworkError).

(** The collector does not answer. *)
Definition sink_down_env : Env :=
  mkEnv (<["/tmp/x" := Dir true sample_files]> ∅) 1700000000123
        (fun n => 255 + N.of_nat n)%N 0 false (inr true).

(** Configured and running, one event logged, the collector down. *)
Definition sink_down_world : World :=
  exec [Call_setOptions sample_options; Call_run;
        Call_log (JStr "click") JUndefined]
       (init "Linux" sink_down_env).

(** Configure, run, log one event. *)
Definition sample_steps : list Step :=
  [Call_setOptions sample_options; Call_run; Call_log (JStr "click") JUndefined].

(** The object that call of [log] queues. *)
Definition sample_logged : jsval :=
  JObj [("action", JStr "click"); ("value", JUndefined);
        ("date", JNum 1700000000123); ("osType", JStr "Linux")].

(** A first [setOptions] that also sets the probe interval. *)
Definition first_options : jsobj :=
  [("logPath", JStr "/tmp/first"); ("serverUrl", JStr "http://first");
   ("networkCheckInterval", JNum 5000)].

(** ** Further vocabulary and sample data *)

(** Configured and running, one event delivered by the first tick of the
    queue timer (which also went through the backlog directory). *)
Definition steady_world : World :=
  exec (sample_steps ++ [Fire 2%positive]) (init "Linux" sample_env).

(** The step is a call of [setOptions] that passes both tests. *)
Definition configures (s : Step) : bool :=
  match s with
  | Call_setOptions o =>
      truthy (obj_get o "logPath") && truthy (obj_get o "serverUrl")
  | _ => false
  end.

(** A fresh machine: nothing on the disk, and the probe answers that there
    is no connection. *)
Definition offline_env : Env :=
  mkEnv ∅ 0 (fun _ => 0%N) 0 true (inr false).

(** Configured and running on the fresh machine, one event logged, the
    probe has answered once. *)
Definition offline_world : World :=
  exec (sample_steps ++ [Fire 1%positive]) (init "Linux" offline_env).

(** The path of the backlog directory is taken by a regular file. *)
Definition blocked_env : Env :=
  mkEnv (<["/tmp/x" := File]> ∅) 0 (fun _ => 0%N) 0 true (inr true).

Definition blocked_world : World :=
  exec sample_steps (init "Linux" blocked_env).

(** The object [log] queued in [offline_world]. *)
Definition sample_offline_event : jsval :=
  JObj [("action", JStr "click"); ("value", JUndefined);
        ("date", JNum 0); ("osType", JStr "Linux")].

(** The call is made on the directory entry [name]. *)
Definition names_entry (name : string) (io : IO) : bool :=
  match io with
  | FsReadFile _ n _ | FsUnlink _ n _ | FsWriteFile _ n _ _ => String.eqb name n
  | _ => false
  end.

(** The probe answers that there is no connection. *)
Definition down_env : Env :=
  mkEnv (<["/tmp/x" := Dir true ∅]> ∅) 1700000000000
        (fun n => 255 + N.of_nat n)%N 0 true (inr false).

(** The connection is back. *)
Definition up_env : Env :=
  mkEnv (<["/tmp/x" := Dir true ∅]> ∅) 1700000000000
        (fun n => 255 + N.of_nat n)%N 0 true (inr true).

(** Configured and running; the probe has answered [false] once, the
    connection has come back since (the probe has not run again), and one
    event has been logged. *)
Definition reconnect_world : World :=
  exec [Call_setOptions sample_options; Call_run; Outside down_env;
        Fire 1%positive; Outside up_env;
        Call_log (JStr "click") (attributes [("id", "7")])]
       (init "Linux" down_env).



(* ===================================================================== *)
(** * Properties                                                          *)
(* ===================================================================== *)

(** ** The definitions at work *)

Example extname_samples :
  (path.extname "a.ehl", path.extname ".ehl", path.extname "..",
   path.extname "a.b.EHL", path.extname "index.", path.extname "abc")
  = (".ehl", "", "", ".EHL", ".", "").
Proof. reflexivity. Qed.

Example is_log_file_samples :
  (is_log_file "x.EhL", is_log_file ".ehl", is_log_file "x.ehl2", is_log_file "notes.txt")
  = (true, false, false, false).
Proof. reflexivity. Qed.

Example parse_samples :
  (JSON.parse " null ", JSON.parse "-12", JSON.parse "[1, [true, {}]]",
   JSON.parse "1e5")
  = (Some JNull, Some (JNum (-12)),
     Some (JArr [JNum 1; JArr [JBool true; JObj []]]), Some (JReal "1e5")).
Proof. vm_compute. reflexivity. Qed.

Example parse_rejects :
  (JSON.parse "01", JSON.parse "[1,]", JSON.parse "{", JSON.parse "tru",
   JSON.parse "1 2", JSON.parse "")
  = (None, None, None, None, None, None).
Proof. vm_compute. reflexivity. Qed.

Example parse_sample_text :
  JSON.parse sample_text = Some (LogObject sample_event).
Proof. vm_compute. reflexivity. Qed.

Example assign_samples :
  Object_assign defaultOptions0 sample_options
  = [("networkCheckInterval", JNum 1000); ("logCheckInterval", JNum 1000);
     ("logPath", JStr "/tmp/x"); ("serverUrl", JStr "http://example")].
Proof. reflexivity. Qed.

(** Configure, run, log, and let the queue timer fire: the backlog is
    reconciled (the truncated record and the sub-directory are reported and
    stay), then the request for the logged event is sent. *)
Example first_tick_trace :
  trace (exec (sample_steps ++ [Fire 2%positive]) (init "Linux" sample_env))
  = [FsEnsureDir "/tmp/x" None; FsReaddir "/tmp/x" None;
     FsReadFile "/tmp/x" "good.ehl" None; FsUnlink "/tmp/x" "good.ehl" None;
     FsReadFile "/tmp/x" "bad.ehl" None; ConsoleError [JError SyntaxError];
     FsReadFile "/tmp/x" "dir.ehl" (Some EISDIR); ConsoleError [JError EISDIR];
     HttpGet (JStr "http://example")
             [("action", JStr "click"); ("date", JNum 1700000000123)] None].
Proof. vm_compute. reflexivity. Qed.

#[local] Arguments toString_hex : simpl never.

(** ** The monad, unfolded *)

Lemma bind_unfold {A B : Type} (m : M A) (f : A -> M B) (w : World) :
  (m ≫= f) w = match m w with
               | (inr a, w') => f a w'
               | (inl e, w') => (inl e, w')
               end.
Proof. reflexivity. Qed.

Lemma ret_unfold {A : Type} (a : A) (w : World) : (mret a : M A) w = (inr a, w).
Proof. reflexivity. Qed.

Ltac run_M :=
  repeat (rewrite ?bind_unfold, ?ret_unfold;
          unfold gets, modify, throw, try_catch; simpl).

Lemma grow_nothing (w : World) : grow [] (disk (env w)) [] w = w.
Proof.
  destruct w as [[] ? ? ? [] ?]. unfold grow, with_logQueue. simpl.
  by rewrite !app_nil_r.
Qed.

Lemma grow_grow (w : World) e1 d1 t1 e2 d2 t2 :
  grow e2 d2 t2 (grow e1 d1 t1 w) = grow (e1 ++ e2) d2 (t1 ++ t2) w.
Proof.
  unfold grow, with_logQueue. simpl. by rewrite !app_assoc.
Qed.

Lemma emit_grow (io : IO) (w : World) : emit io w = grow [] (disk (env w)) [io] w.
Proof.
  destruct w as [[] ? ? ? [] ?]. unfold grow, emit, with_logQueue. simpl.
  by rewrite app_nil_r.
Qed.

Lemma with_disk_grow (d : gmap string node) (w : World) : with_disk d w = grow [] d [] w.
Proof.
  destruct w as [[] ? ? ? [] ?]. unfold grow, with_disk, with_env, with_logQueue.
  simpl. by rewrite !app_nil_r.
Qed.

Lemma push_grow (v : jsval) (w : World) :
  push v w = (inr tt, grow [v] (disk (env w)) [] w).
Proof.
  destruct w as [[] ? ? ? [] ?]. unfold push, modify, grow, with_this, with_logQueue.
  simpl. by rewrite app_nil_r.
Qed.

(** ** [log] *)

Lemma log_unconfigured (w : World) (action value : jsval) :
  options (this w) = None ->
  log action value w = (inr tt, w).
Proof.
  intros Hopt. unfold log. run_M. rewrite Hopt. reflexivity.
Qed.

(** Claim C7: while [this.options] is undefined, [log(action, value)]
    completes without throwing and changes nothing: the queue, and the
    whole world, are as before. *)
Theorem log_without_options_is_noop (w : World) (action value : jsval) :
  options (this w) = None ->
  log action value w = (inr tt, w).
Proof. exact (log_unconfigured w action value). Qed.

Lemma log_without_options_is_noop_witness :
  options (this (init "Linux" sample_env)) = None /\
  log (JStr "click") JUndefined (init "Linux" sample_env)
  = (inr tt, init "Linux" sample_env).
Proof.
  split; [reflexivity | apply log_without_options_is_noop; reflexivity].
Defined.

Lemma log_with_options (w : World) (action value : jsval) (r : ref) :
  options (this w) = Some r ->
  log action value w =
  (inr tt,
   grow [JObj (Object_assign
                 [("action", action); ("value", value); ("date", JNum (clock (env w)))]
                 (defaultLoggerInfo (this w)))]
        (disk (env w)) [] w).
Proof.
  intros Hopt. unfold log, Date_now. run_M. rewrite Hopt. run_M.
  apply push_grow.
Qed.

(** ** The connectivity callback *)

Lemma probe_tick_throws (w : World) (e : Error) :
  reachable (env w) = inl e ->
  probe_tick w = (inl e, emit (ProbeCall (inl e)) w).
Proof.
  intros Hr. unfold probe_tick, functions_isInternetConnected. run_M.
  rewrite Hr. reflexivity.
Qed.

(** Claim C3, as amended: when the probe rejects, the callback's promise
    rejects with the same error (nothing in the callback catches it), and
    the cached flag, like every other field, keeps the value it had. *)
Theorem probe_tick_rejected (w : World) (e : Error) :
  reachable (env w) = inl e ->
  probe_tick w = (inl e, emit (ProbeCall (inl e)) w).
Proof. exact (probe_tick_throws w e). Qed.

Lemma probe_tick_rejected_witness :
  reachable (env (init "Linux" probe_down_env)) = inl NetworkError /\
  probe_tick (init "Linux" probe_down_env)
  = (inl NetworkError,
     emit (ProbeCall (inl NetworkError)) (init "Linux" probe_down_env)).
Proof.
  split; [reflexivity | apply probe_tick_rejected; reflexivity].
Defined.

(** Claim C3, as stated, fails: the probe rejects, the promise of the
    callback is rejected and the cached flag is still [true]. *)
Lemma probe_tick_rejected_flag_stays_true :
  reachable (env (init "Linux" probe_down_env)) = inl NetworkError /\
  (probe_tick (init "Linux" probe_down_env)).1 = inl NetworkError /\
  isInternetConnected (this (probe_tick (init "Linux" probe_down_env)).2) <> false.
Proof.
  repeat split. vm_compute. discriminate.
Qed.

Lemma probe_tick_resolved (w : World) (b : bool) :
  reachable (env w) = inr b ->
  probe_tick w =
  (inr tt, with_this (with_isInternetConnected b) (emit (ProbeCall (inr b)) w)).
Proof.
  intros Hr. unfold probe_tick, functions_isInternetConnected. run_M.
  rewrite Hr. reflexivity.
Qed.

(** ** The queue callback on an empty queue *)

Lemma dispatch_tick_nil (w : World) :
  logQueue (this w) = [] ->
  dispatch_tick w = (inr tt, w).
Proof.
  intros Hq. unfold dispatch_tick, shift. run_M. rewrite Hq. reflexivity.
Qed.

(** Claim C5: when the queue is empty the queue callback completes and
    leaves the world as it was: no file-system call, no request and no
    console line is added to the trace, the disk is the same and
    [lastInternetConnectedFlag] keeps its value. *)
Theorem dispatch_tick_empty_queue (w : World) :
  logQueue (this w) = [] ->
  dispatch_tick w = (inr tt, w).
Proof. exact (dispatch_tick_nil w). Qed.

Lemma dispatch_tick_empty_queue_witness :
  logQueue (this sample_world) = [] /\
  dispatch_tick sample_world = (inr tt, sample_world).
Proof.
  split; [reflexivity | apply dispatch_tick_empty_queue; reflexivity].
Defined.

(** ** JSON: what is written is what is read *)

Section JSON_round_trip.

Import JSON.

#[local] Arguments String.append !_ _ / : simpl nomatch.

(** ** Strings *)

Lemma append_assoc (a b c : string) : (a +:+ b) +:+ c = a +:+ (b +:+ c).
Proof. induction a as [|x a IH]; simpl; [done|]. by f_equal. Qed.

Lemma append_nil_r (a : string) : a +:+ "" = a.
Proof. induction a as [|x a IH]; simpl; [done|]. by f_equal. Qed.

Lemma length_append (a b : string) :
  String.length (a +:+ b) = (String.length a + String.length b)%nat.
Proof. induction a as [|x a IH]; simpl; [done|]. by f_equal. Qed.

(** ** String literals *)


Lemma parse_chars_quote_char (c : ascii) (tail : string) :
  parse_chars (quote_char c +:+ tail) =
  match parse_chars tail with
  | Some (body, rest) => Some (String c body, rest)
  | None => None
  end.
Proof.
  destruct c as [[] [] [] [] [] [] [] []]; reflexivity.
Qed.

Lemma parse_chars_quote_chars (s rest : string) :
  parse_chars (quote_chars s +:+ String dquote rest) = Some (s, rest).
Proof.
  induction s as [|c s IH]; [reflexivity|].
  simpl. rewrite append_assoc, parse_chars_quote_char, IH. reflexivity.
Qed.

(** ** Numbers *)

Lemma take_digits_uint (u : Decimal.uint) (rest : string) :
  match rest with String c _ => digit c = None | EmptyString => True end ->
  take_digits (NilEmpty.string_of_uint u +:+ rest) = (u, rest).
Proof.
  intros Hrest. induction u; simpl; try (rewrite IHu; reflexivity).
  destruct rest as [|c r]; [done|]. simpl. by rewrite Hrest.
Qed.

Lemma int_part_ok_to_uint (n : N) : int_part_ok (N.to_uint n) = true.
Proof.
  rewrite <- (DecimalN.Unsigned.of_to n) at 1.
  rewrite DecimalN.Unsigned.to_of. unfold Decimal.unorm.
  pose proof (DecimalFacts.nzhead_nonzero (N.to_uint n)) as Hnz.
  destruct (Decimal.nzhead (N.to_uint n)) as [|d| | | | | | | | |]; try done.
  by destruct (Hnz d).
Qed.

Lemma delimited_spec (c : ascii) (r : string) :
  delimited (String c r) = true ->
  digit c = None /\ (code c =? 46)%N = false /\
  ((code c =? 101) || (code c =? 69))%N = false.
Proof.
  destruct c as [[] [] [] [] [] [] [] []]; simpl; intros H;
    first [discriminate | repeat split].
Qed.

Lemma uint_text_head (u : Decimal.uint) (rest : string) :
  u <> Decimal.Nil ->
  exists c r, NilEmpty.string_of_uint u +:+ rest = String c r /\
              (code c =? 45)%N = false /\ digit c <> None.
Proof.
  destruct u; [done|..]; intros _; simpl; eexists _, _; repeat split; done.
Qed.

Lemma parse_digits_text (n : N) (rest : string) :
  delimited rest = true ->
  exists u,
    u = N.to_uint n /\
    take_digits (NilEmpty.string_of_uint u +:+ rest) = (u, rest) /\
    parse_frac rest = Some ("", rest) /\ parse_exp rest = Some ("", rest).
Proof.
  intros Hd. exists (N.to_uint n). split; [done|].
  destruct rest as [|c r].
  - split; [by apply take_digits_uint|]. done.
  - destruct (delimited_spec c r Hd) as (H1 & H2 & H3).
    split; [by apply take_digits_uint|]. simpl. by rewrite H2, H3.
Qed.

Lemma to_uint_nonnil (n : N) : N.to_uint n <> Decimal.Nil.
Proof.
  pose proof (int_part_ok_to_uint n) as H. by destruct (N.to_uint n).
Qed.

Lemma parse_number_text (z : Z) (rest : string) :
  delimited rest = true ->
  parse_number (number_text z +:+ rest) = Some (JNum z, rest).
Proof.
  intros Hd. unfold parse_number, number_text.
  destruct z as [|p|p].
  - destruct (parse_digits_text 0 rest Hd) as (u & -> & Ht & Hf & He).
    destruct (uint_text_head (N.to_uint 0) rest (to_uint_nonnil 0))
      as (c & r & Heq & Hc & _).
    simpl Z.to_N. rewrite Heq, Hc, <- Heq, Ht, int_part_ok_to_uint, Hf, He.
    rewrite DecimalN.Unsigned.of_to. reflexivity.
  - destruct (parse_digits_text (Npos p) rest Hd) as (u & -> & Ht & Hf & He).
    destruct (uint_text_head (N.to_uint (Npos p)) rest (to_uint_nonnil _))
      as (c & r & Heq & Hc & _).
    simpl Z.to_N. rewrite Heq, Hc, <- Heq, Ht, int_part_ok_to_uint, Hf, He.
    rewrite DecimalN.Unsigned.of_to. reflexivity.
  - destruct (parse_digits_text (Npos p) rest Hd) as (u & -> & Ht & Hf & He).
    cbn [String.append]. change (code "-" =? 45)%N with true. cbv iota.
    rewrite Ht, int_part_ok_to_uint, Hf, He.
    rewrite DecimalN.Unsigned.of_to. reflexivity.
Qed.

Lemma parse_value_number (n : nat) (c : ascii) (r : string) :
  (code c =? 45)%N = true \/ digit c <> None ->
  parse_value (S n) (String c r) = parse_number (String c r).
Proof.
  destruct c as [[] [] [] [] [] [] [] []]; intros [H|H];
    first [discriminate H | by destruct H | reflexivity].
Qed.

Lemma number_text_head (z : Z) (rest : string) :
  exists c r, number_text z +:+ rest = String c r /\
              ((code c =? 45)%N = true \/ digit c <> None).
Proof.
  unfold number_text. destruct z as [|p|p].
  - destruct (uint_text_head (N.to_uint 0) rest (to_uint_nonnil 0))
      as (c & r & Heq & _ & Hd). exists c, r. split; [done|by right].
  - destruct (uint_text_head (N.to_uint (Npos p)) rest (to_uint_nonnil _))
      as (c & r & Heq & _ & Hd). exists c, r. split; [done|by right].
  - eexists _, _. split; [reflexivity|by left].
Qed.

Lemma parse_value_number_text (n : nat) (z : Z) (rest : string) :
  delimited rest = true ->
  parse_value (S n) (number_text z +:+ rest) = Some (JNum z, rest).
Proof.
  intros Hd. destruct (number_text_head z rest) as (c & r & Heq & Hc).
  rewrite Heq, parse_value_number by done. rewrite <- Heq.
  by apply parse_number_text.
Qed.

(** ** Values *)

Lemma stringify_head (v : jsval) :
  clean v -> exists c r, stringify v = Some (String c r) /\ value_start c = true.
Proof.
  destruct v as [| |[]|z| |s|l|ps|]; simpl; try done; intros _;
    try (eexists _, _; split; reflexivity).
  destruct (number_text_head z "") as (c & r & Heq & Hc).
  rewrite append_nil_r in Heq. exists c, r. split; [by rewrite Heq|].
  destruct c as [[] [] [] [] [] [] [] []]; destruct Hc as [Hc|Hc];
    first [discriminate Hc | by destruct Hc | reflexivity].
Qed.

Lemma value_start_spec (c : ascii) (r : string) :
  value_start c = true ->
  skip_ws (String c r) = String c r /\ (code c =? 93)%N = false.
Proof.
  destruct c as [[] [] [] [] [] [] [] []]; intros H;
    first [discriminate H | split; reflexivity].
Qed.

Lemma parse_elements_join (bound : nat) (rest : string) :
  round_trips_below bound ->
  forall (items : list jsval) (m : nat) (acc : list jsval),
    items <> [] ->
    foldr (fun x P => clean x /\ P) True items ->
    (sum_sizes items <= m)%nat -> (m <= bound)%nat ->
    parse_elements m (join "," (map element_text items) +:+ String "]" rest) acc
    = Some (JArr (acc ++ items), rest).
Proof.
  intros IH. induction items as [|x items IHl]; intros m acc Hne Hc Hs Hm; [done|].
  destruct Hc as [Hx Hc]. simpl in Hs.
  destruct m as [|m]; [lia|].
  destruct items as [|y items].
  - simpl.
    destruct (IH m x) with (rest := String "]" rest) as (t & Ht & Hp);
      [lia | done | simpl in Hs; lia | done |].
    unfold element_text. rewrite Ht. simpl. rewrite Hp. reflexivity.
  - change (join "," (map element_text (x :: y :: items)))
      with (element_text x +:+ "," +:+ join "," (map element_text (y :: items))).
    rewrite !append_assoc.
    destruct (IH m x)
      with (rest := "," +:+ join "," (map element_text (y :: items))
                        +:+ String "]" rest)
      as (t & Ht & Hp); [lia | done | simpl in Hs; lia | done |].
    unfold element_text at 1. rewrite Ht. cbn [default from_option id parse_elements].
    rewrite Hp. cbn [String.append skip_ws is_ws code N_of_ascii N_of_digits].
    simpl. rewrite IHl; [|done|done|unfold sum_sizes in *; simpl in *; lia|lia].
    by rewrite <- app_assoc.
Qed.

Lemma quote_append (k X : string) :
  quote k +:+ X = String dquote (quote_chars k +:+ String dquote X).
Proof. unfold quote. simpl. by rewrite append_assoc. Qed.

Lemma obj_set_fresh (acc : jsobj) (k : string) (v : jsval) :
  k ∉ map fst acc -> obj_set acc k v = acc ++ [(k, v)].
Proof.
  induction acc as [|[k' v'] acc IH]; simpl; intros Hk; [done|].
  apply not_elem_of_cons in Hk as [Hne Hk].
  destruct (decide (k = k')); [done|]. by rewrite IH.
Qed.

Lemma parse_members_join (bound : nat) (rest : string) :
  round_trips_below bound ->
  forall (props : jsobj) (m : nat) (acc : jsobj),
    props <> [] ->
    foldr (fun kv P => clean kv.2 /\ P) True props ->
    NoDup (map fst (acc ++ props)) ->
    (sum_member_sizes props <= m)%nat -> (m <= bound)%nat ->
    parse_members m (join "," (omap member_text props) +:+ String "}" rest) acc
    = Some (JObj (acc ++ props), rest).
Proof.
  intros IH. induction props as [|[k x] props IHl];
    intros m acc Hne Hc Hnd Hs Hm; [done|].
  destruct Hc as [Hx Hc]. simpl in Hs, Hx.
  destruct m as [|m]; [lia|].
  assert (Hk : k ∉ map fst acc).
  { rewrite map_app in Hnd. apply NoDup_app in Hnd as (_ & Hdis & _).
    intros Hin. apply (Hdis k Hin). simpl. apply list_elem_of_here. }
  destruct props as [|[k' y] props].
  - destruct (IH m x) with (rest := String "}" rest) as (t & Ht & Hp);
      [lia | done | simpl in Hs; lia | done |].
    simpl omap. unfold member_text at 1. simpl fst. simpl snd. rewrite Ht.
    cbn [join]. rewrite !append_assoc, quote_append.
    cbn [parse_members skip_ws]. change (is_ws dquote) with false. cbv iota.
    change (code dquote =? 34)%N with true. cbv iota.
    rewrite parse_chars_quote_chars.
    cbn [String.append skip_ws]. change (is_ws ":") with false. cbv iota.
    change (code ":" =? 58)%N with true. cbv iota.
    rewrite Hp. cbn [skip_ws]. change (is_ws "}") with false. cbv iota.
    change (code "}" =? 44)%N with false. change (code "}" =? 125)%N with true.
    cbv iota. by rewrite obj_set_fresh.
  - destruct Hc as [Hy Hc]. simpl in Hy.
    destruct (stringify_head y Hy) as (cy & ry & Hty & _).
    destruct (stringify_head x Hx) as (cx & rx & Htx & _).
    set (tail := join "," (omap member_text ((k', y) :: props))) in *.
    assert (Hjoin : join "," (omap member_text ((k, x) :: (k', y) :: props))
                    = default "" (member_text (k, x)) +:+ "," +:+ tail).
    { unfold tail.
      assert (Hmx : member_text (k, x) = Some (quote k +:+ ":" +:+ String cx rx))
        by (unfold member_text; simpl; by rewrite Htx).
      assert (Hmy : member_text (k', y) = Some (quote k' +:+ ":" +:+ String cy ry))
        by (unfold member_text; simpl; by rewrite Hty).
      change (omap member_text ((k, x) :: (k', y) :: props))
        with (match member_text (k, x) with
              | Some t => t :: omap member_text ((k', y) :: props)
              | None => omap member_text ((k', y) :: props)
              end).
      change (omap member_text ((k', y) :: props))
        with (match member_text (k', y) with
              | Some t => t :: omap member_text props
              | None => omap member_text props
              end).
      rewrite Hmx, Hmy. reflexivity. }
    destruct (IH m x) with (rest := String "," (tail +:+ String "}" rest))
      as (t & Ht & Hp); [lia | done | simpl in Hs; lia | done |].
    rewrite Hjoin. unfold member_text. simpl fst. simpl snd. rewrite Ht.
    cbn [default from_option id]. rewrite !append_assoc, quote_append.
    cbn [parse_members skip_ws]. change (is_ws dquote) with false. cbv iota.
    change (code dquote =? 34)%N with true. cbv iota.
    rewrite parse_chars_quote_chars.
    cbn [String.append skip_ws]. change (is_ws ":") with false. cbv iota.
    change (code ":" =? 58)%N with true. cbv iota.
    rewrite Hp. cbn [skip_ws]. change (is_ws ",") with false.
    cbv iota. change (code "," =? 44)%N with true. cbv iota.
    rewrite obj_set_fresh by done. unfold tail.
    rewrite IHl; [by rewrite <- app_assoc | done | by split | by rewrite <- app_assoc
                 | unfold sum_member_sizes in *; simpl in *; lia | lia].
Qed.

Lemma round_trips_below_mono (a b : nat) :
  (a <= b)%nat -> round_trips_below b -> round_trips_below a.
Proof. intros Hab H k v Hk. apply H. lia. Qed.

Lemma join_elements_head (x : jsval) (items : list jsval) :
  clean x ->
  exists c r, join "," (map element_text (x :: items)) = String c r /\
              value_start c = true.
Proof.
  intros Hx. destruct (stringify_head x Hx) as (c & r & Ht & Hc).
  destruct items as [|y items]; simpl; unfold element_text at 1; rewrite Ht;
    simpl; eauto.
Qed.

Lemma join_members_head (k : string) (x : jsval) (props : jsobj) :
  clean x ->
  exists r, join "," (omap member_text ((k, x) :: props)) = String dquote r.
Proof.
  intros Hx. destruct (stringify_head x Hx) as (c & r & Ht & Hc).
  change (omap member_text ((k, x) :: props))
    with (match member_text (k, x) with
          | Some t => t :: omap member_text props
          | None => omap member_text props
          end).
  unfold member_text at 1. simpl fst. simpl snd. rewrite Ht.
  destruct (omap member_text props); simpl; eauto.
Qed.

(** Parsing the text of a clean value gives the value back and stops where
    the text stops, with any fuel from its size on. *)
Lemma round_trips (bound : nat) : round_trips_below bound.
Proof.
  induction bound as [|bound IH]; intros k v Hk Hc Hs rest Hd; [lia|].
  destruct (decide (k < bound)%nat) as [Hlt|Hge]; [by apply IH|].
  assert (k = bound) as -> by lia. clear Hk Hge.
  destruct bound as [|n]; [destruct v; simpl in Hs; lia|].
  assert (IHn : round_trips_below n) by (apply (round_trips_below_mono n (S n)); [lia|done]).
  destruct v as [| |[]|z|lit|s|items|props|e]; simpl in Hc; try done.
  - eexists. split; [reflexivity|]. reflexivity.
  - eexists. split; [reflexivity|]. reflexivity.
  - eexists. split; [reflexivity|]. reflexivity.
  - eexists. split; [reflexivity|]. by apply parse_value_number_text.
  - eexists. split; [reflexivity|]. rewrite quote_append.
    cbn [parse_value skip_ws]. change (is_ws dquote) with false. cbv iota.
    change (code dquote) with 34%N. cbv iota.
    by rewrite parse_chars_quote_chars.
  - exists ("[" +:+ join "," (map element_text items) +:+ "]").
    split; [reflexivity|]. rewrite !append_assoc.
    change ("[" +:+ ?X) with (String "[" X).
    change ("]" +:+ rest) with (String "]" rest).
    cbn [parse_value skip_ws]. change (is_ws "[") with false. cbv iota.
    change (code "[") with 91%N. cbv iota.
    destruct items as [|x items]; [reflexivity|].
    destruct Hc as [Hx Hc].
    destruct (join_elements_head x items Hx) as (c & r & Hj & Hv).
    destruct (value_start_spec c (r +:+ String "]" rest) Hv) as [Hws H93].
    rewrite Hj. cbn [String.append]. rewrite Hws, H93.
    change (String c (r +:+ String "]" rest))
      with (String c r +:+ String "]" rest). rewrite <- Hj.
    rewrite (parse_elements_join n rest IHn); [done|done|by split| |lia].
    unfold sum_sizes. simpl in *. lia.
  - exists ("{" +:+ join "," (omap member_text props) +:+ "}").
    split; [reflexivity|]. rewrite !append_assoc.
    change ("{" +:+ ?X) with (String "{" X).
    change ("}" +:+ rest) with (String "}" rest).
    cbn [parse_value skip_ws]. change (is_ws "{") with false. cbv iota.
    change (code "{") with 123%N. cbv iota.
    destruct props as [|[k x] props]; [reflexivity|].
    destruct Hc as [Hnd [Hx Hc]].
    destruct (join_members_head k x props Hx) as (r & Hj).
    rewrite Hj. cbn [String.append skip_ws]. change (is_ws dquote) with false.
    cbv iota. change (code dquote =? 125)%N with false. cbv iota.
    change (String dquote (r +:+ String "}" rest))
      with (String dquote r +:+ String "}" rest). rewrite <- Hj.
    rewrite (parse_members_join n rest IHn); [done|done|by split|done| |lia].
    unfold sum_member_sizes. simpl in *. lia.
Qed.

(** ** The fuel [parse] supplies is enough *)

Lemma length_join_cons (x : string) (l : list string) :
  (String.length x <= String.length (join "," (x :: l)))%nat /\
  (l <> [] ->
   String.length (join "," (x :: l))
   = String.length x + 1 + String.length (join "," l))%nat.
Proof.
  destruct l as [|y l]; [split; [simpl; lia|done]|].
  change (join "," (x :: y :: l)) with (x +:+ "," +:+ join "," (y :: l)).
  rewrite !length_append. change (String.length ",") with 1%nat.
  split; [lia | intros _; lia].
Qed.

Lemma sum_sizes_length (bound : nat) :
  sizes_below bound ->
  forall items : list jsval,
    foldr (fun x P => clean x /\ P) True items ->
    (sum_sizes items < bound)%nat ->
    (sum_sizes items <= String.length (join "," (map element_text items)) + 1)%nat.
Proof.
  intros IH. induction items as [|x items IHl]; intros Hc Hs; [simpl; lia|].
  destruct Hc as [Hx Hc]. unfold sum_sizes in *. simpl in Hs.
  destruct (stringify_head x Hx) as (c & r & Ht & _).
  pose proof (IH x _ ltac:(lia) Hx Ht) as Hlen.
  change (map element_text (x :: items))
    with (element_text x :: map element_text items).
  destruct (length_join_cons (element_text x) (map element_text items)) as [_ Hj].
  destruct items as [|y items].
  - simpl. unfold element_text. rewrite Ht. simpl in *. lia.
  - rewrite Hj by done. specialize (IHl Hc ltac:(lia)).
    unfold element_text at 1. rewrite Ht. simpl in *. lia.
Qed.

Lemma sum_member_sizes_length (bound : nat) :
  sizes_below bound ->
  forall props : jsobj,
    foldr (fun kv P => clean kv.2 /\ P) True props ->
    (sum_member_sizes props < bound)%nat ->
    (sum_member_sizes props
     <= String.length (join "," (omap member_text props)) + 1)%nat.
Proof.
  intros IH. induction props as [|[k x] props IHl]; intros Hc Hs; [simpl; lia|].
  destruct Hc as [Hx Hc]. unfold sum_member_sizes in *. simpl in Hs, Hx.
  destruct (stringify_head x Hx) as (c & r & Ht & _).
  pose proof (IH x _ ltac:(lia) Hx Ht) as Hlen.
  change (omap member_text ((k, x) :: props))
    with (match member_text (k, x) with
          | Some t => t :: omap member_text props
          | None => omap member_text props
          end).
  unfold member_text at 1. simpl fst. simpl snd. rewrite Ht.
  destruct (length_join_cons (quote k +:+ ":" +:+ String c r)
                             (omap member_text props)) as [Hle Hj].
  specialize (IHl Hc ltac:(lia)).
  assert (Hq : (String.length (String c r) + 3
                <= String.length (quote k +:+ ":" +:+ String c r))%nat).
  { unfold quote. simpl. rewrite !length_append. simpl. lia. }
  destruct (omap member_text props) as [|y l] eqn:Hl.
  - simpl in IHl. simpl foldr. simpl in *. lia.
  - rewrite Hj by done. simpl foldr. simpl in *. lia.
Qed.

Lemma stringify_JArr (items : list jsval) :
  stringify (JArr items) = Some ("[" +:+ join "," (map element_text items) +:+ "]").
Proof. reflexivity. Qed.

Lemma stringify_JObj (props : jsobj) :
  stringify (JObj props) = Some ("{" +:+ join "," (omap member_text props) +:+ "}").
Proof. reflexivity. Qed.

Lemma sizes (bound : nat) : sizes_below bound.
Proof.
  induction bound as [|bound IH]; intros v t Hs Hc Ht; [lia|].
  destruct v as [| |[]|z|lit|s|items|props|e]; simpl in Hc; try done.
  - injection Ht as <-. simpl. lia.
  - injection Ht as <-. simpl. lia.
  - injection Ht as <-. simpl. lia.
  - injection Ht as <-. destruct (number_text_head z "") as (c & r & Heq & _).
    rewrite append_nil_r in Heq. rewrite Heq. simpl. lia.
  - injection Ht as <-. simpl. lia.
  - rewrite stringify_JArr in Ht. injection Ht as <-.
    pose proof (sum_sizes_length bound IH items Hc) as Hsum.
    set (J := join "," (map element_text items)) in *.
    cbn [String.length String.append]. rewrite !length_append.
    change (String.length "]") with 1%nat.
    change (size (JArr items)) with (S (sum_sizes items)) in *. lia.
  - destruct Hc as [_ Hc]. rewrite stringify_JObj in Ht. injection Ht as <-.
    pose proof (sum_member_sizes_length bound IH props Hc) as Hsum.
    set (J := join "," (omap member_text props)) in *.
    cbn [String.length String.append]. rewrite !length_append.
    change (String.length "}") with 1%nat.
    change (size (JObj props)) with (S (sum_member_sizes props)) in *. lia.
Qed.

(** The text [JSON.stringify] writes for a clean value is parsed back by
    [JSON.parse] into the same value. *)
Lemma parse_stringify (v : jsval) :
  clean v ->
  exists t, JSON.stringify v = Some t /\ JSON.parse t = Some v.
Proof.
  intros Hc. destruct (stringify_head v Hc) as (c & r & Ht & _).
  exists (String c r). split; [done|].
  pose proof (sizes (S (size v)) v _ ltac:(lia) Hc Ht) as Hlen.
  destruct (round_trips (S (S (String.length (String c r))))
              (S (String.length (String c r))) v ltac:(lia) Hc ltac:(lia)
              "" eq_refl) as (t' & Ht' & Hp).
  assert (t' = String c r) as -> by congruence.
  unfold JSON.parse. rewrite append_nil_r in Hp. rewrite Hp. reflexivity.
Qed.

End JSON_round_trip.

(** ** JSON: the fuel of the parser *)

Section Fuel.

Import JSON.
#[local] Arguments String.append !_ _ / : simpl nomatch.

Lemma skip_ws_length (s : string) :
  (String.length (skip_ws s) <= String.length s)%nat.
Proof.
  induction s as [|c s IH]; simpl; [lia|]. destruct (is_ws c); simpl; lia.
Qed.

Lemma skip_ws_cons (s : string) (c : ascii) (r : string) :
  skip_ws s = String c r -> (String.length r < String.length s)%nat.
Proof.
  intros H. pose proof (skip_ws_length s) as Hl. rewrite H in Hl. simpl in Hl. lia.
Qed.

Lemma parse_chars_length (n : nat) : forall s k r,
  (String.length s <= n)%nat ->
  parse_chars s = Some (k, r) -> (String.length r < String.length s)%nat.
Proof.
  induction n as [|n IH]; intros s k r Hn Hp.
  { destruct s; [done|simpl in Hn; lia]. }
  destruct s as [|c s]; [done|]. simpl in Hn.
  cbn [parse_chars] in Hp.
  repeat match type of Hp with
         | (if ?b then _ else _) = _ => destruct b
         | match ?x with _ => _ end = Some _ =>
             lazymatch x with
             | parse_chars _ => fail
             | _ => destruct x
             end
         end;
    simplify_eq; cbn [String.length] in *; try lia;
    match type of Hp with
    | match parse_chars ?s' with _ => _ end = Some _ =>
        destruct (parse_chars s') as [[b rest]|] eqn:Hps; [|done];
        simplify_eq; apply IH in Hps; cbn [String.length] in *; lia
    end.
Qed.

Lemma take_digits_length (s : string) : forall u r,
  take_digits s = (u, r) ->
  (String.length r <= String.length s)%nat /\
  (u <> Decimal.Nil -> String.length r < String.length s)%nat.
Proof.
  induction s as [|c s IH]; intros u r H; simpl in H.
  - injection H as <- <-. split; [done|]. by intros [].
  - destruct (digit c).
    + destruct (take_digits s) as [u' r'] eqn:Ht. injection H as <- <-.
      destruct (IH u' r' eq_refl) as [Hle _]. simpl. split; lia.
    + injection H as <- <-. split; [done|]. by intros [].
Qed.

Lemma parse_frac_length (s f r : string) :
  parse_frac s = Some (f, r) -> (String.length r <= String.length s)%nat.
Proof.
  unfold parse_frac. destruct s as [|c s]; [by intros [= <- <-]|].
  destruct (code c =? 46)%N; [|by intros [= <- <-]].
  destruct (take_digits s) as [u r'] eqn:Ht. destruct (is_nil u); [done|].
  intros [= <- <-]. destruct (take_digits_length s u r' Ht) as [Hle _].
  simpl. lia.
Qed.

Lemma parse_exp_length (s f r : string) :
  parse_exp s = Some (f, r) -> (String.length r <= String.length s)%nat.
Proof.
  unfold parse_exp. destruct s as [|c s]; [by intros [= <- <-]|].
  destruct (_ || _); [|by intros [= <- <-]].
  destruct s as [|x s]; [done|].
  destruct (_ || _).
  - destruct (take_digits s) as [u r'] eqn:Ht. destruct (is_nil u); [done|].
    intros [= <- <-]. destruct (take_digits_length s u r' Ht) as [Hle _].
    simpl. lia.
  - destruct (take_digits (String x s)) as [u r'] eqn:Ht.
    destruct (is_nil u); [done|].
    intros [= <- <-]. destruct (take_digits_length _ u r' Ht) as [Hle _].
    simpl in *. lia.
Qed.

Lemma parse_number_tail (s1 : string) (neg : bool) (v : jsval) (r : string) :
  (let '(u, s2) := take_digits s1 in
   if int_part_ok u then
     match parse_frac s2 with
     | None => None
     | Some (f, s3) =>
         match parse_exp s3 with
         | None => None
         | Some (e, s4) =>
             let n := Z.of_N (N.of_uint u) in
             if bool_decide (f = "") && bool_decide (e = "")
             then Some (JNum (if neg then - n else n), s4)
             else Some (JReal ((if neg then "-" else "") +:+
                               NilEmpty.string_of_uint u +:+ f +:+ e), s4)
         end
     end
   else None) = Some (v, r) ->
  (String.length r < String.length s1)%nat.
Proof.
  destruct (take_digits s1) as [u s2] eqn:Ht.
  destruct (take_digits_length s1 u s2 Ht) as [_ Hlt].
  destruct (int_part_ok u) eqn:Hok; [|done].
  assert (Hu : u <> Decimal.Nil) by (by destruct u).
  specialize (Hlt Hu).
  destruct (parse_frac s2) as [[f s3]|] eqn:Hf; [|done].
  apply parse_frac_length in Hf.
  destruct (parse_exp s3) as [[e s4]|] eqn:He; [|done].
  apply parse_exp_length in He.
  destruct (_ && _); intros [= <- <-]; lia.
Qed.

Lemma parse_number_length (s : string) (v : jsval) (r : string) :
  parse_number s = Some (v, r) -> (String.length r < String.length s)%nat.
Proof.
  unfold parse_number. destruct s as [|c s].
  - apply (parse_number_tail "" false).
  - destruct (code c =? 45)%N.
    + intros H. apply (parse_number_tail s true) in H. simpl. lia.
    + apply (parse_number_tail (String c s) false).
Qed.

Lemma after_length (word : string) : forall s r,
  after word s = Some r -> (String.length r <= String.length s)%nat.
Proof.
  induction word as [|x word IH]; intros s r H; simpl in H.
  - by injection H as <-.
  - destruct s as [|c s]; [done|]. destruct (code c =? code x)%N; [|done].
    apply IH in H. simpl. lia.
Qed.


Lemma fuel_free (f : nat) :
  fuel_free_value f /\ fuel_free_members f /\ fuel_free_elements f.
Proof.
  induction f as [|n (IHv & IHm & IHe)].
  { split; [|split]; [intros s v r H | intros s acc v r H | intros s acc v r H];
      discriminate H. }
  split; [|split].
  - intros s v r H. cbn [parse_value] in H.
    destruct (skip_ws s) as [|c r0] eqn:Hws; [done|].
    pose proof (skip_ws_cons s c r0 Hws) as Hl.
    destruct (start c) eqn:Hst.
    + destruct (skip_ws r0) as [|c' r'] eqn:Hws2; [done|].
      pose proof (skip_ws_cons r0 c' r' Hws2) as Hl2.
      destruct (code c' =? 125)%N eqn:Hc.
      * injection H as <- <-. split; [lia|]. intros [|g] Hg; [lia|].
        cbn [parse_value]. by rewrite Hws, Hst, Hws2, Hc.
      * destruct (IHm _ _ _ _ H) as [Hlt Hg']. split; [lia|].
        intros [|g] Hg; [lia|]. cbn [parse_value]. rewrite Hws, Hst, Hws2, Hc.
        apply Hg'. lia.
    + destruct (skip_ws r0) as [|c' r'] eqn:Hws2; [done|].
      pose proof (skip_ws_cons r0 c' r' Hws2) as Hl2.
      destruct (code c' =? 93)%N eqn:Hc.
      * injection H as <- <-. split; [lia|]. intros [|g] Hg; [lia|].
        cbn [parse_value]. by rewrite Hws, Hst, Hws2, Hc.
      * destruct (IHe _ _ _ _ H) as [Hlt Hg']. split; [lia|].
        intros [|g] Hg; [lia|]. cbn [parse_value]. rewrite Hws, Hst, Hws2, Hc.
        apply Hg'. lia.
    + destruct (parse_chars r0) as [[t r']|] eqn:Hp; [|done].
      injection H as <- <-.
      pose proof (parse_chars_length _ r0 t r' (Nat.le_refl _) Hp) as Hlt.
      split; [lia|]. intros [|g] Hg; [lia|].
      cbn [parse_value]. by rewrite Hws, Hst, Hp.
    + destruct (after "rue" r0) as [r'|] eqn:Hp; [|done].
      injection H as <- <-. pose proof (after_length _ _ _ Hp) as Hlt.
      split; [lia|]. intros [|g] Hg; [lia|].
      cbn [parse_value]. by rewrite Hws, Hst, Hp.
    + destruct (after "alse" r0) as [r'|] eqn:Hp; [|done].
      injection H as <- <-. pose proof (after_length _ _ _ Hp) as Hlt.
      split; [lia|]. intros [|g] Hg; [lia|].
      cbn [parse_value]. by rewrite Hws, Hst, Hp.
    + destruct (after "ull" r0) as [r'|] eqn:Hp; [|done].
      injection H as <- <-. pose proof (after_length _ _ _ Hp) as Hlt.
      split; [lia|]. intros [|g] Hg; [lia|].
      cbn [parse_value]. by rewrite Hws, Hst, Hp.
    + pose proof (parse_number_length _ _ _ H) as Hlt. cbn [String.length] in Hlt.
      split; [lia|]. intros [|g] Hg; [lia|].
      cbn [parse_value]. by rewrite Hws, Hst.
  - intros s acc v r H. cbn [parse_members] in H.
    destruct (skip_ws s) as [|c r0] eqn:Hws; [done|].
    pose proof (skip_ws_cons s c r0 Hws) as Hl.
    destruct (code c =? 34)%N eqn:Hc; [|done].
    destruct (parse_chars r0) as [[k r1]|] eqn:Hp; [|done].
    pose proof (parse_chars_length _ r0 k r1 (Nat.le_refl _) Hp) as Hl1.
    destruct (skip_ws r1) as [|c2 r2] eqn:Hws2; [done|].
    pose proof (skip_ws_cons r1 c2 r2 Hws2) as Hl2.
    destruct (code c2 =? 58)%N eqn:Hc2; [|done].
    destruct (parse_value n r2) as [[x r3]|] eqn:Hv; [|done].
    destruct (IHv _ _ _ Hv) as [Hl3 Hgv].
    destruct (skip_ws r3) as [|c3 r4] eqn:Hws3; [done|].
    pose proof (skip_ws_cons r3 c3 r4 Hws3) as Hl4.
    destruct (code c3 =? 44)%N eqn:Hc3.
    + destruct (IHm _ _ _ _ H) as [Hl5 Hgm]. split; [lia|].
      intros [|g] Hg; [lia|]. cbn [parse_members].
      rewrite Hws, Hc, Hp, Hws2, Hc2, Hgv by lia. rewrite Hws3, Hc3.
      apply Hgm. lia.
    + destruct (code c3 =? 125)%N eqn:Hc4; [|done]. injection H as <- <-.
      split; [lia|]. intros [|g] Hg; [lia|]. cbn [parse_members].
      rewrite Hws, Hc, Hp, Hws2, Hc2, Hgv by lia. by rewrite Hws3, Hc3, Hc4.
  - intros s acc v r H. cbn [parse_elements] in H.
    destruct (parse_value n s) as [[x r1]|] eqn:Hv; [|done].
    destruct (IHv _ _ _ Hv) as [Hl1 Hgv].
    destruct (skip_ws r1) as [|c r2] eqn:Hws; [done|].
    pose proof (skip_ws_cons r1 c r2 Hws) as Hl2.
    destruct (code c =? 44)%N eqn:Hc.
    + destruct (IHe _ _ _ _ H) as [Hl3 Hge]. split; [lia|].
      intros [|g] Hg; [lia|]. cbn [parse_elements].
      rewrite Hgv by lia. rewrite Hws, Hc. apply Hge. lia.
    + destruct (code c =? 93)%N eqn:Hc2; [|done]. injection H as <- <-.
      split; [lia|]. intros [|g] Hg; [lia|]. cbn [parse_elements].
      rewrite Hgv by lia. by rewrite Hws, Hc, Hc2.
Qed.

(** [JSON.parse] never fails for lack of fuel: a text that the descent
    parses with some fuel, up to trailing white space, is parsed by
    [JSON.parse] to the same value. *)
Lemma parse_fuel_irrelevant (f : nat) (text : string) (v : jsval) (r : string) :
  parse_value f text = Some (v, r) ->
  skip_ws r = "" ->
  JSON.parse text = Some v.
Proof.
  intros H Hr. destruct (fuel_free f) as (Hv & _ & _).
  destruct (Hv _ _ _ H) as [Hlt Hg].
  unfold JSON.parse. rewrite (Hg (S (String.length text))) by lia.
  by rewrite Hr.
Qed.

End Fuel.

(** ** Reconciliation: what it can change *)

Lemma log_grow (w : World) (action value : jsval) :
  log action value w = (inr tt, grow (logged w action value) (disk (env w)) [] w).
Proof.
  unfold logged. destruct (options (this w)) as [r|] eqn:Hopt.
  - by apply (log_with_options w action value r).
  - rewrite log_unconfigured by done. by rewrite grow_nothing.
Qed.

Lemma console_error_grow (args : list jsval) (w : World) :
  console_error args w = (inr tt, grow [] (disk (env w)) [ConsoleError args] w).
Proof. unfold console_error, modify. by rewrite emit_grow. Qed.

Lemma fs_readFile_grow (p n : string) (w : World) :
  fs_readFile p n w =
  (fs.readFile (disk (env w)) p n,
   grow [] (disk (env w)) [FsReadFile p n (failure (fs.readFile (disk (env w)) p n))] w).
Proof. unfold fs_readFile. by rewrite emit_grow. Qed.

Lemma fs_unlink_grow (p n : string) (w : World) :
  fs_unlink p n w =
  match fs.unlink (disk (env w)) p n with
  | inr d => (inr tt, grow [] d [FsUnlink p n None] w)
  | inl e => (inl e, grow [] (disk (env w)) [FsUnlink p n (Some e)] w)
  end.
Proof.
  unfold fs_unlink. destruct (fs.unlink _ _ _).
  - by rewrite emit_grow.
  - rewrite emit_grow, with_disk_grow, grow_grow. reflexivity.
Qed.

Lemma logged_truthy w a v : Forall (fun x => truthy x = true) (logged w a v).
Proof. unfold logged. destruct (options _); repeat constructor. Qed.

Ltac solve_Forall :=
  repeat first
    [ apply Forall_nil_2
    | assumption
    | apply logged_truthy
    | apply Forall_app_2
    | apply Forall_cons_2; [first [assumption | reflexivity] |] ].

Ltac shape :=
  rewrite ?grow_grow; eexists _, _, _;
  split; [reflexivity | split; solve_Forall].

Lemma loadLogFile_shape (p n : string) (w : World) :
  exists extra d t,
    loadLogFile p n w = (inr tt, grow extra d t w) /\
    Forall (fun x => truthy x = true) extra /\
    Forall (fun io => is_task_io io = true) t.
Proof.
  unfold loadLogFile, try_catch. rewrite bind_unfold, fs_readFile_grow.
  destruct (fs.readFile _ _ _) as [e|c]; simpl.
  - rewrite bind_unfold, log_grow. simpl. rewrite console_error_grow. shape.
  - rewrite bind_unfold. unfold JSON_parse.
    destruct (JSON.parse c) as [v|]; simpl.
    + rewrite bind_unfold.
      destruct (truthy v) eqn:Hv.
      * rewrite push_grow. rewrite fs_unlink_grow. simpl.
        destruct (fs.unlink _ _ _) as [e|d].
        -- rewrite bind_unfold, log_grow. simpl. rewrite console_error_grow. shape.
        -- shape.
      * rewrite ret_unfold. rewrite fs_unlink_grow. simpl.
        destruct (fs.unlink _ _ _) as [e|d].
        -- rewrite bind_unfold, log_grow. simpl. rewrite console_error_grow. shape.
        -- shape.
    + unfold throw. rewrite bind_unfold, log_grow. simpl. rewrite console_error_grow.
      shape.
Qed.

Lemma Promise_all_shape (p : string) (names : list string) (w : World) :
  exists extra d t,
    Promise_all (map (loadLogFile p) names) w = (inr tt, grow extra d t w) /\
    Forall (fun x => truthy x = true) extra /\
    Forall (fun io => is_task_io io = true) t.
Proof.
  revert w. induction names as [|n names IH]; intros w; simpl.
  - exists [], (disk (env w)), []. rewrite grow_nothing. repeat split; constructor.
  - destruct (loadLogFile_shape p n w) as (e1 & d1 & t1 & -> & He1 & Ht1).
    destruct (IH (grow e1 d1 t1 w)) as (e2 & d2 & t2 & -> & He2 & Ht2).
    shape.
Qed.

Lemma is_task_recon (t : list IO) :
  Forall (fun io => is_task_io io = true) t ->
  Forall (fun io => is_recon_io io = true) t.
Proof.
  intros H. eapply Forall_impl; [exact H|]. intros [] H'; simpl in *; congruence.
Qed.

Lemma fs_ensureDir_grow (p : string) (w : World) :
  fs_ensureDir p w =
  match fs.ensureDir (disk (env w)) p with
  | inr d => (inr tt, grow [] d [FsEnsureDir p None] w)
  | inl e => (inl e, grow [] (disk (env w)) [FsEnsureDir p (Some e)] w)
  end.
Proof.
  unfold fs_ensureDir. destruct (fs.ensureDir _ _).
  - by rewrite emit_grow.
  - rewrite emit_grow, with_disk_grow, grow_grow. reflexivity.
Qed.

Lemma fs_readdir_grow (p : string) (w : World) :
  fs_readdir p w =
  (fs.readdir (disk (env w)) p,
   grow [] (disk (env w)) [FsReaddir p (failure (fs.readdir (disk (env w)) p))] w).
Proof. unfold fs_readdir. by rewrite emit_grow. Qed.

(** [loadLogFiles] never rejects; it only appends truthy values to the
    queue, changes the disk and makes file-system and console calls, at
    least one. *)
Lemma loadLogFiles_shape (w : World) :
  exists extra d t,
    loadLogFiles w = (inr tt, grow extra d t w) /\
    Forall (fun x => truthy x = true) extra /\
    Forall (fun io => is_recon_io io = true) t /\
    t <> [].
Proof.
  unfold loadLogFiles, try_catch. rewrite bind_unfold. unfold this_options.
  destruct (options (this w)) as [[]|]; simpl.
  2:{ rewrite console_error_grow. eexists _, _, _. split; [reflexivity|].
      split; [constructor|]. split; [repeat constructor | discriminate]. }
  rewrite bind_unfold. unfold as_path.
  destruct (obj_get (defaultOptions w) "logPath") eqn:Hp; simpl;
    try (rewrite console_error_grow; eexists _, _, _; split; [reflexivity|];
         split; [constructor|]; split; [repeat constructor | discriminate]).
  rewrite bind_unfold, fs_ensureDir_grow.
  destruct (fs.ensureDir _ _) as [e|d]; simpl.
  { rewrite console_error_grow, grow_grow. eexists _, _, _. split; [reflexivity|].
    split; [constructor|]. split; [repeat constructor | discriminate]. }
  rewrite bind_unfold, fs_readdir_grow. simpl.
  destruct (fs.readdir d s) as [e|names]; simpl.
  { rewrite console_error_grow, !grow_grow. eexists _, _, _. split; [reflexivity|].
    split; [constructor|]. split; [repeat constructor | discriminate]. }
  match goal with |- context [Promise_all (map _ ?l) ?w0] =>
    destruct (Promise_all_shape s l w0) as (e2 & d2 & t2 & -> & He2 & Ht2) end.
  rewrite !grow_grow. eexists _, _, _. split; [reflexivity|].
  split; [done|]. split; [|discriminate].
  repeat (apply Forall_cons_2; [reflexivity|]). by apply is_task_recon.
Qed.

(** ** Reconciliation: file by file *)

Lemma logged_grow (w : World) extra d t a v :
  logged (grow extra d t w) a v = logged w a v.
Proof. reflexivity. Qed.

Lemma loadLogFile_unloadable (p n : string) (w : World) (wr : bool)
      (files : gmap string entry) (e : Error) :
  disk (env w) !! p = Some (Dir wr files) ->
  unloadable files n e ->
  exists t,
    loadLogFile p n w =
    (inr tt, grow (logged w (JStr "unexpected") (JObj [("error", JError e)]))
                  (disk (env w)) t w) /\
    Forall (fun io => is_task_io io = true) t /\
    ConsoleError [JError e] ∈ t.
Proof.
  intros Hd Hun.
  unfold loadLogFile, try_catch. rewrite bind_unfold, fs_readFile_grow.
  unfold fs.readFile. rewrite Hd.
  destruct Hun as [[Hn ->]|(c & Hn & Hp & ->)]; rewrite Hn; simpl.
  - rewrite bind_unfold, log_grow. simpl. rewrite console_error_grow, !grow_grow.
    simpl. rewrite ?app_nil_r.
    eexists. split; [reflexivity|]. split; [solve_Forall|].
    apply list_elem_of_In; simpl; tauto.
  - rewrite bind_unfold. unfold JSON_parse. rewrite Hp. unfold throw.
    rewrite bind_unfold, log_grow. simpl. rewrite console_error_grow, !grow_grow.
    simpl. rewrite ?app_nil_r.
    eexists. split; [reflexivity|]. split; [solve_Forall|].
    apply list_elem_of_In; simpl; tauto.
Qed.

Lemma loadLogFile_loadable (p n : string) (w : World)
      (files : gmap string entry) (v : jsval) :
  disk (env w) !! p = Some (Dir true files) ->
  loadable files n v ->
  loadLogFile p n w =
  (inr tt, grow (if truthy v then [v] else [])
                (<[p := Dir true (delete n files)]> (disk (env w)))
                [FsReadFile p n None; FsUnlink p n None] w).
Proof.
  intros Hd (c & Hn & Hp).
  unfold loadLogFile, try_catch. rewrite bind_unfold, fs_readFile_grow.
  unfold fs.readFile. rewrite Hd, Hn. simpl.
  rewrite bind_unfold. unfold JSON_parse. rewrite Hp. simpl.
  rewrite bind_unfold.
  destruct (truthy v); rewrite ?push_grow, ?ret_unfold, fs_unlink_grow; simpl;
    unfold fs.unlink; rewrite Hd, Hn; by rewrite !grow_grow.
Qed.

(** One task touches no file but its own. *)
Lemma loadLogFile_others (p n : string) (w : World) (wr : bool)
      (files : gmap string entry) :
  disk (env w) !! p = Some (Dir wr files) ->
  exists extra files' t,
    loadLogFile p n w =
    (inr tt, grow extra (<[p := Dir wr files']> (disk (env w))) t w) /\
    Forall (fun x => truthy x = true) extra /\
    Forall (fun io => is_task_io io = true) t /\
    (files' = files \/ files' = delete n files).
Proof.
  intros Hd.
  assert (Hid : <[p := Dir wr files]> (disk (env w)) = disk (env w))
    by by apply insert_id.
  unfold loadLogFile, try_catch. rewrite bind_unfold, fs_readFile_grow.
  destruct (fs.readFile _ _ _) as [e|c]; simpl.
  - rewrite bind_unfold, log_grow. simpl. rewrite console_error_grow, !grow_grow.
    eexists _, files, _. rewrite Hid. split; [reflexivity|].
    split; [solve_Forall|]. split; [solve_Forall|]. by left.
  - rewrite bind_unfold. unfold JSON_parse.
    destruct (JSON.parse c) as [v|]; simpl.
    + rewrite bind_unfold.
      assert (Hun : forall w0 : World,
        disk (env w0) = disk (env w) ->
        exists files' t,
          fs_unlink p n w0 =
          ((fs_unlink p n w0).1,
           grow [] (<[p := Dir wr files']> (disk (env w))) t w0) /\
          Forall (fun io => is_task_io io = true) t /\
          (files' = files \/ files' = delete n files) /\
          ((fs_unlink p n w0).1 = inr tt \/ exists e, (fs_unlink p n w0).1 = inl e)).
      { intros w0 Hw0. rewrite fs_unlink_grow. unfold fs.unlink. rewrite Hw0, Hd.
        destruct (files !! n) as [[c'|]|]; [destruct wr|..]; simpl;
          first [ eexists (delete n files), _; split; [reflexivity|];
                  split; [solve_Forall|]; split; [by right|]; by left
                | eexists files, _; rewrite Hid; split; [reflexivity|];
                  split; [solve_Forall|]; split; [by left|]; right; eauto ]. }
      destruct (truthy v) eqn:Hv.
      * rewrite push_grow.
        match goal with |- context [fs_unlink p n ?w0] =>
          destruct (Hun w0) as (files' & t & Hu & Ht & Hf & Hres); [done|];
          rewrite Hu end.
        destruct Hres as [->|[e ->]].
        -- rewrite !grow_grow. eexists _, files', _. split; [reflexivity|].
           split; [solve_Forall|]. split; [solve_Forall|]. done.
        -- rewrite bind_unfold, log_grow. simpl. rewrite console_error_grow.
           rewrite !grow_grow. eexists _, files', _. split; [reflexivity|].
           split; [solve_Forall|]. split; [solve_Forall|]. done.
      * rewrite ret_unfold.
        match goal with |- context [fs_unlink p n ?w0] =>
          destruct (Hun w0) as (files' & t & Hu & Ht & Hf & Hres); [done|];
          rewrite Hu end.
        destruct Hres as [->|[e ->]].
        -- rewrite !grow_grow. eexists _, files', _. split; [reflexivity|].
           split; [solve_Forall|]. split; [solve_Forall|]. done.
        -- rewrite bind_unfold, log_grow. simpl. rewrite console_error_grow.
           rewrite !grow_grow. eexists _, files', _. split; [reflexivity|].
           split; [solve_Forall|]. split; [solve_Forall|]. done.
    + unfold throw. rewrite bind_unfold, log_grow. simpl.
      rewrite console_error_grow, !grow_grow.
      eexists _, files, _. rewrite Hid. split; [reflexivity|].
      split; [solve_Forall|]. split; [solve_Forall|]. by left.
Qed.

Lemma loadable_unloadable (files : gmap string entry) (n : string) v e :
  loadable files n v -> unloadable files n e -> False.
Proof.
  intros (c & Hn & Hp) [[Hn' _]|(c' & Hn' & Hp' & _)]; congruence.
Qed.

Lemma unloadable_fun (files : gmap string entry) (n : string) e e' :
  unloadable files n e -> unloadable files n e' -> e = e'.
Proof.
  intros [[Hn ->]|(c & Hn & Hp & ->)] [[Hn' ->]|(c' & Hn' & Hp' & ->)]; congruence.
Qed.

Lemma loadable_fun (files : gmap string entry) (n : string) v v' :
  loadable files n v -> loadable files n v' -> v = v'.
Proof. intros (c & Hn & Hp) (c' & Hn' & Hp'). congruence. Qed.

(** What one task does, by the state of its file. *)
Lemma loadLogFile_spec (p n : string) (w : World) (wr : bool)
      (files : gmap string entry) :
  disk (env w) !! p = Some (Dir wr files) ->
  exists extra files' t,
    loadLogFile p n w =
    (inr tt, grow extra (<[p := Dir wr files']> (disk (env w))) t w) /\
    Forall (fun x => truthy x = true) extra /\
    Forall (fun io => is_task_io io = true) t /\
    (files' = files \/ files' = delete n files) /\
    (forall e, unloadable files n e ->
       files' = files /\
       extra = logged w (JStr "unexpected") (JObj [("error", JError e)]) /\
       ConsoleError [JError e] ∈ t) /\
    (forall v, loadable files n v -> wr = true ->
       files' = delete n files /\ extra = if truthy v then [v] else []).
Proof.
  intros Hd.
  assert (Hid : <[p := Dir wr files]> (disk (env w)) = disk (env w))
    by by apply insert_id.
  assert (Hcase : (exists e, unloadable files n e) \/
                  (exists v, loadable files n v /\ wr = true) \/
                  ((forall e, ~ unloadable files n e) /\
                   (forall v, loadable files n v -> wr = false))).
  { destruct (files !! n) as [[c|]|] eqn:Hn.
    - destruct (JSON.parse c) as [v|] eqn:Hp.
      + destruct wr.
        * right. left. exists v. split; [by exists c|done].
        * right. right. split; [|done].
          intros e [[Hn' _]|(c' & Hn' & Hp' & _)]; congruence.
      + left. exists SyntaxError. right. by exists c.
    - left. exists EISDIR. by left.
    - right. right. split.
      + intros e [[Hn' _]|(c' & Hn' & _)]; congruence.
      + intros v (c & Hn' & _). congruence. }
  destruct Hcase as [[e Hun]|[(v & Hl & ->)|[Hnu Hnl]]].
  - destruct (loadLogFile_unloadable p n w wr files e Hd Hun) as (t & -> & Ht & Hin).
    eexists _, files, t. rewrite Hid. split; [reflexivity|].
    split; [apply logged_truthy|]. split; [done|]. split; [by left|]. split.
    + intros e' Hun'. by rewrite (unloadable_fun files n e' e Hun' Hun).
    + intros v Hl. by destruct (loadable_unloadable files n v e).
  - rewrite (loadLogFile_loadable p n w files v Hd Hl).
    eexists _, _, _. split; [reflexivity|].
    split; [destruct (truthy v) eqn:Hv; solve_Forall|].
    split; [solve_Forall|]. split; [by right|]. split.
    + intros e Hun. by destruct (loadable_unloadable files n v e).
    + intros v' Hl' _. by rewrite (loadable_fun files n v' v Hl' Hl).
  - destruct (loadLogFile_others p n w wr files Hd)
      as (extra & files' & t & -> & He & Ht & Hf).
    eexists _, _, _. split; [reflexivity|]. repeat (split; [done|]). split.
    + intros e Hun. by destruct (Hnu e).
    + intros v Hl Hwr. rewrite (Hnl v Hl) in Hwr. discriminate.
Qed.

(** All the tasks: each file that fails stays as it is and is reported,
    each that loads is queued (when truthy) and removed, a file that is not
    among the tasks is not touched. *)
Lemma Promise_all_spec (p : string) (names : list string) :
  NoDup names ->
  forall (w : World) (wr : bool) (files : gmap string entry),
    disk (env w) !! p = Some (Dir wr files) ->
    exists extra files' t,
      Promise_all (map (loadLogFile p) names) w =
      (inr tt, grow extra (<[p := Dir wr files']> (disk (env w))) t w) /\
      Forall (fun x => truthy x = true) extra /\
      Forall (fun io => is_task_io io = true) t /\
      (forall n, n ∉ names -> files' !! n = files !! n) /\
      (forall n e, n ∈ names -> unloadable files n e ->
         files' !! n = files !! n /\
         (forall x, x ∈ logged w (JStr "unexpected") (JObj [("error", JError e)]) ->
                    x ∈ extra) /\
         ConsoleError [JError e] ∈ t) /\
      (forall n v, n ∈ names -> loadable files n v -> wr = true ->
         files' !! n = None /\ (truthy v = true -> v ∈ extra)).
Proof.
  induction 1 as [|n names Hnin Hnd IH]; intros w wr files Hd.
  - exists [], files, []. simpl. rewrite insert_id by done. rewrite grow_nothing.
    split; [done|]. split; [constructor|]. split; [constructor|].
    split; [done|]. split; intros ? ? Hin; by apply elem_of_nil in Hin.
  - simpl.
    destruct (loadLogFile_spec p n w wr files Hd)
      as (e1 & f1 & t1 & -> & He1 & Ht1 & Hf1 & Hun1 & Hl1).
    assert (Hother : forall n', n' <> n -> f1 !! n' = files !! n').
    { intros n' Hne. destruct Hf1 as [->| ->]; [done|].
      by rewrite lookup_delete_ne. }
    assert (Hd1 : disk (env (grow e1 (<[p:=Dir wr f1]> (disk (env w))) t1 w)) !! p
                  = Some (Dir wr f1)) by apply lookup_insert_eq.
    destruct (IH _ wr f1 Hd1)
      as (e2 & f2 & t2 & -> & He2 & Ht2 & Hout & Hun2 & Hl2).
    rewrite grow_grow. simpl. rewrite insert_insert_eq.
    exists (e1 ++ e2), f2, (t1 ++ t2). split; [reflexivity|].
    split; [by apply Forall_app_2|]. split; [by apply Forall_app_2|].
    split; [|split].
    + intros n' Hn'. apply not_elem_of_cons in Hn' as [Hne Hn'].
      rewrite Hout by done. by apply Hother.
    + intros n' e Hin Hun. apply elem_of_cons in Hin as [->|Hin].
      * destruct (Hun1 e Hun) as (-> & -> & Hc). rewrite Hout by done.
        split; [done|]. split; [|apply elem_of_app; by left].
        intros x Hx. apply elem_of_app. by left.
      * assert (Hne : n' <> n) by (intros ->; done).
        assert (Hun' : unloadable f1 n' e).
        { unfold unloadable in *. by rewrite Hother. }
        destruct (Hun2 n' e Hin Hun') as (Hk & Hx & Hc).
        split; [by rewrite Hk, Hother|]. split; [|apply elem_of_app; by right].
        intros x Hx'. apply elem_of_app. right. by apply Hx.
    + intros n' v Hin Hl Hwr. apply elem_of_cons in Hin as [->|Hin].
      * destruct (Hl1 v Hl Hwr) as (-> & ->). rewrite Hout by done.
        split; [apply lookup_delete_eq|].
        intros Hv. rewrite Hv. apply list_elem_of_In; simpl; tauto.
      * assert (Hne : n' <> n) by (intros ->; done).
        assert (Hl' : loadable f1 n' v).
        { unfold loadable in *. by rewrite Hother. }
        destruct (Hl2 n' v Hin Hl' Hwr) as (Hk & Hx).
        split; [done|]. intros Hv. apply elem_of_app. right. by apply Hx.
Qed.

Lemma elem_of_log_files (files : gmap string entry) (n : string) :
  n ∈ List.filter is_log_file (map fst (map_to_list files)) <->
  is_log_file n = true /\ is_Some (files !! n).
Proof.
  rewrite list_elem_of_In, filter_In, <- list_elem_of_In.
  change (map fst (map_to_list files)) with (fst <$> map_to_list files).
  rewrite list_elem_of_fmap. split.
  - intros [([n' x] & -> & Hin) Hl]. split; [done|].
    apply elem_of_map_to_list in Hin. simpl. eauto.
  - intros [Hl [x Hx]]. split; [|done]. exists (n, x). split; [done|].
    by apply elem_of_map_to_list.
Qed.

Lemma NoDup_log_files (files : gmap string entry) :
  NoDup (List.filter is_log_file (map fst (map_to_list files))).
Proof.
  pose proof (NoDup_fst_map_to_list files) as Hnd.
  change (fst <$> map_to_list files) with (map fst (map_to_list files)) in Hnd.
  induction Hnd as [|n l Hn Hnd IH]; simpl; [constructor|].
  destruct (is_log_file n); [|done]. constructor; [|done].
  rewrite list_elem_of_In, filter_In, <- list_elem_of_In. by intros [? _].
Qed.

(** [loadLogFiles] on a backlog directory that exists. *)
Lemma loadLogFiles_backlog (w : World) (p : string) (wr : bool)
      (files : gmap string entry) :
  backlog w p wr files ->
  exists extra files' t,
    loadLogFiles w =
    (inr tt, grow extra (<[p := Dir wr files']> (disk (env w)))
                  (FsEnsureDir p None :: FsReaddir p None :: t) w) /\
    Forall (fun x => truthy x = true) extra /\
    Forall (fun io => is_task_io io = true) t /\
    (forall n, is_log_file n = false -> files' !! n = files !! n) /\
    (forall n e, is_log_file n = true -> unloadable files n e ->
       files' !! n = files !! n /\
       unexpected w e ∈ extra /\
       ConsoleError [JError e] ∈ t) /\
    (forall n v, is_log_file n = true -> loadable files n v -> wr = true ->
       files' !! n = None /\ (truthy v = true -> v ∈ extra)).
Proof.
  intros (Hopt & Hp & Hd).
  unfold loadLogFiles, try_catch, this_options. rewrite bind_unfold, Hopt.
  rewrite bind_unfold, Hp. simpl.
  rewrite bind_unfold, fs_ensureDir_grow. unfold fs.ensureDir. rewrite Hd.
  rewrite bind_unfold, fs_readdir_grow. simpl. unfold fs.readdir. rewrite Hd. simpl.
  match goal with |- context [Promise_all _ ?w0] => set (W0 := w0) end.
  assert (Hd0 : disk (env W0) !! p = Some (Dir wr files)) by done.
  destruct (Promise_all_spec p _ (NoDup_log_files files) W0 wr files Hd0)
    as (extra & files' & t & -> & He & Ht & Hout & Hun & Hl).
  unfold W0. rewrite !grow_grow. simpl.
  exists extra, files', t. split; [reflexivity|].
  split; [done|]. split; [done|]. split; [|split].
  - intros n Hn. apply Hout. rewrite elem_of_log_files. intros [Hn' _]. congruence.
  - intros n e Hn Hu.
    assert (Hin : n ∈ List.filter is_log_file (map fst (map_to_list files))).
    { apply elem_of_log_files. split; [done|].
      destruct Hu as [[-> _]|(c & -> & _)]; eauto. }
    destruct (Hun n e Hin Hu) as (Hk & Hx & Hc). split; [done|]. split; [|done].
    apply Hx. unfold logged, unexpected. simpl. rewrite Hopt.
    apply list_elem_of_In; simpl; tauto.
  - intros n v Hn Hlo Hwr. apply Hl; [|done..].
    apply elem_of_log_files. split; [done|]. destruct Hlo as (c & -> & _). eauto.
Qed.

(** ** Reconciliation: every case of every file *)

Lemma grow_inj_trace (w : World) e1 d1 t1 e2 d2 t2 :
  grow e1 d1 t1 w = grow e2 d2 t2 w -> e1 = e2 /\ d1 = d2 /\ t1 = t2.
Proof.
  intros H.
  pose proof (f_equal (fun x => logQueue (this x)) H) as Hq.
  pose proof (f_equal (fun x => disk (env x)) H) as Hd.
  pose proof (f_equal trace H) as Ht. simpl in *.
  apply app_inv_head in Hq, Ht. done.
Qed.

(** One task in a read-only directory: the disk stays as it is; a record
    that parses is queued before the [unlink] that fails. *)
Lemma loadLogFile_read_only (p n : string) (w : World) (files : gmap string entry) :
  disk (env w) !! p = Some (Dir false files) ->
  exists extra t,
    loadLogFile p n w = (inr tt, grow extra (disk (env w)) t w) /\
    Forall (fun x => truthy x = true) extra /\
    forall v, loadable files n v ->
      extra = (if truthy v then [v] else []) ++
              logged w (JStr "unexpected") (JObj [("error", JError EACCES)]) /\
      t = [FsReadFile p n None; FsUnlink p n (Some EACCES); ConsoleError [JError EACCES]].
Proof.
  intros Hd.
  unfold loadLogFile, try_catch. rewrite bind_unfold, fs_readFile_grow.
  unfold fs.readFile. rewrite Hd.
  destruct (files !! n) as [[c|]|] eqn:Hn; simpl.
  - rewrite bind_unfold. unfold JSON_parse.
    destruct (JSON.parse c) as [v|] eqn:Hparse; simpl.
    + rewrite bind_unfold.
      assert (Hun : forall w0 : World,
                disk (env w0) = disk (env w) ->
                fs_unlink p n w0
                = (inl EACCES, grow [] (disk (env w0)) [FsUnlink p n (Some EACCES)] w0)).
      { intros w0 Hw0. rewrite fs_unlink_grow. unfold fs.unlink.
        by rewrite Hw0, Hd, Hn. }
      destruct (truthy v) eqn:Hv.
      * rewrite push_grow, Hun by done. simpl.
        rewrite bind_unfold, log_grow. simpl. rewrite console_error_grow, !grow_grow.
        eexists _, _. split; [reflexivity|]. split; [solve_Forall|].
        intros v' (c' & Hn' & Hp'). assert (v' = v) as -> by congruence.
        rewrite Hv, logged_grow. simpl. by rewrite app_nil_r.
      * rewrite ret_unfold, Hun by done. simpl.
        rewrite bind_unfold, log_grow. simpl. rewrite console_error_grow, !grow_grow.
        eexists _, _. split; [reflexivity|]. split; [solve_Forall|].
        intros v' (c' & Hn' & Hp'). assert (v' = v) as -> by congruence.
        rewrite Hv, logged_grow. simpl. by rewrite app_nil_r.
    + unfold throw. rewrite bind_unfold, log_grow. simpl.
      rewrite console_error_grow, !grow_grow.
      eexists _, _. split; [reflexivity|]. split; [solve_Forall|].
      intros v' (c' & Hn' & Hp'). congruence.
  - rewrite bind_unfold, log_grow. simpl. rewrite console_error_grow, !grow_grow.
    eexists _, _. split; [reflexivity|]. split; [solve_Forall|].
    intros v' (c' & Hn' & Hp'). congruence.
  - rewrite bind_unfold, log_grow. simpl. rewrite console_error_grow, !grow_grow.
    eexists _, _. split; [reflexivity|]. split; [solve_Forall|].
    intros v' (c' & Hn' & Hp'). congruence.
Qed.


(** One task, whatever the directory holds under the name: the entry stays
    or is removed, and it is removed only when the directory can be written
    to and the entry is a record that parses; the value of a record that
    parses is queued (when truthy) whether or not the removal succeeds. *)
Lemma loadLogFile_cases (p n : string) (w : World) (wr : bool)
      (files : gmap string entry) :
  disk (env w) !! p = Some (Dir wr files) ->
  exists extra files' t,
    loadLogFile p n w =
    (inr tt, grow extra (<[p := Dir wr files']> (disk (env w))) t w) /\
    (files' = files \/
     (files' = delete n files /\ wr = true /\ exists v, loadable files n v)) /\
    forall v, loadable files n v ->
      (truthy v = true -> v ∈ extra) /\
      (wr = true -> files' = delete n files) /\
      (wr = false ->
       (forall x, x ∈ logged w (JStr "unexpected") (JObj [("error", JError EACCES)]) ->
                  x ∈ extra) /\
       ConsoleError [JError EACCES] ∈ t).
Proof.
  intros Hd.
  assert (Hid : <[p := Dir wr files]> (disk (env w)) = disk (env w))
    by by apply insert_id.
  destruct wr.
  - destruct (loadLogFile_spec p n w true files Hd)
      as (extra & files' & t & Heq & _ & _ & Hf & Hun & Hl).
    exists extra, files', t. split; [done|]. split.
    + destruct (files !! n) as [[c|]|] eqn:Hn.
      * destruct (JSON.parse c) as [v|] eqn:Hp.
        -- right. assert (Hv : loadable files n v) by by exists c.
           destruct (Hl v Hv eq_refl) as [-> _]. eauto.
        -- left. apply (Hun SyntaxError). right. by exists c.
      * left. apply (Hun EISDIR). by left.
      * left. destruct Hf as [->| ->]; [done|]. by apply delete_id.
    + intros v Hv. destruct (Hl v Hv eq_refl) as [-> ->].
      split; [|split; [done|discriminate]].
      intros ->. apply list_elem_of_In; simpl; tauto.
  - destruct (loadLogFile_read_only p n w files Hd) as (extra & t & Heq & _ & Hl).
    exists extra, files, t. rewrite Hid. split; [done|]. split; [by left|].
    intros v Hv. destruct (Hl v Hv) as [-> ->]. split; [|split; [discriminate|]].
    + intros ->. apply elem_of_app. left. apply list_elem_of_In; simpl; tauto.
    + intros _. split.
      * intros x Hx. apply elem_of_app. by right.
      * apply list_elem_of_In; simpl; tauto.
Qed.

Lemma Promise_all_cases (p : string) (names : list string) :
  forall (w : World) (wr : bool) (files : gmap string entry),
    disk (env w) !! p = Some (Dir wr files) ->
    exists extra files' t,
      Promise_all (map (loadLogFile p) names) w =
      (inr tt, grow extra (<[p := Dir wr files']> (disk (env w))) t w) /\
      (forall n,
         files' !! n = files !! n \/
         (files' !! n = None /\ wr = true /\ n ∈ names /\ exists v, loadable files n v)) /\
      forall n v, n ∈ names -> loadable files n v ->
        (truthy v = true -> v ∈ extra) /\
        (wr = true -> files' !! n = None) /\
        (wr = false ->
         (forall x, x ∈ logged w (JStr "unexpected") (JObj [("error", JError EACCES)]) ->
                    x ∈ extra) /\
         ConsoleError [JError EACCES] ∈ t).
Proof.
  induction names as [|n names IH]; intros w wr files Hd.
  - exists [], files, []. simpl. rewrite insert_id by done. rewrite grow_nothing.
    split; [done|]. split; [by left|].
    intros ? ? Hin. by apply elem_of_nil in Hin.
  - simpl.
    destruct (loadLogFile_cases p n w wr files Hd)
      as (e1 & f1 & t1 & -> & Hf1 & Hl1).
    assert (Hother : forall n', n' <> n -> f1 !! n' = files !! n').
    { intros n' Hne. destruct Hf1 as [->|(-> & _)]; [done|].
      by rewrite lookup_delete_ne. }
    assert (Hd1 : disk (env (grow e1 (<[p:=Dir wr f1]> (disk (env w))) t1 w)) !! p
                  = Some (Dir wr f1)) by apply lookup_insert_eq.
    destruct (IH _ wr f1 Hd1) as (e2 & f2 & t2 & -> & Hf2 & Hl2).
    rewrite grow_grow. simpl. rewrite insert_insert_eq.
    exists (e1 ++ e2), f2, (t1 ++ t2). split; [reflexivity|].
    assert (Hkeep : forall m,
              f2 !! m = files !! m \/
              (f2 !! m = None /\ wr = true /\ m ∈ n :: names /\
               exists v, loadable files m v)).
    { intros m. destruct (decide (m = n)) as [->|Hne].
      - destruct Hf1 as [->|(-> & Hwr & v & Hv)].
        + destruct (Hf2 n) as [?|(? & ? & ? & ?)]; [by left|].
          right. repeat split; try done. by left.
        + right. split; [|repeat split; [done|by left|by exists v]].
          destruct (Hf2 n) as [->|(? & _)]; [apply lookup_delete_eq|done].
      - destruct (Hf2 m) as [Hm|(Hm & Hwr & Hin & v & Hv)].
        + left. by rewrite Hm, Hother.
        + right. repeat split; try done; [by right|].
          exists v. unfold loadable in *. by rewrite <- Hother. }
    split; [exact Hkeep|].
    intros n' v Hin Hl. destruct (decide (n' = n)) as [->|Hne].
    + destruct (Hl1 v Hl) as (Hq & Hrm & Hro). split; [|split].
      * intros Hv. apply elem_of_app. left. auto.
      * intros Hwr. specialize (Hrm Hwr). subst f1.
        destruct (Hf2 n) as [->|(? & _)]; [apply lookup_delete_eq|done].
      * intros Hwr. destruct (Hro Hwr) as [Hx Hc]. split.
        -- intros x Hx'. apply elem_of_app. left. auto.
        -- apply elem_of_app. by left.
    + apply elem_of_cons in Hin as [?|Hin]; [done|].
      assert (Hl' : loadable f1 n' v).
      { unfold loadable in *. by rewrite Hother. }
      destruct (Hl2 n' v Hin Hl') as (Hq & Hrm & Hro). split; [|split].
      * intros Hv. apply elem_of_app. right. auto.
      * done.
      * intros Hwr. destruct (Hro Hwr) as [Hx Hc]. split.
        -- intros x Hx'. apply elem_of_app. right. by apply Hx.
        -- apply elem_of_app. by right.
Qed.

(** [loadLogFiles] on a backlog directory that exists, file by file. *)
Lemma loadLogFiles_cases (w : World) (p : string) (wr : bool)
      (files : gmap string entry) :
  backlog w p wr files ->
  exists extra files' t,
    loadLogFiles w =
    (inr tt, grow extra (<[p := Dir wr files']> (disk (env w)))
                  (FsEnsureDir p None :: FsReaddir p None :: t) w) /\
    (forall n,
       files' !! n = files !! n \/
       (files' !! n = None /\ wr = true /\ is_log_file n = true /\
        exists v, loadable files n v)) /\
    forall n v, is_log_file n = true -> loadable files n v ->
      (truthy v = true -> v ∈ extra) /\
      (wr = true -> files' !! n = None) /\
      (wr = false ->
       unexpected w EACCES ∈ extra /\ ConsoleError [JError EACCES] ∈ t).
Proof.
  intros (Hopt & Hp & Hd).
  unfold loadLogFiles, try_catch, this_options. rewrite bind_unfold, Hopt.
  rewrite bind_unfold, Hp. simpl.
  rewrite bind_unfold, fs_ensureDir_grow. unfold fs.ensureDir. rewrite Hd.
  rewrite bind_unfold, fs_readdir_grow. simpl. unfold fs.readdir. rewrite Hd. simpl.
  match goal with |- context [Promise_all _ ?w0] => set (W0 := w0) end.
  assert (Hd0 : disk (env W0) !! p = Some (Dir wr files)) by done.
  destruct (Promise_all_cases p (List.filter is_log_file (map fst (map_to_list files)))
              W0 wr files Hd0)
    as (extra & files' & t & -> & Hkeep & Hl).
  unfold W0. rewrite !grow_grow. simpl.
  exists extra, files', t. split; [reflexivity|]. split.
  - intros n. destruct (Hkeep n) as [?|(? & ? & Hin & ?)]; [by left|].
    right. apply elem_of_log_files in Hin as [? _]. done.
  - intros n v Hn Hlo.
    assert (Hin : n ∈ List.filter is_log_file (map fst (map_to_list files))).
    { apply elem_of_log_files. split; [done|]. destruct Hlo as (c & -> & _). eauto. }
    destruct (Hl n v Hin Hlo) as (Hq & Hrm & Hro). split; [done|]. split; [done|].
    intros Hwr. destruct (Hro Hwr) as [Hx Hc]. split; [|done].
    apply Hx. unfold logged, unexpected. simpl. rewrite Hopt.
    apply list_elem_of_In; simpl; tauto.
Qed.

(** Claim C1, as amended: a backlog file whose read or parse fails does
    not stop the reconciliation, which never rejects; the failure is
    reported (an [unexpected] event is queued, the error goes to the
    console) and the failed file is left in the directory as it was.
    Every other record that can be read and parsed is still processed: its
    value is queued exactly when it is truthy; the file is then removed
    when the directory can be written to, and when it cannot the removal
    fails, the file stays and that failure is reported the same way.
    Nothing else in the directory changes: an entry is removed only if it
    has the extension, was read and parsed, and the directory can be
    written to; no entry is added or modified. *)
Theorem reconciliation_isolates_and_keeps_failed_file
        (w : World) (p : string) (wr : bool) (files : gmap string entry)
        (name : string) (e : Error) :
  backlog w p wr files ->
  is_log_file name = true ->
  unloadable files name e ->
  exists extra files' t,
    loadLogFiles w =
    (inr tt, grow extra (<[p := Dir wr files']> (disk (env w))) t w) /\
    files' !! name = files !! name /\
    unexpected w e ∈ extra /\
    ConsoleError [JError e] ∈ t /\
    (forall other v,
       is_log_file other = true -> loadable files other v ->
       (truthy v = true -> v ∈ extra) /\
       (truthy v = false -> v ∉ extra) /\
       (wr = true -> files' !! other = None) /\
       (wr = false ->
        files' !! other = files !! other /\
        unexpected w EACCES ∈ extra /\
        ConsoleError [JError EACCES] ∈ t)) /\
    (forall n,
       files' !! n = files !! n \/
       (files' !! n = None /\ wr = true /\ is_log_file n = true /\
        exists v, loadable files n v)).
Proof.
  intros Hb Hn Hu.
  destruct (loadLogFiles_backlog w p wr files Hb)
    as (extra & files' & t & Heq & He & _ & _ & Hun & _).
  destruct (loadLogFiles_cases w p wr files Hb)
    as (extra2 & files2 & t2 & Heq2 & Hkeep & Hl).
  rewrite Heq in Heq2. apply (f_equal snd) in Heq2. cbn [snd] in Heq2.
  apply grow_inj_trace in Heq2 as (<- & Hdisk & Ht). injection Ht as <-.
  assert (files2 = files') as ->.
  { apply (f_equal (fun d => d !! p)) in Hdisk.
    rewrite !lookup_insert_eq in Hdisk. congruence. }
  destruct (Hun name e Hn Hu) as (Hk & Hx & Hc).
  eexists extra, files', _. split; [exact Heq|]. split; [done|]. split; [done|].
  split; [by do 2 apply list_elem_of_further|]. split; [|done].
  intros other v Ho Hlo. destruct (Hl other v Ho Hlo) as (Hq & Hrm & Hro).
  split; [done|]. split; [|split; [done|]].
  - intros Hv Hin. rewrite Forall_forall in He. specialize (He v Hin). congruence.
  - intros Hwr. destruct (Hro Hwr) as [Hx' Hc']. split; [|split; [done|]].
    + destruct (Hkeep other) as [?|(_ & ? & _)]; [done|congruence].
    + by do 2 apply list_elem_of_further.
Qed.

Lemma reconciliation_isolates_and_keeps_failed_file_witness :
  backlog sample_world "/tmp/x" true sample_files /\
  is_log_file "bad.ehl" = true /\
  unloadable sample_files "bad.ehl" SyntaxError /\
  exists extra files' t,
    loadLogFiles sample_world =
    (inr tt, grow extra (<["/tmp/x" := Dir true files']> (disk (env sample_world)))
                  t sample_world) /\
    files' !! "bad.ehl" = sample_files !! "bad.ehl".
Proof.
  assert (Hb : backlog sample_world "/tmp/x" true sample_files)
    by (repeat split).
  assert (Hu : unloadable sample_files "bad.ehl" SyntaxError)
    by (right; exists "{"; repeat split).
  split; [exact Hb|]. split; [reflexivity|]. split; [exact Hu|].
  destruct (reconciliation_isolates_and_keeps_failed_file
              sample_world "/tmp/x" true sample_files "bad.ehl" SyntaxError
              Hb eq_refl Hu) as (extra & files' & t & Heq & Hk & _).
  exists extra, files', t. split; [exact Heq | exact Hk].
Defined.

(** Claim C1, as stated, fails: the truncated record [bad.ehl] has the
    extension and does not parse; the reconciliation completes, removes the
    well-formed record, and leaves [bad.ehl] where it was, so that the next
    reconciliation reads it a second time. *)
Lemma poison_file_survives_reconciliation :
  is_log_file "bad.ehl" = true /\
  sample_files !! "bad.ehl" = Some (RegFile "{") /\
  JSON.parse "{" = None /\
  (loadLogFiles sample_world).1 = inr tt /\
  disk (env (loadLogFiles sample_world).2) !! "/tmp/x"
  = Some (Dir true (delete "good.ehl" sample_files)) /\
  delete "good.ehl" sample_files !! "bad.ehl" <> None /\
  length (List.filter (reads "/tmp/x" "bad.ehl")
            (trace (loadLogFiles (loadLogFiles sample_world).2).2)) = 2%nat.
Proof.
  repeat split; try (vm_compute; reflexivity). vm_compute. discriminate.
Qed.

(** ** Delivery *)

Lemma sendLogToServer_spec (logObject : jsval) (w : World) :
  sendLogToServer logObject w =
  (inr tt,
   match options (this w) with
   | None => grow [logObject] (disk (env w)) [] w
   | Some _ =>
       if sink_up (env w)
       then grow [] (disk (env w))
                 [HttpGet (obj_get (defaultOptions w) "serverUrl")
                          (params_of logObject) None] w
       else grow [logObject] (disk (env w))
                 [HttpGet (obj_get (defaultOptions w) "serverUrl")
                          (params_of logObject) (Some NetworkError)] w
   end).
Proof.
  unfold sendLogToServer, try_catch, this_options, axios_get. rewrite bind_unfold.
  destruct (options (this w)) as [[]|]; simpl.
  - fold (params_of logObject). destruct (sink_up (env w)).
    + by rewrite emit_grow.
    + rewrite push_grow, emit_grow, grow_grow. reflexivity.
  - apply push_grow.
Qed.

(** [sendLogToFile] never rejects and leaves the logger's fields alone. *)
Lemma sendLogToFile_shape (logObject : jsval) (w : World) :
  exists e' t,
    sendLogToFile logObject w =
    (inr tt, mkWorld (this w) (defaultOptions w) (timers w) (nextTimer w) e'
                     (trace w ++ t)) /\
    Forall (fun io => is_file_io io = true) t.
Proof.
  destruct w as [l dopt tm nx en tr].
  unfold sendLogToFile, try_catch, crypto_randomBytes, this_options, as_path,
    JSON_stringify, fs_writeFile, console_error, modify, emit, throw.
  rewrite !bind_unfold. simpl.
  destruct (options l) as [[]|]; simpl.
  2:{ eexists _, _. split; [reflexivity|]. repeat constructor. }
  rewrite bind_unfold.
  destruct (obj_get dopt "logPath"); simpl;
    try (eexists _, _; split; [reflexivity|]; repeat constructor).
  rewrite bind_unfold.
  destruct (JSON.stringify logObject); simpl;
    try (eexists _, _; split; [reflexivity|]; repeat constructor).
  destruct (fs.writeFile _ _ _ _); simpl.
  - eexists _, _. split; [rewrite <- app_assoc; reflexivity|]. repeat constructor.
  - eexists _, _. split; [reflexivity|]. repeat constructor.
Qed.

(** ** The queue callback, case by case *)

Lemma dispatch_tick_falsy (w : World) (v : jsval) (q : list jsval) :
  logQueue (this w) = v :: q -> truthy v = false ->
  dispatch_tick w = (inr tt, with_this (with_logQueue q) w).
Proof.
  intros Hq Hv. unfold dispatch_tick, shift. rewrite bind_unfold, Hq, Hv.
  reflexivity.
Qed.

Lemma dispatch_tick_connected (w : World) (v : jsval) (q : list jsval) :
  logQueue (this w) = v :: q -> truthy v = true ->
  isInternetConnected (this w) = true ->
  dispatch_tick w =
  sendLogToServer v
    (if lastInternetConnectedFlag (this w)
     then with_this (with_logQueue q) w
     else with_this (with_lastInternetConnectedFlag true)
            (loadLogFiles (with_this (with_logQueue q) w)).2).
Proof.
  intros Hq Hv Hc. unfold dispatch_tick, shift. rewrite bind_unfold, Hq, Hv.
  run_M. rewrite Hc.
  destruct (lastInternetConnectedFlag (this w)); simpl.
  - reflexivity.
  - destruct (loadLogFiles_shape (with_this (with_logQueue q) w))
      as (extra & d & t & Hl & _).
    rewrite !bind_unfold, Hl. reflexivity.
Qed.

Lemma dispatch_tick_disconnected (w : World) (v : jsval) (q : list jsval) :
  logQueue (this w) = v :: q -> truthy v = true ->
  isInternetConnected (this w) = false ->
  dispatch_tick w =
  sendLogToFile v
    (with_this (with_lastInternetConnectedFlag false) (with_this (with_logQueue q) w)).
Proof.
  intros Hq Hv Hc. unfold dispatch_tick, shift. rewrite bind_unfold, Hq, Hv.
  run_M. rewrite Hc. reflexivity.
Qed.

(** A tick takes the head of the queue and may append to its tail; its
    promise is never rejected. *)
Lemma dispatch_tick_queue (w : World) :
  (dispatch_tick w).1 = inr tt /\
  exists extra,
    logQueue (this (dispatch_tick w).2) = tail (logQueue (this w)) ++ extra.
Proof.
  destruct (logQueue (this w)) as [|v q] eqn:Hq.
  { rewrite dispatch_tick_nil by done. split; [done|].
    exists []. simpl. by rewrite Hq. }
  destruct (truthy v) eqn:Hv.
  { destruct (isInternetConnected (this w)) eqn:Hc.
    - rewrite (dispatch_tick_connected w v q) by done.
      rewrite sendLogToServer_spec. split; [done|]. simpl.
      destruct (lastInternetConnectedFlag (this w)).
      + simpl. destruct (options (this w)); [destruct (sink_up (env w))|]; simpl;
          eauto.
      + destruct (loadLogFiles_shape (with_this (with_logQueue q) w))
          as (extra & d & t & -> & _). simpl.
        destruct (options (this w)); [destruct (sink_up (env w))|]; simpl;
          rewrite <- ?app_assoc; eauto.
    - rewrite (dispatch_tick_disconnected w v q) by done.
      match goal with |- context [sendLogToFile v ?w0] =>
        destruct (sendLogToFile_shape v w0) as (e' & t & -> & _) end.
      split; [done|]. exists []. simpl. by rewrite app_nil_r. }
  rewrite (dispatch_tick_falsy w v q) by done. split; [done|].
  exists []. simpl. by rewrite app_nil_r.
Qed.

Lemma ticks_queue (n : nat) : forall (w : World) (pre rest : list jsval),
  logQueue (this w) = pre ++ rest -> length pre = n ->
  exists extra, logQueue (this (ticks n w)) = rest ++ extra.
Proof.
  induction n as [|n IH]; intros w pre rest Hq Hlen.
  - destruct pre; [|done]. exists []. simpl in *. by rewrite app_nil_r.
  - destruct pre as [|v pre]; [done|]. simpl in Hlen.
    unfold ticks. rewrite Nat.iter_succ_r. fold (ticks n (dispatch_tick w).2).
    destruct (dispatch_tick_queue w) as [_ [extra Hx]].
    rewrite Hq in Hx. simpl in Hx. rewrite <- app_assoc in Hx.
    destruct (IH _ pre (rest ++ extra) Hx) as [extra' Hx']; [lia|].
    exists (extra ++ extra'). by rewrite Hx', app_assoc.
Qed.

(** Claim C4: when the request for a popped event fails, the promise of
    the tick is still fulfilled (nothing reaches the caller), the event is
    at the tail of the queue afterwards, and once the values in front of it
    have been taken, one per tick, it is the head of the queue again: the
    next tick pops it. *)
Theorem failed_delivery_requeues (w : World) (e : jsval) (q : list jsval) :
  logQueue (this w) = e :: q ->
  truthy e = true ->
  isInternetConnected (this w) = true ->
  sink_up (env w) = false ->
  (dispatch_tick w).1 = inr tt /\
  exists mid,
    logQueue (this (dispatch_tick w).2) = q ++ mid ++ [e] /\
    exists later,
      logQueue (this (ticks (length (q ++ mid)) (dispatch_tick w).2)) = e :: later.
Proof.
  intros Hq He Hc Hs. split; [apply dispatch_tick_queue|].
  assert (exists mid, logQueue (this (dispatch_tick w).2) = q ++ mid ++ [e])
    as [mid Hmid].
  { rewrite (dispatch_tick_connected w e q) by done.
    rewrite sendLogToServer_spec. simpl.
    destruct (lastInternetConnectedFlag (this w)).
    - exists []. simpl. rewrite Hs. by destruct (options (this w)).
    - destruct (loadLogFiles_shape (with_this (with_logQueue q) w))
        as (extra & d & t & -> & _). simpl. rewrite Hs.
      exists extra. destruct (options (this w)); simpl; by rewrite <- app_assoc. }
  exists mid. split; [done|].
  destruct (ticks_queue (length (q ++ mid)) (dispatch_tick w).2 (q ++ mid) [e])
    as [extra Hx]; [by rewrite <- app_assoc | done |].
  exists extra. by rewrite Hx.
Qed.

Lemma failed_delivery_requeues_witness :
  let e := JObj [("action", JStr "click"); ("value", JUndefined);
                 ("date", JNum 1700000000123); ("osType", JStr "Linux")] in
  logQueue (this sink_down_world) = [e] /\
  (dispatch_tick sink_down_world).1 = inr tt /\
  exists mid,
    logQueue (this (dispatch_tick sink_down_world).2) = [] ++ mid ++ [e] /\
    exists later,
      logQueue (this (ticks (length ([] ++ mid)) (dispatch_tick sink_down_world).2))
      = e :: later.
Proof.
  intros e. split; [reflexivity|].
  apply (failed_delivery_requeues sink_down_world e []); reflexivity.
Defined.

(** ** Timers *)

Lemma stop_spec (w : World) :
  stop w = (inr tt, with_timers (stopped w) (nextTimer w) w).
Proof.
  destruct w as [[o q c f hc hq i] dopt tm nx en tr].
  unfold stop, stopped, clearInterval. run_M.
  destruct hc, hq; reflexivity.
Qed.

Lemma run_spec (w : World) (r : ref) :
  options (this w) = Some r ->
  run w =
  (inr tt,
   started (if bool_decide (is_Some (queueCheckInterval (this w)))
               || bool_decide (is_Some (connectionCheckInterval (this w)))
            then stopped w else timers w) w).
Proof.
  intros Hopt.
  destruct w as [[o q c f hc hq i] dopt tm nx en tr]. simpl in Hopt. subst o.
  unfold run. run_M.
  destruct (bool_decide (is_Some hq) || bool_decide (is_Some hc)).
  - rewrite stop_spec. destruct r. reflexivity.
  - destruct r. reflexivity.
Qed.

Lemma run_without_options (w : World) :
  options (this w) = None ->
  run w = (inl (Err "option is not defined"), w).
Proof. intros Hopt. unfold run. run_M. by rewrite Hopt. Qed.

(** Under the invariant, whatever timers were set are gone once [run] has
    called [stop], or there were none. *)
Lemma run_clears (w : World) :
  Inv w ->
  (if bool_decide (is_Some (queueCheckInterval (this w)))
      || bool_decide (is_Some (connectionCheckInterval (this w)))
   then stopped w else timers w) = ∅.
Proof.
  intros HI. apply map_eq. intros id. rewrite lookup_empty.
  destruct (timers w !! id) as [[cb d]|] eqn:Hid.
  - destruct (inv_timers w HI id cb d Hid) as [[_ Hh]|[_ Hh]].
    + rewrite Hh. rewrite (bool_decide_eq_true_2 (is_Some (Some id))) by eauto.
      rewrite orb_true_r. unfold stopped. rewrite Hh. simpl.
      destruct (queueCheckInterval (this w)) as [j|]; simpl.
      * destruct (decide (j = id)) as [->|Hne].
        -- apply lookup_delete_eq.
        -- rewrite lookup_delete_ne by done. apply lookup_delete_eq.
      * apply lookup_delete_eq.
    + rewrite Hh. rewrite (bool_decide_eq_true_2 (is_Some (Some id))) by eauto.
      simpl. unfold stopped. rewrite Hh. simpl. apply lookup_delete_eq.
  - destruct (_ || _); [|done]. unfold stopped, clear.
    destruct (queueCheckInterval (this w)), (connectionCheckInterval (this w));
      rewrite ?lookup_delete_None; auto.
Qed.

Lemma run_timers (w : World) (r : ref) :
  Inv w -> options (this w) = Some r ->
  run w = (inr tt, started ∅ w).
Proof.
  intros HI Hopt. rewrite (run_spec w r Hopt). by rewrite run_clears.
Qed.

Lemma active_started (cb : Callback) (w : World) : active cb (started ∅ w) = 1%nat.
Proof.
  unfold active, started. simpl.
  assert (Hne : Pos.succ (nextTimer w) <> nextTimer w) by lia.
  destruct cb.
  - rewrite map_filter_insert_False by (simpl; congruence).
    rewrite delete_insert_ne by done. rewrite delete_empty.
    rewrite map_filter_insert_True by done.
    rewrite map_filter_empty.
    rewrite map_size_insert_None by apply lookup_empty. by rewrite map_size_empty.
  - rewrite map_filter_insert_True by done.
    rewrite map_filter_insert_False by (simpl; congruence).
    rewrite delete_empty, map_filter_empty.
    rewrite map_size_insert_None by apply lookup_empty. by rewrite map_size_empty.
Qed.

(** ** The invariant *)

Lemma Inv_init (osType : string) (e : Env) : Inv (init osType e).
Proof.
  split; simpl.
  - intros id cb d. by rewrite lookup_empty.
  - intros id cb d. by rewrite lookup_empty.
  - intros [[? H]|[? H]]; discriminate.
  - constructor.
  - discriminate.
  - intros [H|H]; [discriminate | by apply Exists_nil in H].
Qed.

Lemma setOptions_spec (nextOptions : jsobj) (w : World) :
  setOptions nextOptions w =
  if negb (truthy (obj_get nextOptions "logPath"))
  then (inl (Err "logPath property must be presented"), w)
  else if negb (truthy (obj_get nextOptions "serverUrl"))
  then (inl (Err "server url must be presented"), w)
  else (inr tt,
        with_this (with_options (Some RDefaultOptions))
          (with_defaultOptions (Object_assign (defaultOptions w) nextOptions) w)).
Proof.
  unfold setOptions. destruct (negb _); [done|]. by destruct (negb _).
Qed.

Lemma Inv_setOptions (o : jsobj) (w : World) : Inv w -> Inv (setOptions o w).2.
Proof.
  intros [H1 H0 H2 H3 H4 H5]. rewrite setOptions_spec.
  destruct (negb _); [by split|]. destruct (negb _); [by split|].
  split; simpl; auto.
Qed.

Lemma Inv_stop (w : World) : Inv w -> Inv (stop w).2.
Proof.
  intros [H1 H0 H2 H3 H4 H5]. rewrite stop_spec. split; simpl; auto.
  - intros id cb d Hid. apply (H1 id cb d). unfold stopped, clear in Hid.
    destruct (queueCheckInterval (this w)), (connectionCheckInterval (this w));
      repeat (apply lookup_delete_Some in Hid; destruct Hid as [_ Hid]); done.
  - intros id cb d Hid. apply (H0 id cb d). unfold stopped, clear in Hid.
    destruct (queueCheckInterval (this w)), (connectionCheckInterval (this w));
      repeat (apply lookup_delete_Some in Hid; destruct Hid as [_ Hid]); done.
Qed.

Lemma Inv_run (w : World) : Inv w -> Inv (run w).2.
Proof.
  intros HI. destruct (options (this w)) as [r|] eqn:Hopt.
  2:{ by rewrite run_without_options. }
  rewrite (run_timers w r HI Hopt). destruct HI as [H1 H0 H2 H3 H4 H5].
  split; simpl; auto.
  - intros id cb d Hid.
    apply lookup_insert_Some in Hid as [[<- Heq]|[Hne Hid]].
    + right. by inversion Heq.
    + apply lookup_insert_Some in Hid as [[<- Heq]|[Hne' Hid]].
      * left. by inversion Heq.
      * by rewrite lookup_empty in Hid.
  - intros id cb d Hid.
    apply lookup_insert_Some in Hid as [[<- Heq]|[Hne Hid]]; [lia|].
    apply lookup_insert_Some in Hid as [[<- Heq]|[Hne' Hid]]; [lia|].
    by rewrite lookup_empty in Hid.
  - intros _. by destruct r.
Qed.

Lemma Inv_grow (w : World) (extra : list jsval) (d : gmap string node)
      (t : list IO) :
  Inv w ->
  Forall (fun v => truthy v = true) extra ->
  (Exists (fun io => is_FsWriteFile io = true) t ->
   Exists (fun io => is_stored_probe io = true) (trace w)) ->
  Inv (grow extra d t w).
Proof.
  intros [H1 H0 H2 H3 H4 H5] He Ht. split; simpl; auto.
  - by apply Forall_app_2.
  - intros Hf. apply Exists_app. left. auto.
  - intros [Hc|Hw]; apply Exists_app; left; [by auto|].
    apply Exists_app in Hw as [Hw|Hw]; auto.
Qed.

Lemma recon_io_not_write (t : list IO) :
  Forall (fun io => is_recon_io io = true) t ->
  ~ Exists (fun io => is_FsWriteFile io = true) t.
Proof.
  intros Hall Hex. apply Exists_exists in Hex as (io & Hin & Hw).
  rewrite Forall_forall in Hall. specialize (Hall io Hin).
  by destruct io.
Qed.

Lemma Inv_log (action value : jsval) (w : World) : Inv w -> Inv (log action value w).2.
Proof.
  intros HI. rewrite log_grow. simpl. apply Inv_grow; [done|apply logged_truthy|].
  intros H. by apply Exists_nil in H.
Qed.

Lemma Inv_probe_tick (w : World) : Inv w -> Inv (probe_tick w).2.
Proof.
  intros [H1 H0 H2 H3 H4 H5]. destruct (reachable (env w)) as [e|b] eqn:Hr.
  - rewrite (probe_tick_throws w e Hr). split; simpl; auto.
    + intros Hf. apply Exists_app. left. auto.
    + intros [Hc|Hw]; apply Exists_app; left; [by auto|].
      apply Exists_app in Hw as [Hw|Hw]; [by auto|].
      apply Exists_cons in Hw as [Hw|Hw]; [done | by apply Exists_nil in Hw].
  - rewrite (probe_tick_resolved w b Hr). split; simpl; auto.
    + intros Hf. apply Exists_app. left. auto.
    + intros _. apply Exists_app. right. by constructor.
Qed.

Lemma Inv_dispatch_tick (w : World) :
  Inv w -> options (this w) = Some RDefaultOptions -> Inv (dispatch_tick w).2.
Proof.
  intros HI Hopt. destruct (logQueue (this w)) as [|v q] eqn:Hq.
  { by rewrite dispatch_tick_nil. }
  assert (Hshift : Inv (with_this (with_logQueue q) w)).
  { destruct HI as [H1 H0 H2 H3 H4 H5]. split; simpl; auto.
    rewrite Hq in H3. by inversion H3. }
  destruct (truthy v) eqn:Hv.
  2:{ by rewrite (dispatch_tick_falsy w v q). }
  destruct (isInternetConnected (this w)) eqn:Hc.
  - rewrite (dispatch_tick_connected w v q) by done.
    rewrite sendLogToServer_spec. simpl.
    destruct (lastInternetConnectedFlag (this w)) eqn:Hf.
    + simpl. rewrite Hopt.
      destruct (sink_up (env w)); apply Inv_grow; auto;
        intros Hw; apply Exists_cons in Hw as [Hw|Hw];
        first [done | by apply Exists_nil in Hw].
    + destruct (loadLogFiles_shape (with_this (with_logQueue q) w))
        as (extra & d & t & -> & Hex & Ht & _). simpl. rewrite Hopt.
      pose proof (Inv_grow _ extra d t Hshift Hex) as HI1.
      destruct HI1 as [G1 G0 G2 G3 G4 G5].
      { intros Hw. by apply recon_io_not_write in Hw. }
      simpl in *.
      destruct (sink_up (env w)); split; simpl; auto.
      all: try (intros _; apply Exists_app; right; by constructor).
      all: try (rewrite ?app_nil_r; done).
      all: try (apply Forall_app_2; [done | by constructor]).
      all: intros [Hc'|Hw]; apply Exists_app; left; [by auto|];
        apply Exists_app in Hw as [Hw|Hw]; [by auto|];
        apply Exists_cons in Hw as [Hw|Hw]; [done | by apply Exists_nil in Hw].
  - rewrite (dispatch_tick_disconnected w v q) by done.
    match goal with |- context [sendLogToFile v ?w0] =>
      destruct (sendLogToFile_shape v w0) as (e' & t & -> & _) end.
    destruct Hshift as [G1 G0 G2 G3 G4 G5]. simpl in *.
    split; simpl; auto.
    + discriminate.
    + intros _. apply Exists_app. left. apply G5. by left.
Qed.

Lemma Inv_fire (id : positive) (w : World) : Inv w -> Inv (fire id w).
Proof.
  intros HI. unfold fire. destruct (timers w !! id) as [[cb d]|] eqn:Hid; [|done].
  destruct cb; simpl.
  - by apply Inv_probe_tick.
  - apply Inv_dispatch_tick; [done|].
    apply (inv_options w HI).
    destruct (inv_timers w HI id _ d Hid) as [[? Hh]|[_ Hh]]; [done|].
    right. by rewrite Hh.
Qed.

Lemma Inv_step (s : Step) (w : World) : Inv w -> Inv (step s w).
Proof.
  intros HI. destruct s; simpl.
  - by apply Inv_setOptions.
  - by apply Inv_run.
  - by apply Inv_stop.
  - by apply Inv_log.
  - by apply Inv_fire.
  - destruct HI. by split.
Qed.

Lemma Inv_exec (steps : list Step) (w : World) : Inv w -> Inv (exec steps w).
Proof.
  revert w. induction steps as [|s steps IH]; intros w HI; [done|].
  simpl. apply IH. by apply Inv_step.
Qed.

(** ** [run] after [run] *)

Lemma started_fresh (w : World) (id : positive) :
  Inv w -> is_Some (timers w !! id) -> timers (started ∅ w) !! id = None.
Proof.
  intros HI [[cb d] Hid]. pose proof (inv_fresh w HI id cb d Hid) as Hlt.
  unfold started. simpl.
  rewrite !lookup_insert_ne by lia. apply lookup_empty.
Qed.

(** Claim C6: in any world the program can reach with its options set,
    [run()] does not throw, and whether or not timers were set before, it
    leaves exactly one timer with the connectivity callback and one with the
    queue callback; none of the timers that were set before is still set.
    Called twice in a row, the second call clears the pair of the first. *)
Theorem run_twice_one_timer_each (steps : list Step) (osType : string) (e0 : Env) :
  let w := exec steps (init osType e0) in
  options (this w) <> None ->
  let w1 := (run w).2 in
  let w2 := (run w1).2 in
  ((run w).1 = inr tt /\ (run w1).1 = inr tt) /\
  (active ProbeTick w1 = 1%nat /\ active DispatchTick w1 = 1%nat /\
   forall id, is_Some (timers w !! id) -> timers w1 !! id = None) /\
  (active ProbeTick w2 = 1%nat /\ active DispatchTick w2 = 1%nat /\
   forall id, is_Some (timers w1 !! id) -> timers w2 !! id = None).
Proof.
  intros w Hopt w1 w2.
  assert (HI : Inv w) by apply Inv_exec, Inv_init.
  destruct (options (this w)) as [r|] eqn:Hr; [|done].
  assert (H1 : run w = (inr tt, started ∅ w)) by by apply (run_timers w r).
  assert (HI1 : Inv w1) by by apply Inv_run.
  assert (Hr1 : options (this w1) = Some r).
  { unfold w1. by rewrite H1. }
  assert (H2 : run w1 = (inr tt, started ∅ w1)) by by apply (run_timers w1 r).
  unfold w2. rewrite H2. unfold w1 in *. rewrite H1 in *. cbn [fst snd] in *.
  repeat split; auto using active_started, started_fresh.
Qed.

Lemma run_twice_one_timer_each_witness :
  options (this (exec [Call_setOptions sample_options] (init "Linux" sample_env)))
  <> None /\
  active ProbeTick
    (run (run (exec [Call_setOptions sample_options] (init "Linux" sample_env))).2).2
  = 1%nat /\
  active DispatchTick
    (run (run (exec [Call_setOptions sample_options] (init "Linux" sample_env))).2).2
  = 1%nat.
Proof.
  assert (H : options (this (exec [Call_setOptions sample_options]
                                  (init "Linux" sample_env))) <> None)
    by discriminate.
  split; [exact H|].
  pose proof (run_twice_one_timer_each [Call_setOptions sample_options]
                "Linux" sample_env H) as (_ & _ & H2 & H3 & _).
  split; [exact H2 | exact H3].
Defined.

(** ** [setOptions] after [setOptions] *)

Lemma setOptions_twice (o1 o2 : jsobj) (w : World) :
  truthy (obj_get o1 "logPath") = true -> truthy (obj_get o1 "serverUrl") = true ->
  truthy (obj_get o2 "logPath") = true -> truthy (obj_get o2 "serverUrl") = true ->
  defaultOptions (exec [Call_setOptions o1; Call_setOptions o2] w)
  = Object_assign (Object_assign (defaultOptions w) o1) o2.
Proof.
  intros H1 H2 H3 H4. simpl. rewrite !setOptions_spec.
  rewrite H1, H2. simpl. by rewrite H3, H4.
Qed.

(** ** What a step adds to the trace *)

Lemma Forall_not_recon (Q : IO -> bool) (t : list IO) :
  (forall io, is_recon_io io = true -> Q io = false) ->
  Forall (fun io => is_recon_io io = true) t ->
  Forall (fun io => Q io = false) t.
Proof. intros HQ Ht. eapply Forall_impl; [exact Ht|]. auto. Qed.

Lemma Forall_not_file (Q : IO -> bool) (t : list IO) :
  (forall io, is_file_io io = true -> Q io = false) ->
  Forall (fun io => is_file_io io = true) t ->
  Forall (fun io => Q io = false) t.
Proof. intros HQ Ht. eapply Forall_impl; [exact Ht|]. auto. Qed.

(** The calls of one queue callback: none is a probe, and a request is
    made only when a value is taken off the queue while connected. *)
Lemma dispatch_tick_trace (w : World) :
  exists t,
    trace (dispatch_tick w).2 = trace w ++ t /\
    Forall (fun io => is_stored_probe io = false) t /\
    (isInternetConnected (this w) && negb (bool_decide (logQueue (this w) = []))
     = false ->
     Forall (fun io => is_HttpGet io = false) t).
Proof.
  destruct (logQueue (this w)) as [|v q] eqn:Hq.
  { rewrite dispatch_tick_nil by done. exists []. simpl.
    rewrite app_nil_r. repeat split; constructor. }
  destruct (truthy v) eqn:Hv.
  2:{ rewrite (dispatch_tick_falsy w v q) by done. exists []. simpl.
      rewrite app_nil_r. repeat split; constructor. }
  destruct (isInternetConnected (this w)) eqn:Hc.
  - rewrite (dispatch_tick_connected w v q) by done.
    rewrite sendLogToServer_spec. simpl.
    assert (Hrec : forall t, Forall (fun io => is_recon_io io = true) t ->
                             Forall (fun io => is_stored_probe io = false) t).
    { intros t. apply Forall_not_recon. by intros []. }
    destruct (lastInternetConnectedFlag (this w)).
    + simpl. destruct (options (this w)); [destruct (sink_up (env w))|]; simpl;
        eexists; (split; [reflexivity|]); (split; [|done]); repeat constructor.
    + destruct (loadLogFiles_shape (with_this (with_logQueue q) w))
        as (extra & d & t & -> & _ & Ht & _). simpl.
      destruct (options (this w)); [destruct (sink_up (env w))|]; simpl;
        rewrite <- ?app_assoc; eexists; (split; [reflexivity|]); (split; [|done]);
        rewrite ?app_nil_r; try apply Forall_app_2; auto; repeat constructor.
  - rewrite (dispatch_tick_disconnected w v q) by done.
    match goal with |- context [sendLogToFile v ?w0] =>
      destruct (sendLogToFile_shape v w0) as (e' & t & -> & Ht) end.
    exists t. simpl. split; [done|].
    split; [|intros _]; revert Ht; apply Forall_not_file; by intros [].
Qed.

Lemma step_trace (s : Step) (w : World) :
  exists t,
    trace (step s w) = trace w ++ t /\
    (stores_probe s w = false -> Forall (fun io => is_stored_probe io = false) t) /\
    (pops_connected s w = false -> Forall (fun io => is_HttpGet io = false) t).
Proof.
  assert (Hnil : forall w' : World, trace w' = trace w ->
    exists t, trace w' = trace w ++ t /\
      (stores_probe s w = false -> Forall (fun io => is_stored_probe io = false) t) /\
      (pops_connected s w = false -> Forall (fun io => is_HttpGet io = false) t)).
  { intros w' Hw. exists []. rewrite app_nil_r. repeat split; [done|constructor..]. }
  destruct s as [o| | |a v|id|e]; cbn [step stores_probe pops_connected] in *.
  - apply Hnil. rewrite setOptions_spec. by repeat destruct (negb _).
  - apply Hnil. destruct (options (this w)) as [r|] eqn:Hopt.
    + by rewrite (run_spec w r Hopt).
    + by rewrite run_without_options.
  - apply Hnil. by rewrite stop_spec.
  - apply Hnil. rewrite log_grow. simpl. by rewrite app_nil_r.
  - unfold fire. destruct (timers w !! id) as [[[] d]|] eqn:Hid; simpl.
    + destruct (reachable (env w)) as [e|b] eqn:Hr.
      * rewrite (probe_tick_throws w e Hr). simpl. eexists. split; [reflexivity|].
        split; intros _; repeat constructor.
      * rewrite (probe_tick_resolved w b Hr). simpl. eexists. split; [reflexivity|].
        split; [discriminate|]. intros _; repeat constructor.
    + destruct (dispatch_tick_trace w) as (t & Ht & Hp & Hh). eauto.
    + by apply Hnil.
  - by apply Hnil.
Qed.

Lemma never_stores_probe (steps : list Step) : forall w : World,
  never stores_probe steps w = true ->
  exists t, trace (exec steps w) = trace w ++ t /\
            Forall (fun io => is_stored_probe io = false) t.
Proof.
  induction steps as [|s steps IH]; intros w Hn; simpl in *.
  - exists []. rewrite app_nil_r. by split.
  - apply andb_true_iff in Hn as [Hs Hn]. apply negb_true_iff in Hs.
    destruct (step_trace s w) as (t1 & Ht1 & Hp & _).
    destruct (IH _ Hn) as (t2 & Ht2 & Hp2).
    exists (t1 ++ t2). rewrite Ht2, Ht1, app_assoc. split; [done|].
    apply Forall_app_2; auto.
Qed.

Lemma never_pops_connected (steps : list Step) : forall w : World,
  never pops_connected steps w = true ->
  exists t, trace (exec steps w) = trace w ++ t /\
            Forall (fun io => is_HttpGet io = false) t.
Proof.
  induction steps as [|s steps IH]; intros w Hn; simpl in *.
  - exists []. rewrite app_nil_r. by split.
  - apply andb_true_iff in Hn as [Hs Hn]. apply negb_true_iff in Hs.
    destruct (step_trace s w) as (t1 & Ht1 & _ & Hp).
    destruct (IH _ Hn) as (t2 & Ht2 & Hp2).
    exists (t1 ++ t2). rewrite Ht2, Ht1, app_assoc. split; [done|].
    apply Forall_app_2; auto.
Qed.

Lemma Forall_false_not_Exists (Q : IO -> bool) (t : list IO) :
  Forall (fun io => Q io = false) t -> ~ Exists (fun io => Q io = true) t.
Proof.
  intros Hall Hex. apply Exists_exists in Hex as (io & Hin & Hq).
  rewrite Forall_forall in Hall. specialize (Hall io Hin). congruence.
Qed.

(** ** The first tick that delivers *)

(** Claim C9: take any execution from the initial world in which no queue
    callback has yet taken a value off the queue while connected.  Then
    [lastInternetConnectedFlag] is still [false], and a queue callback that
    now pops a value with the cached connectivity [true] first makes the
    calls of [loadLogFiles] (on the world after the pop), then raises the
    flag and sends the request for the popped value.  Nothing is assumed
    about what the probe has answered so far. *)
Theorem first_connected_pop_reconciles
        (steps : list Step) (osType : string) (e0 : Env)
        (id : positive) (d v : jsval) (q : list jsval) :
  let w := exec steps (init osType e0) in
  never pops_connected steps (init osType e0) = true ->
  timers w !! id = Some (DispatchTick, d) ->
  logQueue (this w) = v :: q ->
  isInternetConnected (this w) = true ->
  lastInternetConnectedFlag (this w) = false /\
  exists extra disk' recon failed,
    loadLogFiles (with_this (with_logQueue q) w)
    = (inr tt, grow extra disk' recon (with_this (with_logQueue q) w)) /\
    recon <> [] /\
    trace (fire id w)
    = trace w ++ recon ++
      [HttpGet (obj_get (defaultOptions w) "serverUrl") (params_of v) failed] /\
    lastInternetConnectedFlag (this (fire id w)) = true.
Proof.
  intros w Hnever Hid Hq Hc.
  assert (HI : Inv w) by apply Inv_exec, Inv_init.
  assert (Hopt : options (this w) = Some RDefaultOptions).
  { apply (inv_options w HI).
    destruct (inv_timers w HI id _ d Hid) as [[? _]|[_ Hh]]; [done|].
    right. by rewrite Hh. }
  assert (Hv : truthy v = true).
  { pose proof (inv_queue w HI) as Hall. rewrite Hq in Hall. by inversion Hall. }
  assert (Hf : lastInternetConnectedFlag (this w) = false).
  { destruct (lastInternetConnectedFlag (this w)) eqn:Hf; [|done].
    destruct (never_pops_connected steps _ Hnever) as (t & Ht & Hno).
    pose proof (inv_flag w HI Hf) as Hex. fold w in Ht. rewrite Ht in Hex.
    simpl in Hex. by apply Forall_false_not_Exists in Hno. }
  split; [done|].
  destruct (loadLogFiles_shape (with_this (with_logQueue q) w))
    as (extra & disk' & recon & Hl & _ & _ & Hne).
  unfold fire. rewrite Hid. simpl.
  rewrite (dispatch_tick_connected w v q) by done.
  rewrite Hf, Hl, sendLogToServer_spec. simpl. rewrite Hopt.
  destruct (sink_up (env w)); eexists extra, disk', recon, _;
    (split; [reflexivity|]); (split; [done|]); simpl;
    by rewrite <- app_assoc.
Qed.

(** ** Before the probe has answered *)

(** Claim C10: take any execution from the initial world in which no
    connectivity callback has stored a probe result.  Then the cached
    connectivity is still [true]; a queue callback that pops a value sends
    the request for it, after at most the calls of the reconciliation, and
    no file has been written, neither by this tick nor by an earlier one. *)
Theorem before_first_probe_delivers
        (steps : list Step) (osType : string) (e0 : Env)
        (id : positive) (d v : jsval) (q : list jsval) :
  let w := exec steps (init osType e0) in
  never stores_probe steps (init osType e0) = true ->
  timers w !! id = Some (DispatchTick, d) ->
  logQueue (this w) = v :: q ->
  isInternetConnected (this w) = true /\
  (exists recon failed,
     Forall (fun io => is_recon_io io = true) recon /\
     trace (fire id w)
     = trace w ++ recon ++
       [HttpGet (obj_get (defaultOptions w) "serverUrl") (params_of v) failed]) /\
  ~ Exists (fun io => is_FsWriteFile io = true) (trace (fire id w)).
Proof.
  intros w Hnever Hid Hq.
  assert (HI : Inv w) by apply Inv_exec, Inv_init.
  assert (Hopt : options (this w) = Some RDefaultOptions).
  { apply (inv_options w HI).
    destruct (inv_timers w HI id _ d Hid) as [[? _]|[_ Hh]]; [done|].
    right. by rewrite Hh. }
  assert (Hv : truthy v = true).
  { pose proof (inv_queue w HI) as Hall. rewrite Hq in Hall. by inversion Hall. }
  assert (Hnone : ~ Exists (fun io => is_stored_probe io = true) (trace w)).
  { destruct (never_stores_probe steps _ Hnever) as (t & Ht & Hno).
    fold w in Ht. rewrite Ht. simpl. by apply Forall_false_not_Exists. }
  assert (Hc : isInternetConnected (this w) = true).
  { destruct (isInternetConnected (this w)) eqn:Hc; [done|].
    exfalso. apply Hnone, (inv_probe w HI). by left. }
  assert (Hnw : ~ Exists (fun io => is_FsWriteFile io = true) (trace w)).
  { intros Hex. apply Hnone, (inv_probe w HI). by right. }
  split; [done|].
  assert (Hdeliver : exists recon failed,
     Forall (fun io => is_recon_io io = true) recon /\
     trace (fire id w)
     = trace w ++ recon ++
       [HttpGet (obj_get (defaultOptions w) "serverUrl") (params_of v) failed]).
  { unfold fire. rewrite Hid. simpl.
    rewrite (dispatch_tick_connected w v q) by done.
    rewrite sendLogToServer_spec. simpl.
    destruct (lastInternetConnectedFlag (this w)).
    - simpl. rewrite Hopt. exists []. destruct (sink_up (env w)); eexists;
        (split; [constructor|]); reflexivity.
    - destruct (loadLogFiles_shape (with_this (with_logQueue q) w))
        as (extra & disk' & recon & -> & _ & Hrec & _). simpl. rewrite Hopt.
      exists recon. destruct (sink_up (env w)); eexists; (split; [done|]);
        simpl; by rewrite <- app_assoc. }
  split; [done|].
  destruct Hdeliver as (recon & failed & Hrec & ->).
  intros Hex. apply Exists_app in Hex as [Hex|Hex]; [done|].
  apply Exists_app in Hex as [Hex|Hex].
  - by apply recon_io_not_write in Hex.
  - apply Exists_cons in Hex as [Hex|Hex]; [done | by apply Exists_nil in Hex].
Qed.

Lemma first_connected_pop_reconciles_witness :
  never pops_connected sample_steps (init "Linux" sample_env) = true /\
  lastInternetConnectedFlag (this (exec sample_steps (init "Linux" sample_env)))
  = false.
Proof.
  assert (H1 : never pops_connected sample_steps (init "Linux" sample_env) = true)
    by reflexivity.
  split; [exact H1|].
  apply (first_connected_pop_reconciles sample_steps "Linux" sample_env
           2%positive (JNum 1000) sample_logged [] H1); reflexivity.
Defined.

Lemma before_first_probe_delivers_witness :
  never stores_probe sample_steps (init "Linux" sample_env) = true /\
  isInternetConnected (this (exec sample_steps (init "Linux" sample_env))) = true.
Proof.
  assert (H1 : never stores_probe sample_steps (init "Linux" sample_env) = true)
    by reflexivity.
  split; [exact H1|].
  apply (before_first_probe_delivers sample_steps "Linux" sample_env
           2%positive (JNum 1000) sample_logged [] H1); reflexivity.
Defined.

(** Claim C2, on the code: [setOptions] assigns into the module-level
    [defaultOptions] object itself, so the [networkCheckInterval] of a first
    call is still there after a second call that does not supply one, where
    the built-in default overlaid with the second call has 1000. *)
Theorem setOptions_twice_keeps_earlier_interval (osType : string) (e0 : Env) :
  let w := exec [Call_setOptions first_options; Call_setOptions sample_options]
                (init osType e0) in
  options (this w) = Some RDefaultOptions /\
  defaultOptions w
  = [("networkCheckInterval", JNum 5000); ("logCheckInterval", JNum 1000);
     ("logPath", JStr "/tmp/x"); ("serverUrl", JStr "http://example")] /\
  Object_assign defaultOptions0 sample_options
  = [("networkCheckInterval", JNum 1000); ("logCheckInterval", JNum 1000);
     ("logPath", JStr "/tmp/x"); ("serverUrl", JStr "http://example")].
Proof. repeat split. Qed.

(** ** Through the backlog store and back *)

(** ** The name of a backlog file *)

Section File_name.

#[local] Arguments String.append !_ _ / : simpl nomatch.

Lemma from_last_dot_append (a b : string) :
  path.from_last_dot a = None ->
  path.from_last_dot (a +:+ b) = path.from_last_dot b.
Proof.
  induction a as [|c a IH]; intros Ha; [done|].
  simpl in *. destruct (path.from_last_dot a); [done|].
  rewrite IH by done. destruct (path.from_last_dot b); [done|].
  by destruct (N_of_ascii c =? 46)%N.
Qed.

Lemma hex_digit_no_dot (n : N) :
  (N_of_ascii (JSON.hex_digit (n mod 16)) =? 46)%N = false.
Proof.
  assert (Hlt : (n mod 16 < 16)%N) by (apply N.mod_lt; lia).
  destruct (n mod 16)%N as [|p]; [reflexivity|].
  do 5 (destruct p as [p|p|]; try reflexivity; try lia).
Qed.

Lemma toString_hex_no_dot (d : nat) : forall n : N,
  path.from_last_dot (toString_hex d n) = None.
Proof.
  induction d as [|d IH]; intros n; [reflexivity|].
  change (toString_hex (S d) n)
    with (toString_hex d (n / 16) +:+ String (JSON.hex_digit (n mod 16)) "").
  rewrite from_last_dot_append by apply IH.
  simpl. by rewrite hex_digit_no_dot.
Qed.

Lemma toString_hex_head (d : nat) (n : N) :
  exists c r, toString_hex (S d) n = String c r /\
              (N_of_ascii c =? 46)%N = false /\ path.from_last_dot r = None.
Proof.
  pose proof (toString_hex_no_dot (S d) n) as Hno.
  destruct (toString_hex (S d) n) as [|c r] eqn:Heq.
  - change (toString_hex (S d) n)
      with (toString_hex d (n / 16) +:+ String (JSON.hex_digit (n mod 16)) "")
      in Heq.
    by destruct (toString_hex d (n / 16)).
  - exists c, r. split; [done|]. simpl in Hno.
    destruct (path.from_last_dot r); [done|].
    by destruct (N_of_ascii c =? 46)%N.
Qed.

(** The name [sendLogToFile] gives a file is one [loadLogFiles] takes. *)
Lemma is_log_file_hex (n : N) :
  is_log_file (toString_hex 40 n +:+ LOG_EXTENSION) = true.
Proof.
  destruct (toString_hex_head 39 n) as (c & r & -> & Hc & Hr).
  unfold is_log_file, path.extname. cbn [String.append].
  rewrite from_last_dot_append by done.
  assert (Hne : String c (r +:+ LOG_EXTENSION) <> "..").
  { intros Heq. injection Heq as -> _. discriminate. }
  rewrite (bool_decide_eq_false_2 _ Hne). reflexivity.
Qed.

End File_name.

(** ** Events *)

Lemma strip_attributes (m : list (string * string)) :
  strip (attributes m) = attributes m.
Proof.
  unfold attributes. simpl. f_equal.
  induction m as [|[k x] m IH]; simpl; [done|]. by f_equal.
Qed.

Lemma clean_attributes (m : list (string * string)) :
  NoDup (map fst m) -> clean (attributes m).
Proof.
  intros Hnd. simpl. split.
  - rewrite map_map. simpl. done.
  - induction m as [|[k x] m IH]; simpl; [done|]. split; [done|].
    apply IH. by inversion Hnd.
Qed.

(** What [JSON.stringify] writes for an event and what [JSON.parse] reads
    from it: the event without its [value] property when that holds
    [undefined]. *)
Lemma stringify_LogObject (e : Event) :
  well_formed e ->
  exists text,
    JSON.stringify (LogObject e) = Some text /\
    JSON.parse text = Some (strip (LogObject e)).
Proof.
  intros Hwf. unfold well_formed in Hwf.
  assert (Hkeys4 : NoDup ["action"; "value"; "date"; "osType"]).
  { refine (bool_decide_unpack _ _). by vm_compute. }
  assert (Hkeys3 : NoDup ["action"; "date"; "osType"]).
  { refine (bool_decide_unpack _ _). by vm_compute. }
  assert (Hs : JSON.stringify (LogObject e) = JSON.stringify (strip (LogObject e))
               /\ clean (strip (LogObject e))).
  { unfold LogObject. destruct (ev_value e) as [m|].
    - change (strip (JObj ?l)) with
        (JObj [("action", JStr (ev_action e)); ("value", strip (attributes m));
               ("date", JNum (ev_date e)); ("osType", JStr (ev_osType e))]).
      rewrite strip_attributes. split; [done|].
      split; [done|]. split; [done|]. split; [by apply clean_attributes|]. done.
    - split; [reflexivity|]. split; [done|]. simpl. done. }
  destruct Hs as [Hs Hc]. rewrite Hs. by apply parse_stringify.
Qed.

(** The fields of the parsed event are the fields of the original. *)
Lemma strip_LogObject_fields (e : Event) :
  get (strip (LogObject e)) "action" = JStr (ev_action e) /\
  get (strip (LogObject e)) "date" = JNum (ev_date e) /\
  get (strip (LogObject e)) "value"
  = match ev_value e with Some m => attributes m | None => JUndefined end /\
  get (strip (LogObject e)) "osType" = JStr (ev_osType e).
Proof.
  unfold LogObject. destruct (ev_value e) as [m|].
  - change (strip (JObj ?l)) with
      (JObj [("action", JStr (ev_action e)); ("value", strip (attributes m));
             ("date", JNum (ev_date e)); ("osType", JStr (ev_osType e))]).
    rewrite strip_attributes. repeat split.
  - repeat split.
Qed.

(** [log] queues the [LogObject] of the event it is called with. *)
Lemma log_queues_LogObject (w : World) (e : Event) (r : ref) :
  options (this w) = Some r ->
  clock (env w) = ev_date e ->
  defaultLoggerInfo (this w) = [("osType", JStr (ev_osType e))] ->
  log (JStr (ev_action e))
      (match ev_value e with Some m => attributes m | None => JUndefined end) w
  = (inr tt, grow [LogObject e] (disk (env w)) [] w).
Proof.
  intros Hopt Hclock Hinfo. rewrite (log_with_options w _ _ r Hopt).
  by rewrite Hclock, Hinfo.
Qed.

(** ** Disk fallback *)

Lemma sendLogToFile_backlog (w : World) (p : string)
      (files : gmap string entry) (v : jsval) (text : string) :
  backlog w p true files ->
  JSON.stringify v = Some text ->
  files !! (toString_hex 40 (entropy (env w) (drawn (env w))) +:+ LOG_EXTENSION)
  <> Some SubDir ->
  exists w',
    sendLogToFile v w = (inr tt, w') /\
    this w' = this w /\
    backlog w' p true
      (<[toString_hex 40 (entropy (env w) (drawn (env w))) +:+ LOG_EXTENSION
         := RegFile text]> files).
Proof.
  intros (Hopt & Hp & Hd) Ht Hn.
  destruct w as [l dopt tm nx en tr]. simpl in *.
  unfold sendLogToFile, try_catch, crypto_randomBytes, this_options, as_path,
    JSON_stringify, fs_writeFile, console_error, modify, emit, throw.
  rewrite !bind_unfold. simpl. rewrite Hopt. simpl.
  rewrite bind_unfold, Hp. simpl. rewrite bind_unfold, Ht. simpl.
  unfold fs.writeFile. rewrite Hd.
  set (name := toString_hex 40 (entropy en (drawn en)) +:+ LOG_EXTENSION) in *.
  destruct (files !! name) as [[c|]|] eqn:Hf; [|done|];
    (eexists; split; [reflexivity|]; split; [done|]; repeat split; simpl;
     [done | done | apply lookup_insert_eq]).
Qed.

(** Claim C8: for every event of the data model, [sendLogToFile] writes a
    backlog file (under a name [loadLogFiles] accepts) whose text is the
    JSON of the event; any later [loadLogFiles] that finds this file in the
    backlog directory queues the value the text denotes and removes the
    file; and the queued value has the action, the date, the attribute map
    (or none) and the origin metadata of the original. *)
Theorem backlog_round_trip (w : World) (e : Event) (p : string)
        (files : gmap string entry) :
  let name := toString_hex 40 (entropy (env w) (drawn (env w))) +:+ LOG_EXTENSION in
  let v := strip (LogObject e) in
  well_formed e ->
  backlog w p true files ->
  files !! name <> Some SubDir ->
  exists text w1,
    JSON.stringify (LogObject e) = Some text /\
    sendLogToFile (LogObject e) w = (inr tt, w1) /\
    backlog w1 p true (<[name := RegFile text]> files) /\
    (forall (w2 : World) (files2 : gmap string entry),
       backlog w2 p true files2 ->
       files2 !! name = Some (RegFile text) ->
       exists extra files3 t,
         loadLogFiles w2
         = (inr tt, grow extra (<[p := Dir true files3]> (disk (env w2))) t w2) /\
         v ∈ extra /\
         files3 !! name = None) /\
    get v "action" = JStr (ev_action e) /\
    get v "date" = JNum (ev_date e) /\
    get v "value"
    = match ev_value e with Some m => attributes m | None => JUndefined end /\
    get v "osType" = JStr (ev_osType e).
Proof.
  intros name v Hwf Hb Hn.
  destruct (stringify_LogObject e Hwf) as (text & Hs & Hp).
  destruct (sendLogToFile_backlog w p files (LogObject e) text Hb Hs Hn)
    as (w1 & Hsend & _ & Hb1).
  exists text, w1. split; [done|]. split; [done|]. split; [done|].
  split; [|apply strip_LogObject_fields].
  intros w2 files2 Hb2 Hf2.
  destruct (loadLogFiles_backlog w2 p true files2 Hb2)
    as (extra & files3 & t & Heq & _ & _ & _ & _ & Hl).
  destruct (Hl name v) as [Hgone Hin].
  - apply is_log_file_hex.
  - by exists text.
  - done.
  - eexists extra, files3, _. split; [exact Heq|]. split; [|done].
    apply Hin. unfold v, LogObject. by destruct (ev_value e).
Qed.

Lemma backlog_round_trip_witness :
  well_formed sample_event /\
  backlog sample_world "/tmp/x" true sample_files /\
  exists text w1,
    JSON.stringify (LogObject sample_event) = Some text /\
    sendLogToFile (LogObject sample_event) sample_world = (inr tt, w1) /\
    JSON.parse text = Some (strip (LogObject sample_event)).
Proof.
  assert (Hwf : well_formed sample_event).
  { refine (bool_decide_unpack _ _). by vm_compute. }
  assert (Hb : backlog sample_world "/tmp/x" true sample_files)
    by (repeat split).
  assert (Hn : sample_files
               !! (toString_hex 40 (entropy (env sample_world)
                                            (drawn (env sample_world)))
                   +:+ LOG_EXTENSION) <> Some SubDir).
  { vm_compute. discriminate. }
  split; [exact Hwf|]. split; [exact Hb|].
  destruct (backlog_round_trip sample_world sample_event "/tmp/x" sample_files
              Hwf Hb Hn) as (text & w1 & Hs & Hsend & _).
  exists text, w1. split; [exact Hs|]. split; [exact Hsend|].
  destruct (stringify_LogObject sample_event Hwf) as (text' & Hs' & Hp).
  congruence.
Defined.

(** The events [loadLogFiles] itself logs carry an Error object where the
    data model has a string: such an attribute is written as an empty
    object, and that is what is read back. *)
Remark error_attribute_is_written_empty :
  JSON.parse (default "" (JSON.stringify (unexpected sample_world SyntaxError)))
  = Some (JObj [("action", JStr "unexpected");
                ("value", JObj [("error", JObj [])]);
                ("date", JNum 1700000000123);
                ("osType", JStr "Linux")]).
Proof. vm_compute. reflexivity. Qed.

(* ===================================================================== *)
(** * Further properties of the code                                      *)
(* ===================================================================== *)

(** ** Objects *)

Lemma obj_get_obj_set (o : jsobj) (k k' : string) (v : jsval) :
  obj_get (obj_set o k v) k' = if decide (k' = k) then v else obj_get o k'.
Proof.
  induction o as [|[k0 v0] o IH]; simpl.
  - reflexivity.
  - destruct (decide (k = k0)) as [->|Hk]; simpl.
    + destruct (decide (k' = k0)); reflexivity.
    + destruct (decide (k' = k0)) as [->|Hk'].
      * destruct (decide (k0 = k)); congruence.
      * exact IH.
Qed.

Lemma obj_get_Object_assign (s : jsobj) : forall (t : jsobj) (k : string),
  NoDup (map fst s) ->
  obj_get (Object_assign t s) k
  = if bool_decide (k ∈ map fst s) then obj_get s k else obj_get t k.
Proof.
  unfold Object_assign.
  induction s as [|[k0 v0] s IH]; intros t k Hnd; simpl.
  - reflexivity.
  - apply NoDup_cons in Hnd as [Hk0 Hnd]. rewrite IH by done.
    rewrite obj_get_obj_set.
    destruct (decide (k = k0)) as [->|Hk].
    + rewrite (bool_decide_eq_false_2 _ Hk0).
      rewrite bool_decide_eq_true_2 by left. reflexivity.
    + destruct (bool_decide (k ∈ map fst s)) eqn:Hin.
      * apply bool_decide_eq_true_1 in Hin.
        rewrite bool_decide_eq_true_2 by (by right). reflexivity.
      * apply bool_decide_eq_false_1 in Hin.
        rewrite bool_decide_eq_false_2; [reflexivity|].
        intros [?|?]%elem_of_cons; done.
Qed.

Lemma obj_get_defined (o : jsobj) (k : string) :
  obj_get o k <> JUndefined -> k ∈ map fst o.
Proof.
  induction o as [|[k0 v0] o IH]; simpl; [done|].
  destruct (decide (k = k0)) as [->|Hk]; [left|right; auto].
Qed.

Lemma truthy_defined (o : jsobj) (k : string) :
  truthy (obj_get o k) = true -> k ∈ map fst o.
Proof. intros H. apply obj_get_defined. by destruct (obj_get o k). Qed.

(** ** Configuration *)

(** X1 ([setOptions], lines 53-65): the call completes exactly when both
    [logPath] and [serverUrl] are truthy (neither missing nor the empty
    string).  [logPath] is tested first, each test has its own message, and
    a call that throws has changed nothing: what an earlier call configured
    stays in force. *)
Theorem setOptions_requires_logPath_and_serverUrl (o : jsobj) (w : World) :
  ((setOptions o w).1 = inr tt <->
   truthy (obj_get o "logPath") = true /\ truthy (obj_get o "serverUrl") = true) /\
  ((setOptions o w).1 <> inr tt -> (setOptions o w).2 = w) /\
  (truthy (obj_get o "logPath") = false ->
   (setOptions o w).1 = inl (Err "logPath property must be presented")) /\
  (truthy (obj_get o "logPath") = true -> truthy (obj_get o "serverUrl") = false ->
   (setOptions o w).1 = inl (Err "server url must be presented")).
Proof.
  rewrite setOptions_spec.
  destruct (truthy (obj_get o "logPath")), (truthy (obj_get o "serverUrl")); simpl;
    repeat split; try done; intros []; done.
Qed.

(** X2 ([setOptions], lines 61-64): a successful call overlays the object
    [this.options] refers to: every property the argument has (also one it
    holds [undefined] in) takes the argument's value, every other property
    keeps the value it had before the call.  Queue, flags and timers are as
    before. *)
Theorem setOptions_overlays (o : jsobj) (w : World) (k : string) :
  NoDup (map fst o) ->
  truthy (obj_get o "logPath") = true ->
  truthy (obj_get o "serverUrl") = true ->
  let w' := (setOptions o w).2 in
  options (this w') = Some RDefaultOptions /\
  obj_get (defaultOptions w') k
  = (if bool_decide (k ∈ map fst o) then obj_get o k else obj_get (defaultOptions w) k) /\
  (logQueue (this w') = logQueue (this w) /\
   isInternetConnected (this w') = isInternetConnected (this w) /\
   lastInternetConnectedFlag (this w') = lastInternetConnectedFlag (this w) /\
   timers w' = timers w /\ env w' = env w /\ trace w' = trace w).
Proof.
  intros Hnd Hp Hu w'. subst w'. rewrite setOptions_spec, Hp, Hu. simpl.
  split; [done|]. split; [|done]. by apply obj_get_Object_assign.
Qed.

Lemma setOptions_overlays_witness :
  obj_get (defaultOptions (setOptions sample_options (init "Linux" sample_env)).2)
          "logCheckInterval" = JNum 1000 /\
  obj_get (defaultOptions (setOptions sample_options (init "Linux" sample_env)).2)
          "logPath" = JStr "/tmp/x".
Proof.
  split.
  - refine (proj1 (proj2 (setOptions_overlays sample_options (init "Linux" sample_env)
                            "logCheckInterval" _ _ _))).
    + refine (bool_decide_unpack _ _). by vm_compute.
    + reflexivity.
    + reflexivity.
  - refine (proj1 (proj2 (setOptions_overlays sample_options (init "Linux" sample_env)
                            "logPath" _ _ _))).
    + refine (bool_decide_unpack _ _). by vm_compute.
    + reflexivity.
    + reflexivity.
Defined.

(** X3 ([setOptions] after [run], lines 61-64 and 176-179): the timers keep
    the delays they were created with, but the callbacks read
    [this.options] when they fire: the next delivery goes to the
    [serverUrl] of the latest call. *)
Theorem setOptions_while_running_redirects (o : jsobj) (w : World) (v : jsval)
        (q : list jsval) :
  NoDup (map fst o) ->
  truthy (obj_get o "logPath") = true ->
  truthy (obj_get o "serverUrl") = true ->
  logQueue (this w) = v :: q -> truthy v = true ->
  isInternetConnected (this w) = true ->
  lastInternetConnectedFlag (this w) = true ->
  let w' := (setOptions o w).2 in
  timers w' = timers w /\
  exists failed,
    trace (dispatch_tick w').2
    = trace w ++ [HttpGet (obj_get o "serverUrl") (params_of v) failed].
Proof.
  intros Hnd Hp Hu Hq Hv Hc Hf w'.
  assert (Hurl : obj_get (defaultOptions w') "serverUrl" = obj_get o "serverUrl").
  { subst w'. rewrite setOptions_spec, Hp, Hu. simpl.
    rewrite obj_get_Object_assign by done.
    by rewrite bool_decide_eq_true_2 by by apply truthy_defined. }
  assert (Hw' : w' = with_this (with_options (Some RDefaultOptions))
                  (with_defaultOptions (Object_assign (defaultOptions w) o) w)).
  { subst w'. by rewrite setOptions_spec, Hp, Hu. }
  split; [by rewrite Hw'|].
  rewrite (dispatch_tick_connected w' v q); [| by rewrite Hw' | done | by rewrite Hw'].
  replace (lastInternetConnectedFlag (this w')) with true by by rewrite Hw'.
  rewrite sendLogToServer_spec. simpl.
  replace (options (this w')) with (Some RDefaultOptions) by by rewrite Hw'.
  rewrite Hurl.
  assert (Htr : trace w' = trace w) by by rewrite Hw'.
  destruct (sink_up (env w')); simpl; rewrite Htr; eauto.
Qed.

Lemma setOptions_while_running_redirects_witness :
  timers (setOptions first_options steady_world).2 = timers steady_world.
Proof.
  refine (proj1 (setOptions_while_running_redirects first_options steady_world
                   (hd JUndefined (logQueue (this steady_world)))
                   (tail (logQueue (this steady_world))) _ _ _ _ _ _ _)).
  - refine (bool_decide_unpack _ _). by vm_compute.
  - reflexivity.
  - reflexivity.
  - by vm_compute.
  - by vm_compute.
  - by vm_compute.
  - by vm_compute.
Defined.

(** ** What a step leaves alone *)

(** The queue callback changes the queue, the flag of the last tick, the
    disk and the trace, and nothing else. *)
Lemma dispatch_tick_frame (w : World) :
  options (this (dispatch_tick w).2) = options (this w) /\
  defaultLoggerInfo (this (dispatch_tick w).2) = defaultLoggerInfo (this w) /\
  isInternetConnected (this (dispatch_tick w).2) = isInternetConnected (this w) /\
  connectionCheckInterval (this (dispatch_tick w).2) = connectionCheckInterval (this w) /\
  queueCheckInterval (this (dispatch_tick w).2) = queueCheckInterval (this w) /\
  defaultOptions (dispatch_tick w).2 = defaultOptions w /\
  timers (dispatch_tick w).2 = timers w /\
  nextTimer (dispatch_tick w).2 = nextTimer w.
Proof.
  destruct (logQueue (this w)) as [|v q] eqn:Hq.
  { by rewrite dispatch_tick_nil. }
  destruct (truthy v) eqn:Hv.
  2:{ by rewrite (dispatch_tick_falsy w v q). }
  destruct (isInternetConnected (this w)) eqn:Hc.
  - rewrite (dispatch_tick_connected w v q) by done.
    rewrite sendLogToServer_spec. simpl.
    destruct (lastInternetConnectedFlag (this w)).
    + simpl. destruct (options (this w)) eqn:Ho; [destruct (sink_up (env w))|]; simpl; done.
    + destruct (loadLogFiles_shape (with_this (with_logQueue q) w))
        as (extra & d & t & -> & _). simpl.
      destruct (options (this w)) eqn:Ho; [destruct (sink_up (env w))|]; simpl; done.
  - rewrite (dispatch_tick_disconnected w v q) by done.
    match goal with |- context [sendLogToFile v ?w0] =>
      destruct (sendLogToFile_shape v w0) as (e' & t & -> & _) end.
    done.
Qed.

Lemma probe_tick_frame (w : World) :
  options (this (probe_tick w).2) = options (this w) /\
  defaultLoggerInfo (this (probe_tick w).2) = defaultLoggerInfo (this w) /\
  logQueue (this (probe_tick w).2) = logQueue (this w) /\
  defaultOptions (probe_tick w).2 = defaultOptions w /\
  timers (probe_tick w).2 = timers w.
Proof.
  destruct (reachable (env w)) as [e|b] eqn:Hr.
  - by rewrite (probe_tick_throws w e).
  - by rewrite (probe_tick_resolved w b).
Qed.

Lemma run_frame (w : World) :
  options (this (run w).2) = options (this w) /\
  defaultLoggerInfo (this (run w).2) = defaultLoggerInfo (this w) /\
  logQueue (this (run w).2) = logQueue (this w) /\
  defaultOptions (run w).2 = defaultOptions w.
Proof.
  destruct (options (this w)) as [r|] eqn:Ho.
  - by rewrite (run_spec w r).
  - by rewrite run_without_options.
Qed.

Lemma step_options (s : Step) (w : World) :
  options (this (step s w))
  = (if configures s then Some RDefaultOptions else options (this w)) /\
  defaultLoggerInfo (this (step s w)) = defaultLoggerInfo (this w).
Proof.
  destruct s as [o| | |a v|id|e]; unfold step, configures.
  - rewrite setOptions_spec.
    destruct (truthy (obj_get o "logPath")), (truthy (obj_get o "serverUrl")); done.
  - destruct (run_frame w) as (-> & -> & _). done.
  - by rewrite stop_spec.
  - by rewrite log_grow.
  - unfold fire. destruct (timers w !! id) as [[[] d]|]; simpl; [| |done].
    + destruct (probe_tick_frame w) as (-> & -> & _). done.
    + destruct (dispatch_tick_frame w) as (-> & -> & _). done.
  - done.
Qed.

Lemma exec_options (steps : list Step) : forall w : World,
  options (this (exec steps w))
  = (if existsb configures steps then Some RDefaultOptions else options (this w)) /\
  defaultLoggerInfo (this (exec steps w)) = defaultLoggerInfo (this w).
Proof.
  induction steps as [|s steps IH]; intros w; simpl; [done|].
  destruct (IH (step s w)) as [-> ->]. destruct (step_options s w) as [-> ->].
  split; [|done]. destruct (configures s); simpl; [|done].
  by destruct (existsb configures steps).
Qed.

(** ** Starting and stopping *)

(** X4 ([run], lines 67-70, and [log], line 92): [run] throws 'option is
    not defined', and [log] drops its event, exactly as long as no call of
    [setOptions] has passed its two tests; nothing un-configures the logger
    afterwards.  A [run] that throws has set no timer. *)
Theorem run_and_log_need_a_successful_setOptions
        (steps : list Step) (osType : string) (e0 : Env) (action value : jsval) :
  let w := exec steps (init osType e0) in
  (existsb configures steps = false <->
   run w = (inl (Err "option is not defined"), w)) /\
  (existsb configures steps = false <-> log action value w = (inr tt, w)) /\
  (existsb configures steps = true <-> (run w).1 = inr tt) /\
  (existsb configures steps = true <->
   length (logQueue (this (log action value w).2)) = S (length (logQueue (this w)))).
Proof.
  intros w. destruct (exec_options steps (init osType e0)) as [Ho _].
  fold w in Ho. simpl in Ho.
  destruct (existsb configures steps).
  - rewrite (run_spec w RDefaultOptions) by done.
    rewrite (log_with_options w action value RDefaultOptions) by done. simpl.
    rewrite length_app. simpl.
    repeat split; try done; try lia.
    intros H. apply (f_equal (fun r => length (logQueue (this r.2)))) in H.
    simpl in H. rewrite length_app in H. simpl in H. lia.
  - rewrite run_without_options by done. rewrite log_unconfigured by done. simpl.
    repeat split; try done. lia.
Qed.

(** X5 ([setOptions] then [run] on the fresh instance, lines 25-28, 61-64,
    105-109, 121-143): the two timers are created with the intervals the
    call supplied, and with the built-in 1000 for an interval it left out;
    the handles of both are stored. *)
Theorem first_run_uses_supplied_or_default_intervals
        (o : jsobj) (osType : string) (e0 : Env) :
  NoDup (map fst o) ->
  truthy (obj_get o "logPath") = true ->
  truthy (obj_get o "serverUrl") = true ->
  let w := exec [Call_setOptions o; Call_run] (init osType e0) in
  let supplied k := if bool_decide (k ∈ map fst o) then obj_get o k else JNum 1000 in
  timers w
  = <[2%positive := (DispatchTick, supplied "logCheckInterval")]>
      (<[1%positive := (ProbeTick, supplied "networkCheckInterval")]> ∅) /\
  connectionCheckInterval (this w) = Some 1%positive /\
  queueCheckInterval (this w) = Some 2%positive.
Proof.
  intros Hnd Hp Hu w supplied. subst w supplied. unfold exec. cbn [fold_left step].
  rewrite setOptions_spec, Hp, Hu. cbn [negb snd].
  erewrite run_spec by reflexivity. simpl.
  rewrite !obj_get_Object_assign by done. done.
Qed.

Lemma first_run_uses_supplied_or_default_intervals_witness :
  timers (exec [Call_setOptions first_options; Call_run] (init "Linux" sample_env))
  = <[2%positive := (DispatchTick, JNum 1000)]>
      (<[1%positive := (ProbeTick, JNum 5000)]> ∅).
Proof.
  refine (proj1 (first_run_uses_supplied_or_default_intervals first_options "Linux"
                   sample_env _ _ _)).
  - refine (bool_decide_unpack _ _). by vm_compute.
  - reflexivity.
  - reflexivity.
Defined.



(** X7 (lines 67-83, 105-109, 121-143): whatever the order of the calls and
    firings, at most one timer runs the connectivity callback and at most
    one runs the queue callback. *)
Theorem at_most_one_timer_of_each_kind
        (steps : list Step) (osType : string) (e0 : Env) (cb : Callback) :
  (active cb (exec steps (init osType e0)) <= 1)%nat.
Proof.
  pose proof (Inv_exec steps _ (Inv_init osType e0)) as HI.
  set (w := exec steps (init osType e0)) in *.
  unfold active.
  set (m := filter (fun kv : positive * (Callback * jsval) => kv.2.1 = cb) (timers w)).
  destruct (decide (m = ∅)) as [->|Hne]; [rewrite map_size_empty; lia|].
  apply map_choose in Hne as (i & [c d] & Hi).
  assert (Hsub : m ⊆ {[i := (c, d)]}).
  { apply map_subseteq_spec. intros j [c' d'] Hj.
    apply map_lookup_filter_Some in Hi as [Hi Hc]. simpl in Hc.
    pose proof Hj as Hj'.
    apply map_lookup_filter_Some in Hj' as [Hj' Hc']. simpl in Hc'. subst c c'.
    assert (j = i) as ->.
    { destruct (inv_timers w HI _ _ _ Hi) as [[-> Hh]|[-> Hh]];
        destruct (inv_timers w HI _ _ _ Hj') as [[? Hh']|[? Hh']]; congruence. }
    rewrite lookup_singleton_eq. congruence. }
  apply map_subseteq_size in Hsub. rewrite map_size_singleton in Hsub. exact Hsub.
Qed.

(** ** Delivery *)

(** X8 (lines 123-134, 174-184): while the connection is up, the collector
    answers and the previous tick was a connected one, the queue is drained
    first in, first out: one request per tick, in the order of the queue,
    to [options.serverUrl]; no file system call is made and nothing comes
    back to the queue. *)
Theorem connected_ticks_deliver_in_order (vs : list jsval) : forall w : World,
  options (this w) = Some RDefaultOptions ->
  logQueue (this w) = vs ->
  Forall (fun v => truthy v = true) vs ->
  isInternetConnected (this w) = true ->
  lastInternetConnectedFlag (this w) = true ->
  sink_up (env w) = true ->
  ticks (length vs) w
  = grow [] (disk (env w))
         (map (fun v => HttpGet (obj_get (defaultOptions w) "serverUrl")
                                (params_of v) None) vs)
         (with_this (with_logQueue []) w).
Proof.
  induction vs as [|v vs IH]; intros w Ho Hq Hvs Hc Hf Hs.
  - destruct w as [[] ? ? ? [] ?]. simpl in *. subst.
    unfold grow, with_this, with_logQueue. simpl. by rewrite app_nil_r.
  - apply Forall_cons in Hvs as [Hv Hvs].
    cbn [length]. unfold ticks. rewrite Nat.iter_succ_r.
    fold (ticks (length vs) (dispatch_tick w).2).
    rewrite (dispatch_tick_connected w v vs) by done. rewrite Hf.
    rewrite sendLogToServer_spec. cbn [snd]. simpl options. rewrite Ho.
    simpl sink_up. rewrite Hs.
    rewrite IH; try done; [|simpl; by rewrite app_nil_r].
    destruct w as [[] ? ? ? [] ?]. unfold grow, with_this, with_logQueue. simpl.
    rewrite <- app_assoc. reflexivity.
Qed.

Lemma connected_ticks_deliver_in_order_witness :
  trace (ticks 3 steady_world)
  = trace steady_world ++
    map (fun v => HttpGet (JStr "http://example") (params_of v) None)
        (logQueue (this steady_world)).
Proof.
  refine (f_equal trace
            (connected_ticks_deliver_in_order (logQueue (this steady_world))
               steady_world _ _ _ _ _ _)).
  - reflexivity.
  - reflexivity.
  - refine (bool_decide_unpack _ _). by vm_compute.
  - by vm_compute.
  - by vm_compute.
  - reflexivity.
Defined.

(** ** Disk fallback *)

Lemma stringify_truthy (v : jsval) :
  truthy v = true -> exists text, JSON.stringify v = Some text.
Proof. destruct v as [| |[]| | | | | |]; simpl; try done; eauto. Qed.

(** [sendLogToFile] on a configured logger: one random name is drawn, one
    write is attempted; a failed write is reported on the console. *)
Lemma sendLogToFile_spec (w : World) (p : string) (v : jsval) (text : string) :
  options (this w) = Some RDefaultOptions ->
  obj_get (defaultOptions w) "logPath" = JStr p ->
  JSON.stringify v = Some text ->
  let name := toString_hex 40 (entropy (env w) (drawn (env w))) +:+ LOG_EXTENSION in
  let env' d := mkEnv d (clock (env w)) (entropy (env w)) (S (drawn (env w)))
                      (sink_up (env w)) (reachable (env w)) in
  sendLogToFile v w =
  (inr tt,
   match fs.writeFile (disk (env w)) p name text with
   | inr d =>
       mkWorld (this w) (defaultOptions w) (timers w) (nextTimer w) (env' d)
               (trace w ++ [FsWriteFile p name text None])
   | inl e =>
       mkWorld (this w) (defaultOptions w) (timers w) (nextTimer w)
               (env' (disk (env w)))
               (trace w ++ [FsWriteFile p name text (Some e); ConsoleError [JError e]])
   end).
Proof.
  intros Hopt Hp Ht name env'. subst name env'.
  destruct w as [l dopt tm nx en tr]. simpl in *.
  unfold sendLogToFile, try_catch, crypto_randomBytes, this_options, as_path,
    JSON_stringify, fs_writeFile, console_error, modify, emit, throw.
  rewrite !bind_unfold. simpl. rewrite Hopt. simpl.
  rewrite bind_unfold, Hp. simpl. rewrite bind_unfold, Ht. simpl.
  destruct (fs.writeFile _ _ _ _); simpl; [|done].
  by rewrite <- app_assoc.
Qed.

(** X9 (lines 135-140, 186-197): a tick that takes an event while the
    cached connectivity is [false] never rejects, lowers the flag of the
    last tick, and makes no request: the only calls are those of
    [sendLogToFile].  Whether or not the write succeeds, the event does not
    come back to the queue. *)
Theorem disconnected_tick_never_requeues (w : World) (v : jsval) (q : list jsval) :
  logQueue (this w) = v :: q -> truthy v = true ->
  isInternetConnected (this w) = false ->
  exists t,
    (dispatch_tick w).1 = inr tt /\
    this (dispatch_tick w).2
    = with_lastInternetConnectedFlag false (with_logQueue q (this w)) /\
    trace (dispatch_tick w).2 = trace w ++ t /\
    Forall (fun io => is_file_io io = true) t.
Proof.
  intros Hq Hv Hc. rewrite (dispatch_tick_disconnected w v q) by done.
  match goal with |- context [sendLogToFile v ?w0] =>
    destruct (sendLogToFile_shape v w0) as (e' & t & -> & Ht) end.
  by exists t.
Qed.

Lemma disconnected_tick_never_requeues_witness :
  exists t,
    (dispatch_tick offline_world).1 = inr tt /\
    this (dispatch_tick offline_world).2
    = with_lastInternetConnectedFlag false (with_logQueue [] (this offline_world)) /\
    trace (dispatch_tick offline_world).2 = trace offline_world ++ t /\
    Forall (fun io => is_file_io io = true) t.
Proof.
  refine (disconnected_tick_never_requeues offline_world
            sample_offline_event [] _ _ _).
  - reflexivity.
  - reflexivity.
  - reflexivity.
Defined.

(** X10 ([sendLogToFile], lines 186-197): the write does not create the
    backlog directory.  When the directory is missing, the event taken by a
    disconnected tick is lost: the write fails with ENOENT, the error goes
    to the console, the disk is unchanged and the queue no longer holds the
    event. *)
Theorem offline_event_is_lost_without_directory
        (w : World) (p : string) (v : jsval) (q : list jsval) :
  options (this w) = Some RDefaultOptions ->
  obj_get (defaultOptions w) "logPath" = JStr p ->
  disk (env w) !! p = None ->
  logQueue (this w) = v :: q -> truthy v = true ->
  isInternetConnected (this w) = false ->
  exists text,
    JSON.stringify v = Some text /\
    (dispatch_tick w).1 = inr tt /\
    logQueue (this (dispatch_tick w).2) = q /\
    disk (env (dispatch_tick w).2) = disk (env w) /\
    trace (dispatch_tick w).2
    = trace w ++
      [FsWriteFile p (toString_hex 40 (entropy (env w) (drawn (env w))) +:+ LOG_EXTENSION)
                   text (Some ENOENT);
       ConsoleError [JError ENOENT]].
Proof.
  intros Hopt Hp Hd Hq Hv Hc.
  destruct (stringify_truthy v Hv) as [text Ht]. exists text. split; [done|].
  rewrite (dispatch_tick_disconnected w v q) by done.
  rewrite (sendLogToFile_spec _ p v text) by done.
  unfold fs.writeFile. simpl. rewrite Hd. done.
Qed.

Lemma offline_event_is_lost_without_directory_witness :
  exists text,
    JSON.stringify sample_offline_event = Some text /\
    (dispatch_tick offline_world).1 = inr tt /\
    logQueue (this (dispatch_tick offline_world).2) = [] /\
    disk (env (dispatch_tick offline_world).2) = disk (env offline_world).
Proof.
  destruct (offline_event_is_lost_without_directory offline_world "/tmp/x"
              sample_offline_event [] eq_refl eq_refl eq_refl eq_refl eq_refl eq_refl)
    as (text & H1 & H2 & H3 & H4 & _).
  exists text. repeat split; assumption.
Defined.

(** ** Reconciliation: the directory *)

(** X11 ([loadLogFiles], lines 147-151): when nothing exists at
    [options.logPath], the reconciliation creates the directory
    ([ensureDir]), finds it empty, queues nothing and reports nothing. *)
Theorem reconciliation_creates_missing_directory (w : World) (p : string) :
  options (this w) = Some RDefaultOptions ->
  obj_get (defaultOptions w) "logPath" = JStr p ->
  disk (env w) !! p = None ->
  loadLogFiles w
  = (inr tt, grow [] (<[p := Dir true ∅]> (disk (env w)))
                  [FsEnsureDir p None; FsReaddir p None] w).
Proof.
  intros Hopt Hp Hd.
  unfold loadLogFiles, try_catch, this_options. rewrite bind_unfold, Hopt.
  rewrite bind_unfold, Hp. simpl.
  rewrite bind_unfold, fs_ensureDir_grow. unfold fs.ensureDir. rewrite Hd.
  rewrite bind_unfold, fs_readdir_grow. simpl. unfold fs.readdir.
  rewrite lookup_insert_eq. simpl. rewrite map_to_list_empty. simpl.
  by rewrite !grow_grow.
Qed.

Lemma reconciliation_creates_missing_directory_witness :
  disk (env (loadLogFiles offline_world).2) !! "/tmp/x" = Some (Dir true ∅).
Proof.
  rewrite (reconciliation_creates_missing_directory offline_world "/tmp/x"
             eq_refl eq_refl eq_refl).
  reflexivity.
Defined.

(** X12 ([loadLogFiles] and its caller, lines 126-134, 145-172): when the
    backlog directory cannot be used (its path is taken by a regular
    file), the reconciliation stops at [ensureDir], writes 'logPath load
    failed' with the error to the console and queues nothing; the tick
    still raises the flag of the last tick and goes on to the request, so
    that the reconciliation is not tried again while the connection stays
    up. *)
Theorem failed_reconciliation_is_not_retried
        (w : World) (p : string) (v : jsval) (q : list jsval) :
  options (this w) = Some RDefaultOptions ->
  obj_get (defaultOptions w) "logPath" = JStr p ->
  disk (env w) !! p = Some File ->
  logQueue (this w) = v :: q -> truthy v = true ->
  isInternetConnected (this w) = true ->
  lastInternetConnectedFlag (this w) = false ->
  exists err failed,
    (dispatch_tick w).1 = inr tt /\
    lastInternetConnectedFlag (this (dispatch_tick w).2) = true /\
    disk (env (dispatch_tick w).2) = disk (env w) /\
    logQueue (this (dispatch_tick w).2)
    = q ++ (if failed is Some _ then [v] else []) /\
    trace (dispatch_tick w).2
    = trace w ++
      [FsEnsureDir p (Some err);
       ConsoleError [JStr "logPath load failed"; JError err];
       HttpGet (obj_get (defaultOptions w) "serverUrl") (params_of v) failed].
Proof.
  intros Hopt Hp Hd Hq Hv Hc Hf.
  rewrite (dispatch_tick_connected w v q) by done. rewrite Hf.
  assert (Hl : loadLogFiles (with_this (with_logQueue q) w)
               = (inr tt, grow [] (disk (env w))
                            [FsEnsureDir p (Some ENOTDIR);
                             ConsoleError [JStr "logPath load failed"; JError ENOTDIR]]
                            (with_this (with_logQueue q) w))).
  { unfold loadLogFiles, try_catch, this_options. rewrite bind_unfold. simpl.
    rewrite Hopt. rewrite bind_unfold, Hp. simpl.
    rewrite bind_unfold, fs_ensureDir_grow. unfold fs.ensureDir. simpl. rewrite Hd.
    rewrite console_error_grow, grow_grow. reflexivity. }
  rewrite Hl, sendLogToServer_spec. simpl. rewrite Hopt. exists ENOTDIR.
  destruct (sink_up (env w)).
  - exists None. simpl. rewrite app_nil_r, <- !app_assoc. done.
  - exists (Some NetworkError). simpl. rewrite <- !app_assoc. done.
Qed.

Lemma failed_reconciliation_is_not_retried_witness :
  exists (err : Error) (failed : option Error),
    (dispatch_tick blocked_world).1 = inr tt /\
    lastInternetConnectedFlag (this (dispatch_tick blocked_world).2) = true.
Proof.
  destruct (failed_reconciliation_is_not_retried blocked_world "/tmp/x"
              sample_offline_event []
              eq_refl eq_refl eq_refl eq_refl eq_refl eq_refl eq_refl)
    as (err & failed & H1 & H2 & _).
  exists err, failed. split; assumption.
Defined.

(** ** Reconciliation: which files *)

(** One task only makes calls on its own file. *)
Lemma loadLogFile_names (p n : string) (w : World) :
  exists extra d t,
    loadLogFile p n w = (inr tt, grow extra d t w) /\
    forall m, m <> n -> Forall (fun io => names_entry m io = false) t.
Proof.
  assert (Hne : forall m, m <> n -> (m =? n)%string = false).
  { intros m Hm. by apply String.eqb_neq. }
  unfold loadLogFile, try_catch. rewrite bind_unfold, fs_readFile_grow.
  destruct (fs.readFile _ _ _) as [e|c]; simpl.
  - rewrite bind_unfold, log_grow. simpl. rewrite console_error_grow, !grow_grow.
    eexists _, _, _. split; [reflexivity|]. intros m Hm.
    repeat (apply Forall_cons_2; [simpl; auto|]). constructor.
  - rewrite bind_unfold. unfold JSON_parse.
    destruct (JSON.parse c) as [v|]; simpl.
    + rewrite bind_unfold.
      destruct (truthy v) eqn:Hv.
      * rewrite push_grow. rewrite fs_unlink_grow. simpl.
        destruct (fs.unlink _ _ _) as [e|d].
        -- rewrite bind_unfold, log_grow. simpl.
           rewrite console_error_grow, !grow_grow.
           eexists _, _, _. split; [reflexivity|]. intros m Hm.
           repeat (apply Forall_cons_2; [simpl; auto|]). constructor.
        -- rewrite !grow_grow.
           eexists _, _, _. split; [reflexivity|]. intros m Hm.
           repeat (apply Forall_cons_2; [simpl; auto|]). constructor.
      * rewrite ret_unfold. rewrite fs_unlink_grow. simpl.
        destruct (fs.unlink _ _ _) as [e|d].
        -- rewrite bind_unfold, log_grow. simpl.
           rewrite console_error_grow, !grow_grow.
           eexists _, _, _. split; [reflexivity|]. intros m Hm.
           repeat (apply Forall_cons_2; [simpl; auto|]). constructor.
        -- rewrite !grow_grow.
           eexists _, _, _. split; [reflexivity|]. intros m Hm.
           repeat (apply Forall_cons_2; [simpl; auto|]). constructor.
    + unfold throw. rewrite bind_unfold, log_grow. simpl.
      rewrite console_error_grow, !grow_grow.
      eexists _, _, _. split; [reflexivity|]. intros m Hm.
      repeat (apply Forall_cons_2; [simpl; auto|]). constructor.
Qed.

Lemma Promise_all_names (p : string) (names : list string) : forall w : World,
  exists extra d t,
    Promise_all (map (loadLogFile p) names) w = (inr tt, grow extra d t w) /\
    forall m, m ∉ names -> Forall (fun io => names_entry m io = false) t.
Proof.
  induction names as [|n names IH]; intros w; simpl.
  - exists [], (disk (env w)), []. rewrite grow_nothing. split; [done|].
    intros; constructor.
  - destruct (loadLogFile_names p n w) as (e1 & d1 & t1 & -> & H1).
    destruct (IH (grow e1 d1 t1 w)) as (e2 & d2 & t2 & -> & H2).
    rewrite grow_grow. eexists _, _, _. split; [reflexivity|].
    intros m Hm. apply not_elem_of_cons in Hm as [Hne Hm].
    apply Forall_app_2; auto.
Qed.

(** X13 ([loadLogFiles], lines 152-155): a directory entry whose extension
    is not [.ehl] (compared without regard to letter case) is neither read
    nor removed by the reconciliation, and the directory holds it
    afterwards as before. *)
Theorem reconciliation_leaves_other_files_alone
        (w : World) (p : string) (wr : bool) (files : gmap string entry)
        (n : string) :
  backlog w p wr files ->
  is_log_file n = false ->
  exists extra files' t,
    loadLogFiles w
    = (inr tt, grow extra (<[p := Dir wr files']> (disk (env w))) t w) /\
    files' !! n = files !! n /\
    Forall (fun io => names_entry n io = false) t.
Proof.
  intros Hb Hn.
  destruct (loadLogFiles_backlog w p wr files Hb)
    as (extra & files' & t & Hl & _ & _ & Hout & _).
  exists extra, files', (FsEnsureDir p None :: FsReaddir p None :: t).
  split; [done|]. split; [by apply Hout|].
  repeat (apply Forall_cons_2; [done|]).
  destruct Hb as (Hopt & Hp & Hd).
  revert Hl. unfold loadLogFiles, try_catch, this_options.
  rewrite bind_unfold, Hopt. rewrite bind_unfold, Hp. simpl.
  rewrite bind_unfold, fs_ensureDir_grow. unfold fs.ensureDir. rewrite Hd.
  rewrite bind_unfold, fs_readdir_grow. simpl. unfold fs.readdir. rewrite Hd. simpl.
  match goal with |- context [Promise_all (map _ ?l) ?w0] =>
    destruct (Promise_all_names p l w0) as (e2 & d2 & t2 & -> & Hnames) end.
  rewrite !grow_grow. simpl. intros Heq.
  apply (f_equal snd) in Heq. cbn [snd] in Heq.
  apply grow_inj_trace in Heq as (_ & _ & Ht). injection Ht as <-.
  apply Hnames. rewrite elem_of_log_files. intros [Hn' _]. congruence.
Qed.

Lemma reconciliation_leaves_other_files_alone_witness :
  exists extra files' t,
    loadLogFiles sample_world
    = (inr tt, grow extra (<["/tmp/x" := Dir true files']> (disk (env sample_world)))
                    t sample_world) /\
    files' !! "notes.txt" = sample_files !! "notes.txt" /\
    Forall (fun io => names_entry "notes.txt" io = false) t.
Proof.
  refine (reconciliation_leaves_other_files_alone sample_world "/tmp/x" true
            sample_files "notes.txt" _ _).
  - repeat split.
  - reflexivity.
Defined.

(** ** The request *)

(** X14 ([sendLogToServer], lines 176-179): the query parameters are
    [{ action, date, ...value }].  An attribute of the event overrides the
    parameter of the same name, so that an attribute called [action] or
    [date] replaces the action or the date of the event in the request; any
    other name that is not an attribute (the origin [osType] among them) is
    not sent. *)
Theorem attributes_override_action_and_date
        (w : World) (e : Event) (m : list (string * string)) (k : string) :
  options (this w) = Some RDefaultOptions ->
  ev_value e = Some m ->
  NoDup (map fst m) ->
  exists params failed,
    trace (sendLogToServer (LogObject e) w).2
    = trace w ++ [HttpGet (obj_get (defaultOptions w) "serverUrl") params failed] /\
    obj_get params k
    = if bool_decide (k ∈ map fst m)
      then get (attributes m) k
      else obj_get [("action", JStr (ev_action e)); ("date", JNum (ev_date e))] k.
Proof.
  intros Hopt Hm Hnd. rewrite sendLogToServer_spec, Hopt.
  assert (Hp : obj_get (params_of (LogObject e)) k
               = if bool_decide (k ∈ map fst m)
                 then get (attributes m) k
                 else obj_get [("action", JStr (ev_action e));
                               ("date", JNum (ev_date e))] k).
  { unfold params_of, LogObject. simpl. rewrite Hm. simpl.
    assert (Hk : map fst (map (fun kv : string * string => (kv.1, JStr kv.2)) m)
                 = map fst m).
    { rewrite map_map. simpl. reflexivity. }
    rewrite obj_get_Object_assign by by rewrite Hk.
    by rewrite Hk. }
  exists (params_of (LogObject e)).
  destruct (sink_up (env w)); simpl; eauto.
Qed.

Lemma attributes_override_action_and_date_witness :
  exists params failed,
    trace (sendLogToServer
             (LogObject (mkEvent "click" 7 (Some [("action", "spoofed")]) "Linux"))
             sample_world).2
    = trace sample_world ++ [HttpGet (JStr "http://example") params failed] /\
    obj_get params "action" = JStr "spoofed".
Proof.
  refine (attributes_override_action_and_date sample_world
            (mkEvent "click" 7 (Some [("action", "spoofed")]) "Linux")
            [("action", "spoofed")] "action" _ _ _).
  - reflexivity.
  - reflexivity.
  - refine (bool_decide_unpack _ _). by vm_compute.
Defined.

(** ** The queue *)

(** X15 (the callback of the queue timer, lines 122-142): the callback
    never rejects, whatever the world it runs in: every failure of the
    calls it makes is caught.  It takes at most the head of the queue and
    keeps the order of the rest (what it adds goes to the tail), and it
    never touches the options, the timers or the cached connectivity. *)
Theorem queue_callback_never_rejects (w : World) :
  (dispatch_tick w).1 = inr tt /\
  (exists extra,
     logQueue (this (dispatch_tick w).2) = tail (logQueue (this w)) ++ extra) /\
  options (this (dispatch_tick w).2) = options (this w) /\
  defaultOptions (dispatch_tick w).2 = defaultOptions w /\
  timers (dispatch_tick w).2 = timers w /\
  isInternetConnected (this (dispatch_tick w).2) = isInternetConnected (this w).
Proof.
  destruct (dispatch_tick_queue w) as [H1 H2].
  destruct (dispatch_tick_frame w) as (H3 & _ & H4 & _ & _ & H5 & H6 & _).
  done.
Qed.

(** X16 ([this.options!], lines 147, 177, 190): whenever a timer is set,
    the options are defined, so that the non-null assertions in the
    methods the callbacks call never meet [undefined]. *)
Theorem options_are_defined_while_a_timer_is_set
        (steps : list Step) (osType : string) (e0 : Env)
        (id : positive) (cb : Callback) (d : jsval) :
  let w := exec steps (init osType e0) in
  timers w !! id = Some (cb, d) ->
  options (this w) = Some RDefaultOptions /\
  this_options w = (inr (defaultOptions w), w).
Proof.
  intros w Hid.
  pose proof (Inv_exec steps _ (Inv_init osType e0)) as HI. fold w in HI.
  assert (Ho : options (this w) = Some RDefaultOptions).
  { apply (inv_options w HI).
    destruct (inv_timers w HI _ _ _ Hid) as [[_ ->]|[_ ->]]; eauto. }
  split; [done|]. unfold this_options. by rewrite Ho.
Qed.

Lemma options_are_defined_while_a_timer_is_set_witness :
  options (this sample_world) = Some RDefaultOptions /\
  this_options sample_world = (inr (defaultOptions sample_world), sample_world).
Proof.
  refine (options_are_defined_while_a_timer_is_set
            [Call_setOptions sample_options; Call_run] "Linux" sample_env
            1%positive ProbeTick (JNum 1000) _).
  reflexivity.
Defined.

(** X17 (lines 93, 160, 182): the queue only ever holds truthy values:
    [log] pushes an object, the reconciliation pushes a parsed value only
    when it is truthy, and a failed request pushes back the value it took.
    The test [if (logObject)] in the callback therefore fails on the empty
    queue only. *)
Theorem queue_holds_truthy_values (steps : list Step) (osType : string) (e0 : Env) :
  Forall (fun v => truthy v = true) (logQueue (this (exec steps (init osType e0)))).
Proof. apply inv_queue, Inv_exec, Inv_init. Qed.

(** X18 ([log], lines 91-99, with the field initialiser of line 50): once
    the logger is configured, [log] appends exactly one object to the tail
    of the queue and does nothing else; the object holds the action and
    the value as given, the clock at the call as [date], and the [osType]
    the instance was constructed with. *)
Theorem log_stamps_date_and_origin
        (steps : list Step) (osType : string) (e0 : Env) (action value : jsval) :
  let w := exec steps (init osType e0) in
  options (this w) <> None ->
  log action value w
  = (inr tt,
     grow [JObj [("action", action); ("value", value);
                 ("date", JNum (clock (env w))); ("osType", JStr osType)]]
          (disk (env w)) [] w).
Proof.
  intros w Ho. destruct (exec_options steps (init osType e0)) as [_ Hinfo].
  fold w in Hinfo. simpl in Hinfo.
  destruct (options (this w)) as [r|] eqn:Hr; [|done].
  rewrite (log_with_options w action value r Hr), Hinfo. reflexivity.
Qed.

Lemma log_stamps_date_and_origin_witness :
  log (JStr "click") JUndefined sample_world
  = (inr tt, grow [sample_logged] (disk (env sample_world)) [] sample_world).
Proof.
  refine (log_stamps_date_and_origin [Call_setOptions sample_options; Call_run]
            "Linux" sample_env (JStr "click") JUndefined _).
  discriminate.
Defined.

(** ** The extension filter *)

Section Extension.

#[local] Arguments String.append !_ _ / : simpl nomatch.

Lemma from_last_dot_suffix (s e : string) :
  path.from_last_dot s = Some e -> exists pre, s = pre +:+ e.
Proof.
  revert e. induction s as [|c s IH]; intros e; simpl; [done|].
  destruct (path.from_last_dot s) as [e'|].
  - intros [= <-]. destruct (IH e' eq_refl) as [pre ->].
    by exists (String c pre).
  - destruct (N_of_ascii c =? 46)%N; [|done]. intros [= <-]. by exists "".
Qed.

Lemma from_last_dot_keeps (a b e : string) :
  path.from_last_dot b = Some e -> path.from_last_dot (a +:+ b) = Some e.
Proof.
  intros Hb. induction a as [|c a IH]; simpl; [done|]. by rewrite IH.
Qed.

Lemma lower_char_dot (c : ascii) :
  (N_of_ascii (lower_char c) =? 46)%N = (N_of_ascii c =? 46)%N.
Proof. by destruct c as [[] [] [] [] [] [] [] []]. Qed.

Lemma from_last_dot_toLowerCase (s : string) :
  path.from_last_dot (toLowerCase s) = toLowerCase <$> path.from_last_dot s.
Proof.
  induction s as [|c s IH]; simpl; [done|].
  rewrite IH. destruct (path.from_last_dot s); simpl; [done|].
  rewrite lower_char_dot. by destruct (N_of_ascii c =? 46)%N.
Qed.

Lemma toLowerCase_length (s : string) :
  String.length (toLowerCase s) = String.length s.
Proof. induction s; simpl; congruence. Qed.

(** X19 (the filter of [loadLogFiles], line 154): a directory entry is
    taken for a backlog record exactly when its name is a non-empty base
    followed by [.ehl] in any letter case; the bare name [.ehl] is not. *)
Theorem log_file_names (name : string) :
  is_log_file name = true <->
  exists base ext,
    name = base +:+ ext /\ base <> "" /\ toLowerCase ext = LOG_EXTENSION.
Proof.
  unfold is_log_file. rewrite bool_decide_eq_true. split.
  - destruct name as [|c r]; simpl; [done|].
    destruct (path.from_last_dot r) as [e|] eqn:He; [|done].
    destruct (bool_decide (String c r = "..")); [done|]. intros Hlow.
    destruct (from_last_dot_suffix r e He) as [pre ->].
    by exists (String c pre), e.
  - intros (base & ext & -> & Hbase & Hext).
    destruct base as [|c base]; [done|]. simpl.
    assert (Hdot : path.from_last_dot ext = Some ext).
    { pose proof (from_last_dot_toLowerCase ext) as H. rewrite Hext in H.
      simpl in H. destruct (path.from_last_dot ext) as [e|] eqn:He; [|done].
      destruct (from_last_dot_suffix ext e He) as [pre Hpre].
      simpl in H. injection H as H.
      assert (Hlen : String.length e = String.length ext).
      { rewrite <- (toLowerCase_length e), <- H, <- (toLowerCase_length ext), Hext.
        reflexivity. }
      rewrite Hpre in Hlen.
      destruct pre; [by rewrite Hpre|].
      exfalso. clear -Hlen. simpl in Hlen.
      rewrite length_append in Hlen. lia. }
    rewrite (from_last_dot_keeps base ext ext Hdot).
    rewrite bool_decide_eq_false_2; [done|].
    intros [= -> Heq].
    destruct base as [|? [|? ?]]; simpl in Heq; subst; try done.
    destruct ext as [|? [|? ?]]; simpl in *; done.
Qed.

End Extension.

(** ** Restarting *)

(** X20 ([run], lines 67-78): in every world the program can be in, [run]
    on a configured logger leaves exactly two timers, under fresh handles,
    with the intervals the options hold at that moment: a changed interval
    takes effect at the next [run].  The queue and both flags are not
    reset: what was logged before waits for the engine. *)
Theorem run_restarts_with_current_intervals
        (steps : list Step) (osType : string) (e0 : Env) :
  let w := exec steps (init osType e0) in
  options (this w) <> None ->
  let w' := (run w).2 in
  (run w).1 = inr tt /\
  timers w'
  = <[Pos.succ (nextTimer w) :=
        (DispatchTick, obj_get (defaultOptions w) "logCheckInterval")]>
      (<[nextTimer w :=
           (ProbeTick, obj_get (defaultOptions w) "networkCheckInterval")]> ∅) /\
  connectionCheckInterval (this w') = Some (nextTimer w) /\
  queueCheckInterval (this w') = Some (Pos.succ (nextTimer w)) /\
  timers w !! nextTimer w = None /\
  timers w !! Pos.succ (nextTimer w) = None /\
  logQueue (this w') = logQueue (this w) /\
  isInternetConnected (this w') = isInternetConnected (this w) /\
  lastInternetConnectedFlag (this w') = lastInternetConnectedFlag (this w).
Proof.
  intros w Ho w'. subst w'.
  pose proof (Inv_exec steps _ (Inv_init osType e0)) as HI. fold w in HI.
  destruct (options (this w)) as [r|] eqn:Hr; [|done].
  rewrite (run_timers w r HI Hr). simpl.
  assert (Hfresh : forall id, (nextTimer w <= id)%positive -> timers w !! id = None).
  { intros id Hid. destruct (timers w !! id) as [[cb d]|] eqn:Hl; [|done].
    pose proof (inv_fresh w HI _ _ _ Hl). lia. }
  repeat split; apply Hfresh; lia.
Qed.

Lemma run_restarts_with_current_intervals_witness :
  (run steady_world).1 = inr tt.
Proof.
  refine (proj1 (run_restarts_with_current_intervals
                   (sample_steps ++ [Fire 2%positive]) "Linux" sample_env _)).
  intros H. vm_compute in H. discriminate H.
Defined.

(** ** Reconciliation: once *)






(** ** Store and forward *)

Lemma log_files_one (files : gmap string entry) (name : string) :
  is_log_file name = true -> is_Some (files !! name) ->
  (forall n, is_log_file n = true -> n <> name -> files !! n = None) ->
  List.filter is_log_file (map fst (map_to_list files)) = [name].
Proof.
  intros Hn Hs Hnone.
  pose proof (NoDup_log_files files) as Hnd.
  assert (Hall : forall n, n ∈ List.filter is_log_file (map fst (map_to_list files))
                           <-> n = name).
  { intros n. rewrite elem_of_log_files. split.
    - intros [Hl [x Hx]]. destruct (decide (n = name)) as [|Hne]; [done|].
      rewrite (Hnone n Hl Hne) in Hx. done.
    - intros ->. done. }
  destruct (List.filter is_log_file (map fst (map_to_list files))) as [|a l].
  - exfalso. apply (elem_of_nil name). by apply Hall.
  - assert (a = name) as -> by (apply Hall; by left).
    destruct l as [|b l]; [done|]. exfalso.
    assert (b = name) as -> by (apply Hall; right; by left).
    apply NoDup_cons in Hnd as [Hnin _]. apply Hnin. by left.
Qed.

(** [loadLogFiles] on a backlog directory that holds one record. *)
Lemma loadLogFiles_one_record (w : World) (p : string) (files : gmap string entry)
      (name : string) (v : jsval) :
  backlog w p true files ->
  is_log_file name = true ->
  loadable files name v ->
  (forall n, is_log_file n = true -> n <> name -> files !! n = None) ->
  loadLogFiles w
  = (inr tt,
     grow (if truthy v then [v] else [])
          (<[p := Dir true (delete name files)]> (disk (env w)))
          [FsEnsureDir p None; FsReaddir p None;
           FsReadFile p name None; FsUnlink p name None] w).
Proof.
  intros (Hopt & Hp & Hd) Hn Hl Hnone.
  unfold loadLogFiles, try_catch, this_options. rewrite bind_unfold, Hopt.
  rewrite bind_unfold, Hp. simpl.
  rewrite bind_unfold, fs_ensureDir_grow. unfold fs.ensureDir. rewrite Hd.
  rewrite bind_unfold, fs_readdir_grow. simpl. unfold fs.readdir. rewrite Hd. simpl.
  assert (Hs : is_Some (files !! name)) by (destruct Hl as (c & Hc & _); eauto).
  rewrite (log_files_one files name Hn Hs Hnone).
  cbn [map Promise_all].
  rewrite (loadLogFile_loadable p name _ files v) by done.
  rewrite !grow_grow. simpl. reflexivity.
Qed.

Lemma params_of_strip_LogObject (e : Event) :
  params_of (strip (LogObject e)) = params_of (LogObject e).
Proof.
  destruct (strip_LogObject_fields e) as (Ha & Hd & Hv & _).
  unfold params_of. rewrite Ha, Hd, Hv. reflexivity.
Qed.

(** X22 (lines 121-143, 145-172, 174-197): store and forward, end to end.
    An event taken while the cached connectivity is [false] is written to
    the backlog directory and leaves the queue.  Once a probe has answered
    [true], the tick that takes the next event first reconciles (the
    record is read, queued and removed) and then sends that next event;
    the tick after it sends the stored event, with the parameters a direct
    delivery would have sent.  The backlog directory is as it was. *)
Theorem offline_event_is_delivered_after_reconnect
        (w : World) (p : string) (files : gmap string entry) (e : Event)
        (action value : jsval) :
  let name := toString_hex 40 (entropy (env w) (drawn (env w))) +:+ LOG_EXTENSION in
  let url := obj_get (defaultOptions w) "serverUrl" in
  backlog w p true files ->
  (forall n, is_log_file n = true -> files !! n = None) ->
  logQueue (this w) = [LogObject e] ->
  well_formed e ->
  isInternetConnected (this w) = false ->
  reachable (env w) = inr true ->
  sink_up (env w) = true ->
  let w1 := (dispatch_tick w).2 in
  let w2 := (probe_tick w1).2 in
  let w3 := (log action value w2).2 in
  let w4 := ticks 2 w3 in
  exists text next,
    JSON.stringify (LogObject e) = Some text /\
    disk (env w1) !! p = Some (Dir true (<[name := RegFile text]> files)) /\
    logQueue (this w1) = [] /\
    logQueue (this w3) = [next] /\
    trace w4
    = trace w ++
      [FsWriteFile p name text None; ProbeCall (inr true);
       FsEnsureDir p None; FsReaddir p None;
       FsReadFile p name None; FsUnlink p name None;
       HttpGet url (params_of next) None;
       HttpGet url (params_of (LogObject e)) None] /\
    logQueue (this w4) = [] /\
    disk (env w4) !! p = Some (Dir true files).
Proof.
  intros name url Hb Hnone Hq Hwf Hc Hr Hs w1 w2 w3 w4.
  destruct (stringify_LogObject e Hwf) as (text & Htext & Hparse).
  pose proof Hb as (Hopt & Hp & Hd).
  assert (Hname : files !! name = None) by (apply Hnone, is_log_file_hex).
  (* the disconnected tick *)
  assert (H1 : w1 = mkWorld
                 (with_lastInternetConnectedFlag false (with_logQueue [] (this w)))
                 (defaultOptions w) (timers w) (nextTimer w)
                 (mkEnv (<[p := Dir true (<[name := RegFile text]> files)]> (disk (env w)))
                        (clock (env w)) (entropy (env w)) (S (drawn (env w)))
                        (sink_up (env w)) (reachable (env w)))
                 (trace w ++ [FsWriteFile p name text None])).
  { subst w1. rewrite (dispatch_tick_disconnected w (LogObject e) []) by done.
    rewrite (sendLogToFile_spec _ p (LogObject e) text) by done.
    cbn [snd]. unfold fs.writeFile.
    cbn [with_this env this defaultOptions timers nextTimer trace].
    rewrite Hd. fold name. rewrite Hname. reflexivity. }
  clearbody w1. subst w1.
  (* the probe answers *)
  assert (H2 : w2 = mkWorld
                 (with_isInternetConnected true
                    (with_lastInternetConnectedFlag false (with_logQueue [] (this w))))
                 (defaultOptions w) (timers w) (nextTimer w)
                 (mkEnv (<[p := Dir true (<[name := RegFile text]> files)]> (disk (env w)))
                        (clock (env w)) (entropy (env w)) (S (drawn (env w)))
                        (sink_up (env w)) (reachable (env w)))
                 (trace w ++ [FsWriteFile p name text None; ProbeCall (inr true)])).
  { subst w2. rewrite (probe_tick_resolved _ true) by done.
    unfold with_this, emit. cbn [snd this defaultOptions timers nextTimer env trace].
    by rewrite <- app_assoc. }
  clearbody w2. subst w2.
  (* a new event is logged *)
  set (next := JObj (Object_assign
                       [("action", action); ("value", value);
                        ("date", JNum (clock (env w)))]
                       (defaultLoggerInfo (this w)))).
  assert (H3 : w3 = mkWorld
                 (with_logQueue [next]
                    (with_isInternetConnected true
                       (with_lastInternetConnectedFlag false (this w))))
                 (defaultOptions w) (timers w) (nextTimer w)
                 (mkEnv (<[p := Dir true (<[name := RegFile text]> files)]> (disk (env w)))
                        (clock (env w)) (entropy (env w)) (S (drawn (env w)))
                        (sink_up (env w)) (reachable (env w)))
                 (trace w ++ [FsWriteFile p name text None; ProbeCall (inr true)])).
  { subst w3. rewrite (log_with_options _ action value RDefaultOptions) by done.
    unfold grow. cbn [snd this defaultOptions timers nextTimer env trace disk clock
                      entropy drawn sink_up reachable with_logQueue
                      with_isInternetConnected with_lastInternetConnectedFlag
                      logQueue defaultLoggerInfo options isInternetConnected
                      lastInternetConnectedFlag connectionCheckInterval
                      queueCheckInterval app].
    by rewrite app_nil_r. }
  clearbody w3. subst w3.
  exists text, next. split; [done|]. split; [apply lookup_insert_eq|].
  split; [done|]. split; [done|].
  set (disk1 := <[p := Dir true (<[name := RegFile text]> files)]> (disk (env w))) in *.
  set (env1 := mkEnv disk1 (clock (env w)) (entropy (env w)) (S (drawn (env w)))
                     (sink_up (env w)) (reachable (env w))) in *.
  set (tr3 := trace w ++ [FsWriteFile p name text None; ProbeCall (inr true)]) in *.
  set (W3 := mkWorld
               (with_logQueue [next]
                  (with_isInternetConnected true
                     (with_lastInternetConnectedFlag false (this w))))
               (defaultOptions w) (timers w) (nextTimer w) env1 tr3) in *.
  (* the tick that finds the connection back *)
  set (v := strip (LogObject e)).
  assert (Hv : truthy v = true) by reflexivity.
  assert (Hload : loadLogFiles (with_this (with_logQueue []) W3)
                  = (inr tt,
                     grow [v] (<[p := Dir true files]> disk1)
                          [FsEnsureDir p None; FsReaddir p None;
                           FsReadFile p name None; FsUnlink p name None]
                          (with_this (with_logQueue []) W3))).
  { rewrite (loadLogFiles_one_record _ p (<[name := RegFile text]> files) name v).
    - rewrite Hv. cbn [with_this env disk W3 env1].
      by rewrite delete_insert_id.
    - repeat split; [done..|]. apply lookup_insert_eq.
    - apply is_log_file_hex.
    - exists text. split; [apply lookup_insert_eq|done].
    - intros n Hn Hne. rewrite lookup_insert_ne by done. by apply Hnone. }
  assert (H4 : (dispatch_tick W3).2
               = mkWorld
                   (with_logQueue [v]
                      (with_isInternetConnected true
                         (with_lastInternetConnectedFlag true (this w))))
                   (defaultOptions w) (timers w) (nextTimer w)
                   (mkEnv (<[p := Dir true files]> disk1)
                          (clock (env w)) (entropy (env w)) (S (drawn (env w)))
                          (sink_up (env w)) (reachable (env w)))
                   (tr3 ++ [FsEnsureDir p None; FsReaddir p None;
                            FsReadFile p name None; FsUnlink p name None;
                            HttpGet url (params_of next) None])).
  { rewrite (dispatch_tick_connected W3 next []); [|done..].
    cbn [W3 this lastInternetConnectedFlag with_logQueue with_isInternetConnected
         with_lastInternetConnectedFlag].
    rewrite Hload. rewrite sendLogToServer_spec.
    unfold grow, with_this.
    cbn [snd W3 this defaultOptions timers nextTimer env trace options sink_up env1
         disk clock entropy drawn reachable with_logQueue with_isInternetConnected
         with_lastInternetConnectedFlag logQueue isInternetConnected
         lastInternetConnectedFlag connectionCheckInterval queueCheckInterval
         defaultLoggerInfo app].
    rewrite Hopt, Hs.
    cbn [snd W3 this defaultOptions timers nextTimer env trace options sink_up env1
         disk clock entropy drawn reachable with_logQueue with_isInternetConnected
         with_lastInternetConnectedFlag logQueue isInternetConnected
         lastInternetConnectedFlag connectionCheckInterval queueCheckInterval
         defaultLoggerInfo app].
    rewrite <- !app_assoc. reflexivity. }
  (* the next tick sends the event that went through the disk *)
  assert (H5 : w4 = mkWorld
                 (with_logQueue []
                    (with_isInternetConnected true
                       (with_lastInternetConnectedFlag true (this w))))
                 (defaultOptions w) (timers w) (nextTimer w)
                 (mkEnv (<[p := Dir true files]> disk1)
                        (clock (env w)) (entropy (env w)) (S (drawn (env w)))
                        (sink_up (env w)) (reachable (env w)))
                 (tr3 ++ [FsEnsureDir p None; FsReaddir p None;
                          FsReadFile p name None; FsUnlink p name None;
                          HttpGet url (params_of next) None;
                          HttpGet url (params_of (LogObject e)) None])).
  { subst w4. unfold ticks. cbn [Nat.iter nat_rect]. rewrite H4.
    match goal with |- (dispatch_tick ?W).2 = _ =>
      rewrite (dispatch_tick_connected W v []); [|done..] end.
    cbn [this lastInternetConnectedFlag with_logQueue with_isInternetConnected
         with_lastInternetConnectedFlag].
    rewrite sendLogToServer_spec.
    unfold grow, with_this.
    cbn [snd this defaultOptions timers nextTimer env trace options sink_up
         disk clock entropy drawn reachable with_logQueue with_isInternetConnected
         with_lastInternetConnectedFlag logQueue isInternetConnected
         lastInternetConnectedFlag connectionCheckInterval queueCheckInterval
         defaultLoggerInfo app].
    rewrite Hopt, Hs.
    cbn [snd this defaultOptions timers nextTimer env trace options sink_up
         disk clock entropy drawn reachable with_logQueue with_isInternetConnected
         with_lastInternetConnectedFlag logQueue isInternetConnected
         lastInternetConnectedFlag connectionCheckInterval queueCheckInterval
         defaultLoggerInfo app].
    unfold v. rewrite params_of_strip_LogObject.
    rewrite <- !app_assoc. reflexivity. }
  rewrite H5. cbn [trace this env disk logQueue with_logQueue].
  split; [|split; [done|apply lookup_insert_eq]].
  unfold tr3. rewrite <- app_assoc. reflexivity.
Qed.

Lemma offline_event_is_delivered_after_reconnect_witness :
  exists text next,
    JSON.stringify (LogObject sample_event) = Some text /\
    logQueue (this (log (JStr "view") JUndefined
                      (probe_tick (dispatch_tick reconnect_world).2).2).2) = [next] /\
    logQueue (this (ticks 2 (log (JStr "view") JUndefined
                               (probe_tick (dispatch_tick reconnect_world).2).2).2))
    = [].
Proof.
  destruct (offline_event_is_delivered_after_reconnect reconnect_world "/tmp/x" ∅
              sample_event (JStr "view") JUndefined)
    as (text & next & H1 & _ & _ & H2 & _ & H3 & _).
  - repeat split.
  - intros n _. apply lookup_empty.
  - by vm_compute.
  - refine (bool_decide_unpack _ _). by vm_compute.
  - by vm_compute.
  - reflexivity.
  - reflexivity.
  - exists text, next. repeat split; assumption.
Defined.
